(** * mcp-terminal: the command policy, the execution engine and the RPC session

    A shallow embedding of the TypeScript sources of the repository:

    - [Config] and [ConfigSubstring]: the two revisions of [shell/config.ts]
      (the active approval configuration, [shouldAutoApproveCommand],
      [setConfigFromJson]);
    - [Exec] and [ExecApproval]: the two revisions of [shell/exec.ts]
      ([isCommandDenied], [executeCommand] and its output handlers);
    - [Rpc]: [rpc/client.ts] (the [RpcClient] session);
    - [Server]: [server.ts] ([processArgs] and the handler of the tool);
    - [StdioTransport] and [Transport]: [client/transport]
      ([parseCommandString], [createTransport], the address [SseTransport]
      posts to);
    - [MockServer]: [mock-mcp-server.js].

    JavaScript strings are modelled by [string]; their [length], [substring]
    and [includes] count characters.  What the JavaScript runtime provides
    (the regular-expression engine, [JSON.parse], the text of a number
    beyond the safe integers, the events of a child process, [uuid]) is not
    code of the repository: it appears as a class or as an argument of the
    operation that consumes it. *)

From Stdlib Require Import Bool List String Ascii ZArith Lia.
From Stdlib Require Import Numbers.DecimalString.
Import ListNotations.
Open Scope string_scope.
Open Scope Z_scope.

(** ** Results of code that may throw *)

(** The exception of the code modelled here: the [SyntaxError] of a
    regular expression that does not compile. *)
Inductive JsError : Type :=
| SyntaxError (what : string).

Inductive Result (A : Type) : Type :=
| Ok (a : A)
| Throw (e : JsError).
Arguments Ok {A} a.
Arguments Throw {A} e.

Definition bind {A B : Type} (r : Result A) (k : A -> Result B) : Result B :=
  match r with
  | Ok a => k a
  | Throw e => Throw e
  end.

Notation "x <- r ;; k" := (bind r (fun x => k))
  (at level 61, r at next level, right associativity).

(** ** JavaScript strings *)

Module Js.

(** [s.length] *)
Definition length (s : string) : Z := Z.of_nat (String.length s).

(** [s.includes(p)]: [p] occurs in [s] as a contiguous run of characters. *)
Fixpoint includes (s p : string) : bool :=
  String.prefix p s ||
  match s with
  | EmptyString => false
  | String _ s' => includes s' p
  end.

(** [s.substring(a, b)]: negative arguments count as 0, arguments beyond the
    length as the length, and the two are swapped when [a > b]. *)
Definition clamp (n : Z) (s : string) : Z := Z.max 0 (Z.min n (length s)).

Definition substring (s : string) (a b : Z) : string :=
  let a' := clamp a s in
  let b' := clamp b s in
  let lo := Z.min a' b' in
  let hi := Z.max a' b' in
  String.substring (Z.to_nat lo) (Z.to_nat (hi - lo)) s.

(** A string of [n] copies of one character. *)
Fixpoint repeat (c : ascii) (n : nat) : string :=
  match n with
  | O => EmptyString
  | S n' => String c (repeat c n')
  end.

(** [String(n)] of an integer. *)
Definition String_of_Z (n : Z) : string := NilZero.string_of_int (Z.to_int n).

(** The line feed of a [\n] escape. *)
Definition LF : string := String (ascii_of_nat 10) EmptyString.

End Js.

(** ** types.ts: the arguments and the outcomes of [run_terminal_cmd] *)

(** A number or a string: what [err.code] of a child-process error holds, and
    so what [exitCode] may receive from it. *)
Inductive JsCode : Type :=
| CodeNumber (n : Z)
| CodeString (s : string).

Module Types.

Record RunTerminalCmdArgs : Type := {
  command : string;
  explanation : string;
  is_background : bool;
  require_user_approval : bool
}.

(** [truncated?: boolean]: [None] is the absent ([undefined]) field. *)
Record CommandExecSuccessResult : Type := {
  stdout : string;
  stderr : string;
  exitCode : JsCode;
  truncated : option bool
}.

(** The [details] objects the engine builds: [{ command }] for a refusal,
    [{ command, error_code, signal }] for a failure of the process. *)
Inductive ErrorDetails : Type :=
| DetailsCommand (command : string)
| DetailsProcess (command : string) (error_code : option JsCode)
    (signal : option string).

Record CommandExecErrorResult : Type := {
  message : string;
  code : option string;
  details : ErrorDetails
}.

(** [CommandExecOutcome]; the [waiting] variant carries the constant
    [{ status: 'waiting_for_approval' }]. *)
Inductive CommandExecOutcome : Type :=
| success (result : CommandExecSuccessResult)
| waiting
| error (e : CommandExecErrorResult).

End Types.

(** ** What [child_process.exec] exchanges with the engine *)

Module Node.

(** [ExecException]: the fields the engine reads. *)
Record ExecException : Type := {
  message : string;
  code : option JsCode;
  signal : option string
}.

(** The events of the child process the engine listens to: [data] on the two
    output streams, [close] with the exit code ([None] is [null]) and
    [error]. *)
Inductive ChildEvent : Type :=
| StdoutData (data : string)
| StderrData (data : string)
| Close (code : option Z)
| Error (err : ExecException).

(** One call [exec(command, options)]; [None] is an option left out. *)
Record ExecCall : Type := {
  exec_command : string;
  exec_timeout : option Z;
  exec_killSignal : option string;
  exec_maxBuffer : Z
}.

End Node.

(** The state of a promise. *)
Inductive Promise (A : Type) : Type :=
| Fulfilled (a : A)
| Rejected (e : JsError)
| Pending.
Arguments Fulfilled {A} a.
Arguments Rejected {A} e.
Arguments Pending {A}.

(** ** JavaScript values

    The values [JSON.parse] builds, and [undefined].  Numbers are the
    integers; an object is the list of its own properties. *)

#[local] Unset Elimination Schemes.
Inductive JsValue : Type :=
| JsUndefined
| JsNull
| JsBool (b : bool)
| JsNumber (n : Z)
| JsString (s : string)
| JsArray (items : list JsValue)
| JsObject (fields : list (string * JsValue)).
#[local] Set Elimination Schemes.

Definition JsFields : Type := list (string * JsValue).

(** ** The text of a number

    [Number::toString] prints an integer below 2^53 in magnitude (a safe
    integer) with its decimal digits.  Beyond that it prints the shortest
    digits that identify the value, followed by zeros or, from 1e21 on, by an
    exponent: that text is the runtime's. *)

Class NumberFormat : Type := {
  Number_toString_large : Z -> string
}.

Definition isSafeInteger (n : Z) : bool := Z.abs n <? 9007199254740992.

Definition Number_toString {numbers : NumberFormat} (n : Z) : string :=
  if isSafeInteger n then Js.String_of_Z n else Number_toString_large n.

Module Value.

(** [key in object] *)
Definition has (key : string) (fields : JsFields) : bool :=
  existsb (fun kv => String.eqb (fst kv) key) fields.

(** [object.key]: [undefined] when the property is absent. *)
Definition field (key : string) (fields : JsFields) : JsValue :=
  match find (fun kv => String.eqb (fst kv) key) fields with
  | Some kv => snd kv
  | None => JsUndefined
  end.

(** [value.key] for a key that no prototype defines ([message], [code]). *)
Definition member (key : string) (value : JsValue) : JsValue :=
  match value with
  | JsObject fields => field key fields
  | _ => JsUndefined
  end.

(** The condition of [if (value)]. *)
Definition truthy (value : JsValue) : bool :=
  match value with
  | JsUndefined | JsNull => false
  | JsBool b => b
  | JsNumber n => negb (n =? 0)
  | JsString s => negb (String.eqb s "")
  | JsArray _ | JsObject _ => true
  end.

Section WithNumbers.
Context {numbers : NumberFormat}.

(** [`${value}`] for plain data, [None] when the conversion throws a
    [TypeError].  An array prints its items separated by commas, [null] and
    [undefined] items as nothing, and throws when an item does.  An object
    prints as [[object Object]] through [Object.prototype.toString]; an
    object with an own property [toString] hides that method behind a value
    that cannot be called (the values here are data), and its conversion
    throws. *)
Fixpoint toString (value : JsValue) : option string :=
  match value with
  | JsUndefined => Some "undefined"
  | JsNull => Some "null"
  | JsBool b => Some (if b then "true" else "false")
  | JsNumber n => Some (Number_toString n)
  | JsString s => Some s
  | JsArray items =>
      let item v :=
        match v with
        | JsUndefined | JsNull => Some ""
        | _ => toString v
        end in
      (fix join (l : list JsValue) : option string :=
         match l with
         | [] => Some ""
         | [v] => item v
         | v :: rest =>
             match item v, join rest with
             | Some first, Some others => Some (first ++ "," ++ others)
             | _, _ => None
             end
         end) items
  | JsObject fields =>
      if Value.has "toString" fields then None else Some "[object Object]"
  end.

End WithNumbers.

End Value.

(** [JSON.parse(text)]: [None] when it throws a [SyntaxError]. *)
Class JsonParser : Type := {
  JSON_parse : string -> option JsValue
}.

(** ** The regular-expression engine

    [new RegExp(source, flags)] throws a [SyntaxError] on a malformed source
    ([RegExp_new] answers [None]); [regex.test(input)] of a regular expression
    without the [g] flag is a function of the input. *)

Class RegExpEngine : Type := {
  RegExp : Type;
  RegExp_new : string -> string -> option RegExp;
  RegExp_test : RegExp -> string -> bool
}.

(** ** shell/config.ts, the revision that matches the denylist by words *)

Record AutorunMode : Type := {
  enabled : bool;
  allowlist : list string;
  denylist : list string;
  allow_all_other_commands : bool
}.

Record ApprovalConfig : Type := {
  autorun_mode : AutorunMode
}.

Definition defaultConfig : ApprovalConfig :=
  {| autorun_mode := {| enabled := false; allowlist := []; denylist := [];
                        allow_all_other_commands := false |} |}.

Section Policy.
Context {engine : RegExpEngine}.

(** [new RegExp(`\\b${deniedPattern}\\b`, 'i').test(command)] *)
Definition wordTest (deniedPattern command : string) : Result bool :=
  match RegExp_new ("\b" ++ deniedPattern ++ "\b") "i" with
  | Some regex => Ok (RegExp_test regex command)
  | None => Throw (SyntaxError deniedPattern)
  end.

(** The loop [for (const deniedPattern of config.denylist)] of both files:
    [Ok true] when it returns from inside the loop at a pattern that matches,
    [Ok false] when it falls through. *)
Fixpoint deniedByWord (patterns : list string) (command : string) : Result bool :=
  match patterns with
  | [] => Ok false
  | deniedPattern :: rest =>
      hit <- wordTest deniedPattern command ;;
      if (hit : bool) then Ok true else deniedByWord rest command
  end.

(** The pattern gives a source the engine accepts. *)
Definition wellFormedPattern (pattern : string) : Prop :=
  RegExp_new ("\b" ++ pattern ++ "\b") "i" <> None.

End Policy.

(** The decisions of the policy engine, in the words of the specification. *)
Inductive Decision : Type :=
| Admit
| Deny
| RequireApproval.

(** ** shell/config.ts: the schema and the active configuration

    [ApprovalConfigSchema.safeParse], [setConfigFromJson] and
    [loadConfigFromFile] have the same text in both revisions.  The module
    variable [activeConfig] is the state the functions pass on. *)

Module Schema.

(** [z.boolean().default(false)] *)
Definition booleanDefaultFalse (value : JsValue) : option bool :=
  match value with
  | JsUndefined => Some false
  | JsBool b => Some b
  | _ => None
  end.

Fixpoint strings (items : list JsValue) : option (list string) :=
  match items with
  | [] => Some []
  | JsString s :: rest =>
      match strings rest with
      | Some l => Some (s :: l)
      | None => None
      end
  | _ :: _ => None
  end.

(** [z.array(z.string()).default([])] *)
Definition stringArrayDefaultEmpty (value : JsValue) : option (list string) :=
  match value with
  | JsUndefined => Some []
  | JsArray items => strings items
  | _ => None
  end.

(** [ApprovalConfigSchema.safeParse(parsedJson)]: [Some data] when
    [success] is true. *)
Definition safeParse (parsedJson : JsValue) : option ApprovalConfig :=
  match parsedJson with
  | JsObject fields =>
      match Value.field "autorun_mode" fields with
      | JsObject mode =>
          match booleanDefaultFalse (Value.field "enabled" mode),
                stringArrayDefaultEmpty (Value.field "allowlist" mode),
                stringArrayDefaultEmpty (Value.field "denylist" mode),
                booleanDefaultFalse (Value.field "allow_all_other_commands" mode)
          with
          | Some e, Some a, Some d, Some o =>
              Some {| autorun_mode :=
                        {| enabled := e; allowlist := a; denylist := d;
                           allow_all_other_commands := o |} |}
          | _, _, _, _ => None
          end
      | _ => None
      end
  | _ => None
  end.

End Schema.

Section ActiveConfig.
Context {json : JsonParser}.

(** The [try] block ends in the [catch] when [JSON.parse] throws; the only
    assignment to [activeConfig] is under [validationResult.success]. *)
Definition setConfigFromJson (jsonString : string) (activeConfig : ApprovalConfig)
  : ApprovalConfig :=
  match JSON_parse jsonString with
  | None => activeConfig
  | Some parsedJson =>
      match Schema.safeParse parsedJson with
      | Some data => data
      | None => activeConfig
      end
  end.

(** [fileContent] is what [fs.readFileSync] returns, [None] when it throws. *)
Definition loadConfigFromFile (fileContent : option string)
  (activeConfig : ApprovalConfig) : ApprovalConfig :=
  match fileContent with
  | Some content => setConfigFromJson content activeConfig
  | None => activeConfig
  end.

End ActiveConfig.

Module Config.
Section WithEngine.
Context {engine : RegExpEngine}.

Definition shouldAutoApproveCommand (activeConfig : ApprovalConfig)
  (command : string) : Result bool :=
  let config := autorun_mode activeConfig in
  if negb (enabled config) then Ok false
  else
    hit <- deniedByWord (denylist config) command ;;
    if (hit : bool) then Ok false
    else if allow_all_other_commands config then Ok true
    else if existsb (fun allowedPattern => Js.includes command allowedPattern)
                    (allowlist config)
    then Ok true
    else Ok false.

End WithEngine.

(** [getConfig]: a copy of the active configuration. *)
Definition getConfig (activeConfig : ApprovalConfig) : ApprovalConfig :=
  {| autorun_mode := autorun_mode activeConfig |}.

End Config.

(** ** shell/config.ts, the revision that matches both lists by substring *)

Module ConfigSubstring.

Definition shouldAutoApproveCommand (activeConfig : ApprovalConfig)
  (command : string) : bool :=
  let config := autorun_mode activeConfig in
  if negb (enabled config) then false
  else if existsb (fun deniedPattern => Js.includes command deniedPattern)
                  (denylist config)
  then false
  else if existsb (fun allowedPattern => Js.includes command allowedPattern)
                  (allowlist config)
  then true
  else allow_all_other_commands config.

End ConfigSubstring.

(** ** shell/exec.ts: foreground execution, the same text in both revisions *)

Definition MAX_BUFFER_SIZE : Z := 2 * 1024 * 1024.
Definition EXEC_TIMEOUT : Z := 30 * 1000.

Module Foreground.

(** The variables [stdout], [stderr] and [truncated] the handlers share, and
    the promise [resolve] settles (a second [resolve] has no effect). *)
Record Capture : Type := {
  stdout : string;
  stderr : string;
  truncated : bool;
  settled : option Types.CommandExecOutcome
}.

Definition start : Capture :=
  {| stdout := ""; stderr := ""; truncated := false; settled := None |}.

Definition resolve (o : Types.CommandExecOutcome) (st : Capture) : Capture :=
  match settled st with
  | Some _ => st
  | None => {| stdout := stdout st; stderr := stderr st;
               truncated := truncated st; settled := Some o |}
  end.

(** [process.stdout?.on('data', ...)] *)
Definition onStdoutData (data : string) (st : Capture) : Capture :=
  if Js.length (stdout st) + Js.length data >? MAX_BUFFER_SIZE then
    let remainingSpace := MAX_BUFFER_SIZE - Js.length (stdout st) in
    {| stdout := stdout st ++ Js.substring data 0 remainingSpace;
       stderr := stderr st; truncated := true; settled := settled st |}
  else if negb (truncated st) then
    {| stdout := stdout st ++ data;
       stderr := stderr st; truncated := truncated st; settled := settled st |}
  else st.

(** [process.stderr?.on('data', ...)] *)
Definition onStderrData (data : string) (st : Capture) : Capture :=
  if Js.length (stderr st) + Js.length data >? MAX_BUFFER_SIZE then
    let remainingSpace := MAX_BUFFER_SIZE - Js.length (stderr st) in
    {| stdout := stdout st;
       stderr := stderr st ++ Js.substring data 0 remainingSpace;
       truncated := true; settled := settled st |}
  else if negb (truncated st) then
    {| stdout := stdout st; stderr := stderr st ++ data;
       truncated := truncated st; settled := settled st |}
  else st.

(** [process.on('close', ...)] *)
Definition onClose (code : option Z) (st : Capture) : Capture :=
  let exitCode := match code with None => -1 | Some c => c end in
  resolve (Types.success
             {| Types.stdout := stdout st; Types.stderr := stderr st;
                Types.exitCode := CodeNumber exitCode;
                Types.truncated := if truncated st then Some true else None |})
          st.

Definition is_signal (err : Node.ExecException) (name : string) : bool :=
  match Node.signal err with
  | Some s => String.eqb s name
  | None => false
  end.

Definition is_code (err : Node.ExecException) (name : string) : bool :=
  match Node.code err with
  | Some (CodeString s) => String.eqb s name
  | _ => false
  end.

(** [process.on('error', ...)] *)
Definition onError (command : string) (err : Node.ExecException) (st : Capture)
  : Capture :=
  let errorDetails :=
    Types.DetailsProcess command (Node.code err) (Node.signal err) in
  if is_signal err "SIGTERM" || is_code err "ERR_CHILD_PROCESS_STDIO_MAXBUFFER"
  then
    let errorMessage :=
      "Command output exceeded "
        ++ Js.String_of_Z (MAX_BUFFER_SIZE / 1024 / 1024) ++ "MB buffer limit." in
    let errorMsgSuffix := Js.LF ++ "ERROR: " ++ errorMessage in
    let stderr1 :=
      if Js.length (stderr st) + Js.length errorMsgSuffix >? MAX_BUFFER_SIZE
      then Js.substring (stderr st) 0 (MAX_BUFFER_SIZE - Js.length errorMsgSuffix)
      else stderr st in
    let stderr2 := stderr1 ++ errorMsgSuffix in
    let partialResult :=
      {| Types.stdout := stdout st; Types.stderr := stderr2;
         Types.exitCode :=
           match Node.code err with Some c => c | None => CodeNumber 1 end;
         Types.truncated := Some true |} in
    resolve (Types.success partialResult)
            {| stdout := stdout st; stderr := stderr2; truncated := true;
               settled := settled st |}
  else
    let timedOut := is_code err "ETIMEDOUT" || is_signal err "SIGKILL" in
    let errorCode := if timedOut then "timeout" else "exec_error" in
    let errorMessage :=
      if timedOut
      then "Command timed out after "
             ++ Js.String_of_Z (EXEC_TIMEOUT / 1000) ++ " seconds."
      else "Command failed: " ++ Node.message err in
    resolve (Types.error {| Types.code := Some errorCode;
                            Types.message := errorMessage;
                            Types.details := errorDetails |})
            st.

Definition handle (command : string) (ev : Node.ChildEvent) (st : Capture)
  : Capture :=
  match ev with
  | Node.StdoutData data => onStdoutData data st
  | Node.StderrData data => onStderrData data st
  | Node.Close code => onClose code st
  | Node.Error err => onError command err st
  end.

(** The handlers run on the events in the order the child emits them. *)
Definition deliver (command : string) (events : list Node.ChildEvent)
  (st : Capture) : Capture :=
  fold_left (fun s ev => handle command ev s) events st.

End Foreground.

(** What one call of [executeCommand] does: the [exec] calls it makes and the
    state its promise reaches. *)
Record Execution : Type := {
  launched : list Node.ExecCall;
  outcome : Promise Types.CommandExecOutcome
}.

Definition refused (o : Types.CommandExecOutcome) : Execution :=
  {| launched := []; outcome := Fulfilled o |}.

Definition securityViolation (command : string) : Types.CommandExecOutcome :=
  Types.error {| Types.code := Some "security_violation";
                 Types.message := "Command is denied by security rules";
                 Types.details := Types.DetailsCommand command |}.

(** [exec(`${params.command} &`, { maxBuffer: 1024 }, callback)]: the callback
    only logs, so the events of the child do not reach the result. *)
Definition runBackground (params : Types.RunTerminalCmdArgs) : Execution :=
  {| launched := [ {| Node.exec_command := Types.command params ++ " &";
                      Node.exec_timeout := None;
                      Node.exec_killSignal := None;
                      Node.exec_maxBuffer := 1024 |} ];
     outcome := Fulfilled (Types.success
       {| Types.stdout := ""; Types.stderr := "";
          Types.exitCode := CodeNumber 0; Types.truncated := Some false |}) |}.

Definition runForeground (params : Types.RunTerminalCmdArgs)
  (events : list Node.ChildEvent) : Execution :=
  {| launched := [ {| Node.exec_command := Types.command params;
                      Node.exec_timeout := Some EXEC_TIMEOUT;
                      Node.exec_killSignal := None;
                      Node.exec_maxBuffer := MAX_BUFFER_SIZE + 1024 |} ];
     outcome :=
       match Foreground.settled
               (Foreground.deliver (Types.command params) events Foreground.start)
       with
       | Some o => Fulfilled o
       | None => Pending
       end |}.

(** The part after the policy gate: background or foreground. *)
Definition run (params : Types.RunTerminalCmdArgs)
  (events : list Node.ChildEvent) : Execution :=
  if Types.is_background params then runBackground params
  else runForeground params events.

(** ** shell/exec.ts, the revision without the approval flag *)

Module Exec.
Section WithEngine.
Context {engine : RegExpEngine}.

Definition isCommandDenied (activeConfig : ApprovalConfig) (command : string)
  : Result bool :=
  let config := autorun_mode (Config.getConfig activeConfig) in
  hit <- deniedByWord (denylist config) command ;;
  if (hit : bool) then Ok true
  else if enabled config && allow_all_other_commands config then Ok false
  else if negb (enabled config) then Ok false
  else
    approved <- Config.shouldAutoApproveCommand activeConfig command ;;
    Ok (negb approved).

(** [isCommandDenied] read as a decision. *)
Definition decide (activeConfig : ApprovalConfig) (command : string)
  : Result Decision :=
  denied <- isCommandDenied activeConfig command ;;
  Ok (if (denied : bool) then Deny else Admit).

(** An exception of the policy check leaves the [async] function: its
    promise is rejected. *)
Definition executeCommand (activeConfig : ApprovalConfig)
  (params : Types.RunTerminalCmdArgs) (events : list Node.ChildEvent)
  : Execution :=
  match isCommandDenied activeConfig (Types.command params) with
  | Throw e => {| launched := []; outcome := Rejected e |}
  | Ok true => refused (securityViolation (Types.command params))
  | Ok false => run params events
  end.

End WithEngine.
End Exec.

(** ** shell/exec.ts, the revision with the approval flag

    Both revisions import [shouldAutoApproveCommand] and [getConfig] from
    [config.ts]; they are read with the revision [Config]. *)

Module ExecApproval.
Section WithEngine.
Context {engine : RegExpEngine}.

Definition isCommandDenied (activeConfig : ApprovalConfig) (command : string)
  : Result bool :=
  let config := autorun_mode (Config.getConfig activeConfig) in
  if negb (enabled config) then
    Ok (existsb (fun deniedPattern => Js.includes command deniedPattern)
                (denylist config))
  else
    approved <- Config.shouldAutoApproveCommand activeConfig command ;;
    Ok (negb approved).

(** [isCommandDenied] read as a decision. *)
Definition decide (activeConfig : ApprovalConfig) (command : string)
  : Result Decision :=
  denied <- isCommandDenied activeConfig command ;;
  Ok (if (denied : bool) then Deny else Admit).

Definition executeCommand (activeConfig : ApprovalConfig)
  (params : Types.RunTerminalCmdArgs) (events : list Node.ChildEvent)
  : Execution :=
  match isCommandDenied activeConfig (Types.command params) with
  | Throw e => {| launched := []; outcome := Rejected e |}
  | Ok true =>
      if negb (Types.require_user_approval params)
      then refused (securityViolation (Types.command params))
      else refused Types.waiting
  | Ok false =>
      if Types.require_user_approval params then
        match Config.shouldAutoApproveCommand activeConfig (Types.command params) with
        | Throw e => {| launched := []; outcome := Rejected e |}
        | Ok true => run params events
        | Ok false => refused Types.waiting
        end
      else run params events
  end.

End WithEngine.
End ExecApproval.

(** ** rpc/client.ts: the session

    A promise is named by a number; [settlements] records every call of one
    of its [resolve] / [reject] functions, in order, and the state of the
    promise is the first of them.  A callback stored in [pending] is the
    closure [call] builds: it is determined by the promise it settles.
    [sent] and [transportCloses] record the calls of [t.send] and [t.close]. *)

Module Rpc.

Definition INITIALIZE_ID : string := "client-initialize-handshake".

Definition PromiseRef : Type := nat.

(** [resolve(value)] or [reject(new Error(message))] *)
Inductive Settlement : Type :=
| Resolved (value : JsValue)
| Failed (message : string).

(** A [Map] keeps its keys in insertion order; [set] on a present key
    replaces the value in place. *)
Definition PendingMap : Type := list (string * PromiseRef).

Fixpoint Map_get (id : string) (m : PendingMap) : option PromiseRef :=
  match m with
  | [] => None
  | (k, callback) :: rest => if String.eqb k id then Some callback else Map_get id rest
  end.

Fixpoint Map_set (id : string) (callback : PromiseRef) (m : PendingMap) : PendingMap :=
  match m with
  | [] => [(id, callback)]
  | (k, v) :: rest =>
      if String.eqb k id then (k, callback) :: rest
      else (k, v) :: Map_set id callback rest
  end.

Fixpoint Map_delete (id : string) (m : PendingMap) : PendingMap :=
  match m with
  | [] => []
  | (k, v) :: rest =>
      if String.eqb k id then rest else (k, v) :: Map_delete id rest
  end.

Record RpcClient : Type := {
  pending : PendingMap;
  initializePromise : option PromiseRef;
  resolveInitialize : option PromiseRef;
  rejectInitialize : option PromiseRef;
  closed : bool;
  sent : list JsFields;
  transportCloses : nat;
  settlements : list (PromiseRef * Settlement);
  nextPromise : PromiseRef
}.

(** [new RpcClient(t)] *)
Definition create : RpcClient :=
  {| pending := []; initializePromise := None; resolveInitialize := None;
     rejectInitialize := None; closed := false; sent := [];
     transportCloses := 0%nat; settlements := []; nextPromise := 0%nat |}.

Definition setPending (m : PendingMap) (c : RpcClient) : RpcClient :=
  {| pending := m; initializePromise := initializePromise c;
     resolveInitialize := resolveInitialize c;
     rejectInitialize := rejectInitialize c; closed := closed c;
     sent := sent c; transportCloses := transportCloses c;
     settlements := settlements c; nextPromise := nextPromise c |}.

Definition setInitialize (p : option PromiseRef) (c : RpcClient) : RpcClient :=
  {| pending := pending c; initializePromise := p; resolveInitialize := p;
     rejectInitialize := p; closed := closed c; sent := sent c;
     transportCloses := transportCloses c; settlements := settlements c;
     nextPromise := nextPromise c |}.

(** [this.t.send(message)] *)
Definition send (message : JsFields) (c : RpcClient) : RpcClient :=
  {| pending := pending c; initializePromise := initializePromise c;
     resolveInitialize := resolveInitialize c;
     rejectInitialize := rejectInitialize c; closed := closed c;
     sent := sent c ++ [message]; transportCloses := transportCloses c;
     settlements := settlements c; nextPromise := nextPromise c |}.

(** A call of the [resolve] or [reject] function of promise [p]. *)
Definition settle (p : PromiseRef) (how : Settlement) (c : RpcClient) : RpcClient :=
  {| pending := pending c; initializePromise := initializePromise c;
     resolveInitialize := resolveInitialize c;
     rejectInitialize := rejectInitialize c; closed := closed c;
     sent := sent c; transportCloses := transportCloses c;
     settlements := settlements c ++ [(p, how)]; nextPromise := nextPromise c |}.

(** [new Promise(...)]: a promise no earlier one shares. *)
Definition newPromise (c : RpcClient) : PromiseRef * RpcClient :=
  (nextPromise c,
   {| pending := pending c; initializePromise := initializePromise c;
      resolveInitialize := resolveInitialize c;
      rejectInitialize := rejectInitialize c; closed := closed c;
      sent := sent c; transportCloses := transportCloses c;
      settlements := settlements c; nextPromise := S (nextPromise c) |}).

(** The state of a promise: how it was settled first. *)
Definition stateOf (p : PromiseRef) (c : RpcClient) : option Settlement :=
  match find (fun e => Nat.eqb (fst e) p) (settlements c) with
  | Some e => Some (snd e)
  | None => None
  end.

(** How many times a [resolve] / [reject] function of [p] was called. *)
Definition timesSettled (p : PromiseRef) (c : RpcClient) : nat :=
  List.length (filter (fun e => Nat.eqb (fst e) p) (settlements c)).

Section WithNumbers.
Context {numbers : NumberFormat}.

(** [`${prefix}${error.message} (Code: ${error.code})`]: [None] when the
    conversion of the message or of the code throws. *)
Definition errorText (prefix : string) (error : JsValue) : option string :=
  match Value.toString (Value.member "message" error),
        Value.toString (Value.member "code" error)
  with
  | Some message, Some code => Some (prefix ++ message ++ " (Code: " ++ code ++ ")")
  | _, _ => None
  end.

(** The callback [call] stores for promise [p], applied to a response.  When
    the text of the error cannot be built, the exception leaves the callback
    before [rej] is called. *)
Definition callback (p : PromiseRef) (response : JsFields) (c : RpcClient)
  : RpcClient :=
  let error := Value.field "error" response in
  if Value.truthy error then
    match errorText "RPC Error: " error with
    | Some text => settle p (Failed text) c
    | None => c
    end
  else settle p (Resolved (JsObject response)) c.

Definition isInitializeId (m : JsFields) : bool :=
  Value.has "id" m &&
  match Value.field "id" m with
  | JsString id => String.eqb id INITIALIZE_ID
  | _ => false
  end.

(** [this.pending.has(m.id)] with [this.pending.get(m.id)]: the keys of the
    map are strings, so only a string id finds one. *)
Definition pendingFor (m : JsFields) (c : RpcClient) : option (string * PromiseRef) :=
  if Value.has "id" m then
    match Value.field "id" m with
    | JsString id =>
        match Map_get id (pending c) with
        | Some p => Some (id, p)
        | None => None
        end
    | _ => None
    end
  else None.

(** An exception that leaves [handle] is caught by the transport that
    delivered the message: the session stays as the statements before the
    exception have left it.  In the handshake branch that is before
    [rejectInitialize] is called and before the three fields are reset; in
    the other branch it is after the entry has been deleted. *)
Definition handle (m : JsFields) (c : RpcClient) : RpcClient :=
  if closed c then c
  else if isInitializeId m then
    let result := Value.field "result" m in
    let error := Value.field "error" m in
    match (if Value.truthy result then resolveInitialize c else None) with
    | Some p => setInitialize None (settle p (Resolved result) c)
    | None =>
        match (if Value.truthy error then rejectInitialize c else None) with
        | Some p =>
            match errorText "Initialize failed: " error with
            | Some text => setInitialize None (settle p (Failed text) c)
            | None => c
            end
        | None => setInitialize None c
        end
    end
  else
    match pendingFor m c with
    | Some (id, p) => callback p m (setPending (Map_delete id (pending c)) c)
    | None => c
    end.

Definition initializeRequest (clientName clientVersion : string) : JsFields :=
  [ ("jsonrpc", JsString "2.0");
    ("id", JsString INITIALIZE_ID);
    ("method", JsString "initialize");
    ("params", JsObject
       [ ("protocolVersion", JsString "2024-11-05");
         ("capabilities", JsObject [("experimental", JsObject [])]);
         ("clientInfo", JsObject [ ("name", JsString clientName);
                                   ("version", JsString clientVersion) ]) ]) ].

Definition initializedNotification : JsFields :=
  [ ("jsonrpc", JsString "2.0");
    ("method", JsString "notifications/initialized");
    ("params", JsObject []) ].

(** [performHandshake] up to its [await]: the promise it returns is the one
    the caller is suspended on. *)
Definition performHandshake (clientName clientVersion : string) (c : RpcClient)
  : PromiseRef * RpcClient :=
  match initializePromise c with
  | Some p => (p, c)
  | None =>
      let (p, c1) := newPromise c in
      (p, setInitialize (Some p) (send (initializeRequest clientName clientVersion) c1))
  end.

(** [performHandshake] after its [await], once the awaited promise is
    fulfilled with [initResult]. *)
Definition performHandshakeResume (initResult : JsValue) (c : RpcClient)
  : JsValue * RpcClient :=
  (initResult, send initializedNotification c).

Definition callRequest (id method : string) (params : JsValue) : JsFields :=
  [ ("jsonrpc", JsString "2.0"); ("id", JsString id);
    ("method", JsString method); ("params", params) ].

(** [call(method, params)]; [id] is what [uuid()] returned. *)
Definition call (id method : string) (params : JsValue) (c : RpcClient)
  : PromiseRef * RpcClient :=
  let req := callRequest id method params in
  let (p, c1) := newPromise c in
  (p, send req (setPending (Map_set id p (pending c1)) c1)).

Definition closedResponse (id : string) : JsFields :=
  [ ("jsonrpc", JsString "2.0"); ("id", JsString id);
    ("error", JsObject [ ("code", JsNumber (-32000));
                         ("message", JsString "Client connection closed") ]) ].

(** [this.pending.forEach((callback, id) => callback(...))]: the error of
    [closedResponse] converts to text, so no callback throws here. *)
Definition failAll (entries : PendingMap) (c : RpcClient) : RpcClient :=
  fold_left (fun acc entry => callback (snd entry) (closedResponse (fst entry)) acc)
            entries c.

Definition close (c : RpcClient) : RpcClient :=
  if closed c then c
  else
    let c1 :=
      {| pending := pending c; initializePromise := initializePromise c;
         resolveInitialize := resolveInitialize c;
         rejectInitialize := rejectInitialize c; closed := true;
         sent := sent c; transportCloses := S (transportCloses c);
         settlements := settlements c; nextPromise := nextPromise c |} in
    let c2 := setPending [] (failAll (pending c1) c1) in
    match rejectInitialize c2 with
    | Some p =>
        setInitialize None
          (settle p (Failed "Client connection closed during handshake") c2)
    | None => c2
    end.

(** The operations of a session, as its users and its transport call them. *)
Inductive Op : Type :=
| OpHandshake (clientName clientVersion : string)
| OpCall (id method : string) (params : JsValue)
| OpMessage (m : JsFields)
| OpClose.

Definition step (c : RpcClient) (op : Op) : RpcClient :=
  match op with
  | OpHandshake clientName clientVersion =>
      snd (performHandshake clientName clientVersion c)
  | OpCall id method params => snd (call id method params c)
  | OpMessage m => handle m c
  | OpClose => close c
  end.

Definition steps (ops : list Op) (c : RpcClient) : RpcClient :=
  fold_left step ops c.

End WithNumbers.

End Rpc.

(** ** A regular-expression engine for word patterns

    The sources the policy builds are [\b] + pattern + [\b] with the flag [i].
    For a pattern without a syntax character the JavaScript semantics is a
    search for the pattern, letters compared without case, between two word
    boundaries: [literalEngine] implements that.  Every other source it
    reports as malformed; that is JavaScript's answer for the patterns [g++]
    (nothing to repeat) and [(] (unterminated group) used below, and a
    placeholder for the sources this engine does not cover. *)

Module Literal.

Definition isSyntaxCharacter (c : ascii) : bool :=
  existsb (Ascii.eqb c) (list_ascii_of_string "^$\.*+?()[]{}|").

Definition between (lo hi c : ascii) : bool :=
  (nat_of_ascii lo <=? nat_of_ascii c)%nat && (nat_of_ascii c <=? nat_of_ascii hi)%nat.

(** The characters of [\w]. *)
Definition isWordChar (c : ascii) : bool :=
  between "a" "z" c || between "A" "Z" c || between "0" "9" c || Ascii.eqb c "_".

(** Canonicalisation of the [i] flag on ASCII text. *)
Definition canonicalize (c : ascii) : ascii :=
  if between "a" "z" c then ascii_of_nat (nat_of_ascii c - 32) else c.

(** [matchHere lastWord word input]: [word] is read at the head of [input];
    the answer is whether the last character read is a word character
    ([lastWord] when nothing is read) and what remains of [input]. *)
Fixpoint matchHere (lastWord : bool) (word input : string) : option (bool * string) :=
  match word with
  | EmptyString => Some (lastWord, input)
  | String w word' =>
      match input with
      | EmptyString => None
      | String c input' =>
          if Ascii.eqb (canonicalize w) (canonicalize c)
          then matchHere (isWordChar c) word' input'
          else None
      end
  end.

Definition headIsWord (input : string) : bool :=
  match input with
  | EmptyString => false
  | String c _ => isWordChar c
  end.

(** [\b] at a position: exactly one of the two neighbours is a word character. *)
Definition boundary (before : bool) (rest : string) : bool :=
  xorb before (headIsWord rest).

(** The search over the start positions; [before] says whether the character
    to the left of the position is a word character. *)
Fixpoint search (before : bool) (word input : string) : bool :=
  (boundary before input &&
   match matchHere before word input with
   | Some (lastWord, rest) => boundary lastWord rest
   | None => false
   end)
  || match input with
     | EmptyString => false
     | String c input' => search (isWordChar c) word input'
     end.

Definition isLiteral (word : string) : bool :=
  forallb (fun c => negb (isSyntaxCharacter c)) (list_ascii_of_string word).

(** The pattern of a source [\b] + pattern + [\b]. *)
Definition patternOf (source : string) : option string :=
  let n := String.length source in
  if (4 <=? n)%nat && String.prefix "\b" source
     && String.eqb (String.substring (n - 2) 2 source) "\b"
  then Some (String.substring 2 (n - 4) source)
  else None.

Definition compile (source flags : string) : option string :=
  if String.eqb flags "i" then
    match patternOf source with
    | Some word => if isLiteral word then Some word else None
    | None => None
    end
  else None.

End Literal.

Definition literalEngine : RegExpEngine := {|
  RegExp := string;
  RegExp_new := Literal.compile;
  RegExp_test := fun word input => Literal.search false word input
|}.

(** ** A number format for the examples

    The examples print no number beyond the safe integers; [decimalNumbers]
    stands for the runtime there, with a text for the other numbers that is
    never asked for. *)
Definition decimalNumbers : NumberFormat := {|
  Number_toString_large := Js.String_of_Z
|}.

(** ** server.ts: the start-up and the tool handler *)

(** [new Error(message)] thrown by the code below. *)
Inductive Thrown (A : Type) : Type :=
| Returned (a : A)
| ThrewError (message : string).
Arguments Returned {A} a.
Arguments ThrewError {A} message.

Module Server.

(** How [processArgs] leaves: back to the module, or by [process.exit]. *)
Inductive Startup : Type :=
| Started (activeConfig : ApprovalConfig)
| Exited (code : Z).

Definition isFileFlag (arg : string) : bool :=
  String.eqb arg "--file" || String.eqb arg "-f".

Section Startup.
Context {json : JsonParser}.

(** [fs.readFileSync(path, 'utf8')]: [None] when it throws. *)
Variable readFileSync : string -> option string.

(** The loop of [processArgs] over [process.argv.slice(2)]: [i += 2] after a
    flag with its path, [i++] after any other argument. *)
Fixpoint processArgs (args : list string) (activeConfig : ApprovalConfig)
  : Startup :=
  match args with
  | [] => Started activeConfig
  | arg :: rest =>
      if isFileFlag arg then
        match rest with
        | configPath :: rest' =>
            processArgs rest'
              (loadConfigFromFile (readFileSync configPath) activeConfig)
        | [] => Exited 1
        end
      else processArgs rest activeConfig
  end.

End Startup.

(** [RunTerminalCmdArgsSchema.safeParse(args)]: the four properties are
    required, and the command is refused when it holds a line feed. *)
Definition safeParse (args : JsValue) : option Types.RunTerminalCmdArgs :=
  match args with
  | JsObject fields =>
      match Value.field "command" fields, Value.field "explanation" fields,
            Value.field "is_background" fields,
            Value.field "require_user_approval" fields
      with
      | JsString command, JsString explanation, JsBool is_background,
        JsBool require_user_approval =>
          if negb (Js.includes command Js.LF)
          then Some {| Types.command := command;
                       Types.explanation := explanation;
                       Types.is_background := is_background;
                       Types.require_user_approval := require_user_approval |}
          else None
      | _, _, _, _ => None
      end
  | _ => None
  end.

Definition toolName : string := "mcp_run_terminal_cmd".

(** [name !== runTerminalCmdTool.name] *)
Definition isNotTheTool (name : JsValue) : bool :=
  match name with
  | JsString s => negb (String.eqb s toolName)
  | _ => true
  end.

(** [value || fallback] and [value ?? fallback] *)
Definition orElse (value fallback : JsValue) : JsValue :=
  if Value.truthy value then value else fallback.

Definition coalesce (value fallback : JsValue) : JsValue :=
  match value with
  | JsUndefined | JsNull => fallback
  | _ => value
  end.

(** The object whose [JSON.stringify] is the text of the answer:
    [executionOutcome.result]; [{ error: true, ...executionOutcome.error }];
    [{ error: true, message: "Invalid arguments for run_terminal_cmd",
    details }] with the issues the schema reports for the arguments;
    [{ error: true, message }] with the text [Internal server error executing
    tool: ] followed by the message of the exception. *)
Inductive Payload : Type :=
| PayloadResult (result : Types.CommandExecSuccessResult)
| PayloadError (error : Types.CommandExecErrorResult)
| PayloadInvalidArguments (args : JsValue)
| PayloadInternalError (error : JsError).

(** [{ toolCallId, content: [{ type: "text", text }], isError }]; [isError]
    is [None] when the property is left out. *)
Record CallToolResult : Type := {
  toolCallId : JsValue;
  content : Payload;
  isError : option bool
}.

(** How the handler ends: with a result, with [undefined] when it runs off
    the end of its [switch], with the error [Unknown or invalid tool call in
    request: ] followed by the parameters, or not yet, while the promise of
    [executeCommand] is pending. *)
Inductive Answer : Type :=
| Answered (result : CallToolResult)
| AnsweredUndefined
| ThrewUnknownTool (params : JsFields)
| Awaiting.

Record Handled : Type := {
  started : list Node.ExecCall;
  answer : Answer
}.

Section Handler.

(** [executeCommand] of the revision of [exec.ts] the server is built with,
    on the configuration and the child process at hand. *)
Variable executeCommand : Types.RunTerminalCmdArgs -> Execution.

(** The handler of [CallToolRequestSchema] on [request.params]; [now] is
    what [Date.now()] returns. *)
Definition callTool (now : Z) (params : JsFields) : Handled :=
  let name := Value.field "name" params in
  let args := Value.field "arguments" params in
  let toolCallId :=
    orElse (Value.field "id" params) (JsString ("call_" ++ Js.String_of_Z now)) in
  if negb (Value.truthy name) || isNotTheTool name then
    {| started := []; answer := ThrewUnknownTool params |}
  else
    match safeParse args with
    | None =>
        {| started := [];
           answer := Answered
             {| toolCallId := coalesce toolCallId (JsString "parse_error_id");
                content := PayloadInvalidArguments args;
                isError := Some true |} |}
    | Some data =>
        let execution := executeCommand data in
        {| started := launched execution;
           answer :=
             match outcome execution with
             | Fulfilled (Types.success result) =>
                 Answered {| toolCallId := toolCallId;
                             content := PayloadResult result;
                             isError := None |}
             | Fulfilled (Types.error error) =>
                 Answered {| toolCallId := toolCallId;
                             content := PayloadError error;
                             isError := Some true |}
             | Fulfilled Types.waiting => AnsweredUndefined
             | Rejected error =>
                 Answered
                   {| toolCallId := coalesce toolCallId (JsString "exec_error_id");
                      content := PayloadInternalError error;
                      isError := Some true |}
             | Pending => Awaiting
             end |}
    end.

End Handler.

End Server.

(** ** client/transport: the command line of a stdio server, the transports *)

Module StdioTransport.

(** The characters [trim] removes and [\s] matches, among the characters a
    [string] holds (code units below 256): tab, line feed, vertical tab, form
    feed, carriage return, space and no-break space. *)
Definition isWhiteSpace (c : ascii) : bool :=
  let n := nat_of_ascii c in
  ((9 <=? n)%nat && (n <=? 13)%nat) || (n =? 32)%nat || (n =? 160)%nat.

Fixpoint trimStart (s : string) : string :=
  match s with
  | EmptyString => EmptyString
  | String c rest => if isWhiteSpace c then trimStart rest else s
  end.

Fixpoint trimEnd (s : string) : string :=
  match s with
  | EmptyString => EmptyString
  | String c rest =>
      match trimEnd rest with
      | EmptyString => if isWhiteSpace c then EmptyString else String c EmptyString
      | kept => String c kept
      end
  end.

(** [s.trim()] *)
Definition trim (s : string) : string := trimEnd (trimStart s).

(** [s.split(/\s+/)] read from the left: [afterSeparator] says that the
    character before was white space, so that a run of white space separates
    once.  The pieces are the texts between the runs; a run at either end of
    [s] leaves an empty piece there, and the empty string gives one empty
    piece. *)
Fixpoint split (afterSeparator : bool) (s : string) : list string :=
  match s with
  | EmptyString => [EmptyString]
  | String c rest =>
      if isWhiteSpace c then
        if afterSeparator then split true rest
        else EmptyString :: split true rest
      else
        match split false rest with
        | piece :: pieces => String c piece :: pieces
        | [] => [String c EmptyString]
        end
  end.

(** The double quote. *)
Definition quote : string := String (ascii_of_nat 34) EmptyString.

Definition invalidCommandString (commandString : string) : string :=
  "Invalid command string: " ++ quote ++ commandString ++ quote.

(** [parseCommandString]: the executable and its arguments. *)
Definition parseCommandString (commandString : string)
  : Thrown (string * list string) :=
  match split false (trim commandString) with
  | [] => ThrewError (invalidCommandString commandString)
  | commandExecutable :: args =>
      if String.eqb commandExecutable ""
      then ThrewError (invalidCommandString commandString)
      else Returned (commandExecutable, args)
  end.

End StdioTransport.

Module Transport.

(** [ServerConfig]: [sseUrl] is optional. *)
Record ServerConfig : Type := {
  command : string;
  sseUrl : option string
}.

(** What [createTransport] constructs: [new SseTransport(url)], which
    fetches the URL, or [new StdioTransport(command)], which spawns the
    executable with the arguments, without a shell. *)
Inductive Transport : Type :=
| SseTransport (url : string)
| StdioTransport (executable : string) (args : list string).

Definition createTransport (cfg : ServerConfig) : Thrown Transport :=
  if String.eqb (command cfg) "sse" then
    match sseUrl cfg with
    | Some url =>
        if String.eqb url "" then ThrewError "sseUrl missing for SSE transport"
        else Returned (SseTransport url)
    | None => ThrewError "sseUrl missing for SSE transport"
    end
  else if String.eqb (command cfg) "" then
    ThrewError "command field is empty for stdio server"
  else
    match StdioTransport.parseCommandString (command cfg) with
    | Returned (executable, args) => Returned (StdioTransport executable args)
    | ThrewError message => ThrewError message
    end.

(** [url.replace(/\/sse$/, "/messages")], the address [SseTransport.send]
    posts to: the expression matches where what is left of the text is
    exactly [/sse]. *)
Fixpoint messagesUrl (url : string) : string :=
  if String.eqb url "/sse" then "/messages"
  else
    match url with
    | EmptyString => EmptyString
    | String c rest => String c (messagesUrl rest)
    end.

End Transport.

(** ** mock-mcp-server.js *)

Module MockServer.

Definition parseError : JsValue :=
  JsObject [ ("jsonrpc", JsString "2.0"); ("id", JsNull);
             ("error", JsObject [ ("code", JsNumber (-32700));
                                  ("message", JsString "Parse error") ]) ].

Definition methodNotFound : JsValue :=
  JsObject [ ("code", JsNumber (-32601));
             ("message", JsString "Method not found") ].

Definition isString (value : JsValue) (s : string) : bool :=
  match value with
  | JsString s' => String.eqb s' s
  | _ => false
  end.

(** The answer to a parsed line: the object printed, [None] when nothing is
    printed.  Reading a property of [null] or [undefined] throws, which the
    [catch] of the handler answers like a line that does not parse. *)
Definition respond (request : JsValue) : option JsValue :=
  match request with
  | JsNull | JsUndefined => Some parseError
  | _ =>
      if isString (Value.member "jsonrpc" request) "2.0"
         && Value.truthy (Value.member "id" request)
         && Value.truthy (Value.member "method" request)
      then
        let ping := isString (Value.member "method" request) "ping" in
        let result :=
          if ping
          then JsObject [ ("pong", JsBool true);
                          ("receivedParams", Value.member "params" request) ]
          else JsNull in
        let error := if ping then JsNull else methodNotFound in
        Some (JsObject [ ("jsonrpc", JsString "2.0");
                         ("id", Value.member "id" request);
                         ("result", result); ("error", error) ])
      else None
  end.

Section WithParser.
Context {json : JsonParser}.

(** The handler of a line of the standard input. *)
Definition onLine (line : string) : option JsValue :=
  match JSON_parse line with
  | Some request => respond request
  | None => Some parseError
  end.

End WithParser.

End MockServer.

(** * Properties *)

(** ** Strings *)

Lemma prefix_iff (p s : string) :
  String.prefix p s = true <-> exists rest, s = p ++ rest.
Proof.
  revert s; induction p as [|c p IH]; intros s; simpl.
  - split; [intros _; now exists s | ]. destruct s; reflexivity.
  - destruct s as [|d s]; simpl.
    + split; [discriminate | intros [rest H]; discriminate].
    + destruct (ascii_dec c d) as [->|Hne].
      * rewrite IH. split; intros [rest H]; exists rest; congruence.
      * split; [discriminate | intros [rest H]; congruence].
Qed.

(** [includes] is the substring test. *)
Lemma includes_iff (s p : string) :
  Js.includes s p = true <-> exists before after, s = before ++ p ++ after.
Proof.
  induction s as [|c s IH]; cbn [Js.includes]; rewrite orb_true_iff, prefix_iff.
  - split.
    + intros [[rest H]|H]; [|discriminate]. now exists "", rest.
    + intros [before [after H]]. left.
      destruct before; [now exists after | discriminate].
  - rewrite IH. split.
    + intros [[rest H]|[before [after H]]].
      * now exists "", rest.
      * exists (String c before), after. simpl. now rewrite H.
    + intros [[|d before] [after H]]; simpl in H.
      * left. now exists after.
      * right. exists before, after. congruence.
Qed.

(** ** The policy *)

Module PolicyFacts.
Section WithEngine.
Context {engine : RegExpEngine}.

Lemma wordTest_wellFormed (pattern command : string) :
  wellFormedPattern pattern -> exists b, wordTest pattern command = Ok b.
Proof.
  unfold wellFormedPattern, wordTest.
  destruct (RegExp_new _ _) as [regex|]; [eauto | congruence].
Qed.

Lemma wordTest_Ok_wellFormed (pattern command : string) (b : bool) :
  wordTest pattern command = Ok b -> wellFormedPattern pattern.
Proof.
  unfold wellFormedPattern, wordTest.
  destruct (RegExp_new _ _); [discriminate | discriminate].
Qed.

(** The loop returns at the first pattern that matches, when the patterns it
    has to compile on the way are well formed. *)
Lemma deniedByWord_first_match (before after : list string) (p command : string) :
  Forall wellFormedPattern before ->
  wordTest p command = Ok true ->
  deniedByWord (before ++ p :: after) command = Ok true.
Proof.
  intros Hwf Hp. induction Hwf as [|q before Hq _ IH]; simpl.
  - now rewrite Hp.
  - destruct (wordTest_wellFormed q command Hq) as [b ->]. simpl.
    destruct b; [reflexivity | exact IH].
Qed.

Lemma deniedByWord_true_iff (patterns : list string) (command : string) :
  Forall wellFormedPattern patterns ->
  deniedByWord patterns command = Ok true <->
  exists p, In p patterns /\ wordTest p command = Ok true.
Proof.
  intros Hwf. induction Hwf as [|q patterns Hq _ IH]; simpl.
  - split; [discriminate | intros [p [[] _]]].
  - destruct (wordTest_wellFormed q command Hq) as [b Hb]. rewrite Hb. simpl.
    destruct b.
    + split; [intros _; exists q; auto | reflexivity].
    + rewrite IH. split; intros [p [Hin Hp]].
      * exists p; auto.
      * destruct Hin as [->|Hin]; [congruence | exists p; auto].
Qed.

Lemma deniedByWord_false_iff (patterns : list string) (command : string) :
  Forall wellFormedPattern patterns ->
  deniedByWord patterns command = Ok false <->
  forall p, In p patterns -> wordTest p command = Ok false.
Proof.
  intros Hwf. induction Hwf as [|q patterns Hq _ IH]; simpl.
  - split; [intros _ p [] | reflexivity].
  - destruct (wordTest_wellFormed q command Hq) as [b Hb]. rewrite Hb. simpl.
    destruct b.
    + split; [discriminate | intros H; specialize (H q (or_introl eq_refl)); congruence].
    + rewrite IH. split.
      * intros H p [->|Hin]; auto.
      * intros H p Hin. apply H. now right.
Qed.

(** The loop never answers [Ok false] for a command one of its patterns
    matches: a malformed pattern can only turn the answer into an exception. *)
Lemma deniedByWord_never_misses (patterns : list string) (command p : string) :
  In p patterns -> wordTest p command = Ok true ->
  deniedByWord patterns command <> Ok false.
Proof.
  induction patterns as [|q patterns IH]; simpl; [intros [] | ].
  intros [->|Hin] Hp.
  - rewrite Hp. discriminate.
  - destruct (wordTest q command) as [[|]|e]; simpl; [discriminate | auto | discriminate].
Qed.

End WithEngine.
End PolicyFacts.

(** The word engine on the patterns of the examples. *)
Example wordTest_literalEngine :
  let test := wordTest (engine := literalEngine) in
  test "rm" "rm -rf /" = Ok true /\
  test "rm" "RM file" = Ok true /\
  test "rm" "format disk" = Ok false /\
  test "rm" "rm" = Ok true /\
  test "git push" "cd x && git push origin" = Ok true /\
  test "ls" "false" = Ok false /\
  test "g++" "g++ main.c" = Throw (SyntaxError "g++") /\
  test "(" "rm -rf /" = Throw (SyntaxError "(").
Proof. repeat split; reflexivity. Qed.

Module PolicyClaims.

(** The configurations of the examples. *)
Definition rmDenied : ApprovalConfig :=
  {| autorun_mode := {| enabled := true; allowlist := []; denylist := ["rm"];
                        allow_all_other_commands := true |} |}.

Definition compilersAndRm : ApprovalConfig :=
  {| autorun_mode := {| enabled := true; allowlist := []; denylist := ["g++"; "rm"];
                        allow_all_other_commands := true |} |}.

Definition rmDeniedDisabled : ApprovalConfig :=
  {| autorun_mode := {| enabled := false; allowlist := []; denylist := ["rm"];
                        allow_all_other_commands := false |} |}.

Definition allowAllOthers : ApprovalConfig :=
  {| autorun_mode := {| enabled := true; allowlist := []; denylist := [];
                        allow_all_other_commands := true |} |}.

Definition lsAllowedDisabled : ApprovalConfig :=
  {| autorun_mode := {| enabled := false; allowlist := ["ls"]; denylist := [];
                        allow_all_other_commands := false |} |}.

Definition request (command : string) (background approval : bool)
  : Types.RunTerminalCmdArgs :=
  {| Types.command := command; Types.explanation := "";
     Types.is_background := background;
     Types.require_user_approval := approval |}.

Section WithEngine.
Context {engine : RegExpEngine}.

(** The denylist is terminal (C1 where the patterns compile): under an
    enabled policy, a command that matches a denylist pattern is denied
    whatever [allowlist] and [allow_all_other_commands] hold, in both
    revisions of [exec.ts], provided the patterns listed before the matching
    one are well-formed regular expressions. *)
Theorem denylist_match_is_terminal
  (allow before after : list string) (others : bool) (p command : string) :
  let cfg := {| autorun_mode :=
                  {| enabled := true; allowlist := allow;
                     denylist := before ++ p :: after;
                     allow_all_other_commands := others |} |} in
  Forall wellFormedPattern before ->
  wordTest p command = Ok true ->
  Exec.decide cfg command = Ok Deny /\
  Config.shouldAutoApproveCommand cfg command = Ok false /\
  ExecApproval.decide cfg command = Ok Deny.
Proof.
  intros cfg Hwf Hp.
  pose proof (PolicyFacts.deniedByWord_first_match before after p command Hwf Hp) as Hloop.
  unfold Exec.decide, Exec.isCommandDenied, ExecApproval.decide,
    ExecApproval.isCommandDenied, Config.shouldAutoApproveCommand.
  cbn [cfg autorun_mode Config.getConfig enabled denylist negb].
  rewrite Hloop. cbn [bind negb]. auto.
Qed.

(** C3, amended: with [enabled = false] the decision depends on the denylist
    alone.  The revision without the approval flag denies exactly the
    commands a denylist pattern matches as a word, without case (and throws
    on a malformed pattern it reaches); the revision with the flag denies
    exactly the commands that contain a denylist pattern as a substring. *)
Theorem disabled_policy_reads_denylist_only
  (allow deny : list string) (others : bool) (command : string) :
  let cfg := {| autorun_mode :=
                  {| enabled := false; allowlist := allow; denylist := deny;
                     allow_all_other_commands := others |} |} in
  ( (Exec.decide cfg command = Ok Deny /\
     exists p, In p deny /\ wordTest p command = Ok true)
    \/ (Exec.decide cfg command = Ok Admit /\
        forall p, In p deny -> wordTest p command = Ok false)
    \/ (exists e p, Exec.decide cfg command = Throw e /\ In p deny /\
                    wordTest p command = Throw e) )
  /\
  ( (ExecApproval.decide cfg command = Ok Deny /\
     exists p before after, In p deny /\ command = before ++ p ++ after)
    \/ (ExecApproval.decide cfg command = Ok Admit /\
        forall p, In p deny -> Js.includes command p = false) ).
Proof.
  intros cfg. split.
  - unfold Exec.decide, Exec.isCommandDenied.
    cbn [cfg autorun_mode Config.getConfig enabled denylist negb andb].
    induction deny as [|q deny IH]; cbn [deniedByWord bind].
    + right; left. split; [reflexivity | intros p []].
    + destruct (wordTest q command) as [[|]|e] eqn:Hq; cbn [bind].
      * left. split; [reflexivity | exists q; simpl; auto].
      * destruct IH as [[H [p [Hin Hp]]] | [[H Hall] | [e [p [H [Hin Hp]]]]]].
        -- left. split; [exact H | exists p; simpl; auto].
        -- right; left. split; [exact H | ]. intros p [<-|Hin]; auto.
        -- right; right. exists e, p. simpl; auto.
      * right; right. exists e, q. simpl; auto.
  - unfold ExecApproval.decide, ExecApproval.isCommandDenied.
    cbn [cfg autorun_mode Config.getConfig enabled denylist negb bind].
    destruct (existsb (fun deniedPattern => Js.includes command deniedPattern) deny)
      eqn:Hex.
    + left. split; [reflexivity | ].
      apply existsb_exists in Hex. destruct Hex as [p [Hin Hp]].
      apply includes_iff in Hp. destruct Hp as [before [after Hp]].
      now exists p, before, after.
    + right. split; [reflexivity | ].
      intros p Hin. destruct (Js.includes command p) eqn:Hp; [ | reflexivity].
      assert (existsb (fun deniedPattern => Js.includes command deniedPattern) deny = true)
        by (apply existsb_exists; eauto).
      congruence.
Qed.

(** C2, amended: the policy composed with [require_user_approval].  A denied
    command gives the error [security_violation] without the flag and
    [waiting] with it, no process being started.  A command the policy lets
    through with the flag set waits when the policy is disabled and runs when
    it is enabled: [shouldAutoApproveCommand] then approves it, by the
    allowlist or by [allow_all_other_commands]. *)
Theorem approval_flag_composition
  (cfg : ApprovalConfig) (params : Types.RunTerminalCmdArgs)
  (events : list Node.ChildEvent) :
  let command := Types.command params in
  let execution := ExecApproval.executeCommand cfg params events in
  (ExecApproval.isCommandDenied cfg command = Ok true ->
   Types.require_user_approval params = false ->
   launched execution = [] /\
   outcome execution = Fulfilled (securityViolation command))
  /\
  (ExecApproval.isCommandDenied cfg command = Ok true ->
   Types.require_user_approval params = true ->
   launched execution = [] /\ outcome execution = Fulfilled Types.waiting)
  /\
  (ExecApproval.isCommandDenied cfg command = Ok false ->
   Types.require_user_approval params = true ->
   (enabled (autorun_mode cfg) = false ->
    Config.shouldAutoApproveCommand cfg command = Ok false /\
    launched execution = [] /\ outcome execution = Fulfilled Types.waiting)
   /\
   (enabled (autorun_mode cfg) = true ->
    Config.shouldAutoApproveCommand cfg command = Ok true /\
    execution = run params events /\
    exists started, launched execution = [started])).
Proof.
  intros command execution. subst execution.
  unfold ExecApproval.executeCommand. fold command.
  assert (Hgate : ExecApproval.isCommandDenied cfg command = Ok false ->
                  Config.shouldAutoApproveCommand cfg command
                  = Ok (enabled (autorun_mode cfg))).
  { unfold ExecApproval.isCommandDenied, Config.shouldAutoApproveCommand.
    cbn [Config.getConfig autorun_mode].
    destruct (enabled (autorun_mode cfg)); cbn [negb]; [ | reflexivity].
    destruct (deniedByWord _ command) as [[|]|e]; cbn [bind negb];
      [discriminate | | discriminate].
    destruct (allow_all_other_commands _); [reflexivity | ].
    destruct (existsb _ _); [reflexivity | discriminate]. }
  split; [ | split].
  - intros Hdenied Hflag. rewrite Hdenied, Hflag. split; reflexivity.
  - intros Hdenied Hflag. rewrite Hdenied, Hflag. split; reflexivity.
  - intros Hfree Hflag. rewrite Hfree, Hflag, (Hgate Hfree). split.
    + intros ->. split; [reflexivity | split; reflexivity].
    + intros ->. split; [reflexivity | split; [reflexivity | ]].
      unfold run. destruct (Types.is_background params); eexists; reflexivity.
Qed.

End WithEngine.

(** The example of the specification:
    [decide("rm -rf /", {enabled: true, denylist: ["rm"], allowAllOthers: true})]. *)
Lemma denylist_match_is_terminal_witness :
  Exec.decide (engine := literalEngine) rmDenied "rm -rf /" = Ok Deny /\
  Config.shouldAutoApproveCommand (engine := literalEngine) rmDenied "rm -rf /"
  = Ok false /\
  ExecApproval.decide (engine := literalEngine) rmDenied "rm -rf /" = Ok Deny.
Proof.
  exact (denylist_match_is_terminal (engine := literalEngine)
           [] [] [] true "rm" "rm -rf /" (Forall_nil _) eq_refl).
Defined.

(** C1, evaluated where the code departs from it: with the denylist
    [["g++"; "rm"]] the command [rm -rf /] matches the pattern [rm], as a
    word and as a substring, and the check throws at the pattern [g++],
    which is put into the regular expression as it is and does not compile.
    No decision is returned, in either revision; the promise of
    [executeCommand] is rejected.  The same happens for every command. *)
Lemma unescaped_pattern_preempts_denial :
  (wordTest (engine := literalEngine) "rm" "rm -rf /" = Ok true /\
   Js.includes "rm -rf /" "rm" = true) /\
  Exec.decide (engine := literalEngine) compilersAndRm "rm -rf /"
  = Throw (SyntaxError "g++") /\
  ExecApproval.decide (engine := literalEngine) compilersAndRm "rm -rf /"
  = Throw (SyntaxError "g++") /\
  Exec.executeCommand (engine := literalEngine) compilersAndRm
    (request "rm -rf /" false false) []
  = {| launched := []; outcome := Rejected (SyntaxError "g++") |} /\
  Exec.decide (engine := literalEngine) compilersAndRm "ls"
  = Throw (SyntaxError "g++").
Proof. repeat split; reflexivity. Qed.

(** C3 as stated fails in the revision with the approval flag: under the
    disabled policy with denylist [["rm"]] it denies [format disk], which
    the word [rm] does not match, and lets [RM file] through, which it
    matches without case. *)
Lemma substring_denylist_differs_from_words :
  wordTest (engine := literalEngine) "rm" "format disk" = Ok false /\
  ExecApproval.decide (engine := literalEngine) rmDeniedDisabled "format disk"
  = Ok Deny /\
  wordTest (engine := literalEngine) "rm" "RM file" = Ok true /\
  ExecApproval.decide (engine := literalEngine) rmDeniedDisabled "RM file"
  = Ok Admit.
Proof. repeat split; reflexivity. Qed.

(** C2 as stated fails in both directions.  [ls] matches no allowlist
    pattern of [allowAllOthers], is let through by the policy, and runs with
    the approval flag set; [ls] matches the allowlist of [lsAllowedDisabled],
    is let through, and waits. *)
Lemma allowlist_match_does_not_decide_approval :
  let params := request "ls" true true in
  ( existsb (fun allowedPattern => Js.includes "ls" allowedPattern)
            (allowlist (autorun_mode allowAllOthers)) = false /\
    ExecApproval.isCommandDenied (engine := literalEngine) allowAllOthers "ls"
    = Ok false /\
    ExecApproval.executeCommand (engine := literalEngine) allowAllOthers params []
    = runBackground params )
  /\
  ( existsb (fun allowedPattern => Js.includes "ls" allowedPattern)
            (allowlist (autorun_mode lsAllowedDisabled)) = true /\
    ExecApproval.isCommandDenied (engine := literalEngine) lsAllowedDisabled "ls"
    = Ok false /\
    ExecApproval.executeCommand (engine := literalEngine) lsAllowedDisabled params []
    = refused Types.waiting ).
Proof. repeat split; reflexivity. Qed.

(** C2 at a request with the flag set that the enabled policy lets through. *)
Lemma approval_flag_composition_witness :
  let params := request "ls" true true in
  Config.shouldAutoApproveCommand (engine := literalEngine) allowAllOthers "ls"
  = Ok true /\
  ExecApproval.executeCommand (engine := literalEngine) allowAllOthers params []
  = run params [] /\
  exists started,
    launched (ExecApproval.executeCommand (engine := literalEngine)
                allowAllOthers params []) = [started].
Proof.
  exact (proj2 (proj2 (proj2 (approval_flag_composition (engine := literalEngine)
                                allowAllOthers (request "ls" true true) []))
                 eq_refl eq_refl) eq_refl).
Defined.

End PolicyClaims.

(** ** Captured output *)

Module Capture.

Lemma length_append (a b : string) :
  Js.length (a ++ b) = Js.length a + Js.length b.
Proof.
  unfold Js.length. induction a as [|c a IH]; simpl String.length.
  - reflexivity.
  - simpl String.length in IH. lia.
Qed.

Lemma length_nonneg (s : string) : 0 <= Js.length s.
Proof. unfold Js.length. lia. Qed.

Lemma length_repeat (c : ascii) (n : nat) : Js.length (Js.repeat c n) = Z.of_nat n.
Proof.
  unfold Js.length. f_equal. induction n as [|n IH]; simpl; congruence.
Qed.

Lemma length_zero (s : string) : Js.length s = 0 -> s = "".
Proof. destruct s; [reflexivity | unfold Js.length; simpl; lia]. Qed.

Lemma append_empty (s : string) : s ++ "" = s.
Proof. induction s as [|c s IH]; simpl; congruence. Qed.

Lemma append_assoc (a b c : string) : (a ++ b) ++ c = a ++ (b ++ c).
Proof. induction a as [|x a IH]; simpl; congruence. Qed.

(** [String.substring 0 n s] keeps the first [n] characters of [s]. *)
Lemma take_length (n : nat) (s : string) :
  String.length (String.substring 0 n s) = Nat.min n (String.length s).
Proof.
  revert s; induction n as [|n IH]; intros [|c s]; simpl; auto.
Qed.

Lemma take_all (n : nat) (s : string) :
  (String.length s <= n)%nat -> String.substring 0 n s = s.
Proof.
  revert s; induction n as [|n IH]; intros [|c s]; simpl; intros H;
    try reflexivity; try lia.
  f_equal. apply IH. lia.
Qed.



Lemma substring_take (s : string) (n : Z) :
  0 <= n -> Js.substring s 0 n = String.substring 0 (Z.to_nat n) s.
Proof.
  intros Hn. unfold Js.substring, Js.clamp.
  pose proof (length_nonneg s) as Hs. unfold Js.length in *.
  replace (Z.max 0 (Z.min 0 (Z.of_nat (String.length s)))) with 0 by lia.
  destruct (Z.le_ge_cases n (Z.of_nat (String.length s))) as [Hle|Hge].
  - replace (Z.max 0 (Z.min n (Z.of_nat (String.length s)))) with n by lia.
    replace (Z.min 0 n) with 0 by lia. replace (Z.max 0 n - 0) with n by lia.
    reflexivity.
  - replace (Z.max 0 (Z.min n (Z.of_nat (String.length s))))
      with (Z.of_nat (String.length s)) by lia.
    replace (Z.min 0 (Z.of_nat (String.length s))) with 0 by lia.
    replace (Z.max 0 (Z.of_nat (String.length s)) - 0)
      with (Z.of_nat (String.length s)) by lia.
    rewrite Nat2Z.id. change (Z.to_nat 0) with 0%nat.
    rewrite !take_all; [reflexivity | lia | lia].
Qed.

Lemma substring_length (s : string) (n : Z) :
  0 <= n -> Js.length (Js.substring s 0 n) = Z.min n (Js.length s).
Proof.
  intros Hn. rewrite substring_take by exact Hn.
  unfold Js.length. rewrite take_length. lia.
Qed.




End Capture.

(** ** The execution engine *)

Module ExecFacts.
Import Foreground.

(** What the child wrote on each stream, and the events that carry output. *)
Fixpoint stdoutOf (events : list Node.ChildEvent) : string :=
  match events with
  | [] => ""
  | Node.StdoutData data :: rest => data ++ stdoutOf rest
  | _ :: rest => stdoutOf rest
  end.

Fixpoint stderrOf (events : list Node.ChildEvent) : string :=
  match events with
  | [] => ""
  | Node.StderrData data :: rest => data ++ stderrOf rest
  | _ :: rest => stderrOf rest
  end.

Definition isData (ev : Node.ChildEvent) : Prop :=
  match ev with
  | Node.StdoutData _ | Node.StderrData _ => True
  | _ => False
  end.


(** The invariant of the two [data] handlers over the events handled so far. *)
Record captured (handled : list Node.ChildEvent) (st : Capture) : Prop := {
  captured_stdout : stdout st = Js.substring (stdoutOf handled) 0 MAX_BUFFER_SIZE;
  captured_over :
    Js.length (stdoutOf handled) > MAX_BUFFER_SIZE -> truncated st = true;
  captured_under :
    Js.length (stdoutOf handled) <= MAX_BUFFER_SIZE ->
    truncated st = false /\ stderr st = stderrOf handled
}.

Lemma MAX_BUFFER_SIZE_pos : 0 < MAX_BUFFER_SIZE.
Proof. reflexivity. Qed.

Lemma stdoutOf_app (a b : list Node.ChildEvent) :
  stdoutOf (a ++ b) = stdoutOf a ++ stdoutOf b.
Proof.
  induction a as [|[d|d|c|e] a IH]; simpl; try assumption.
  - reflexivity.
  - now rewrite IH, Capture.append_assoc.
Qed.

Lemma stderrOf_app (a b : list Node.ChildEvent) :
  stderrOf (a ++ b) = stderrOf a ++ stderrOf b.
Proof.
  induction a as [|[d|d|c|e] a IH]; simpl; try assumption.
  - reflexivity.
  - now rewrite IH, Capture.append_assoc.
Qed.


#[local] Opaque MAX_BUFFER_SIZE.




Lemma settled_data (command : string) (events : list Node.ChildEvent) (st : Capture) :
  Forall isData events -> settled (deliver command events st) = settled st.
Proof.
  intros Hdata. revert st.
  induction Hdata as [|ev events Hev _ IH]; intros st; [reflexivity | ].
  change (deliver command (ev :: events) st)
    with (deliver command events (handle command ev st)).
  rewrite IH. destruct ev as [data|data|code|err]; simpl in Hev; try contradiction.
  - simpl. unfold onStdoutData.
    destruct (_ >? _); [reflexivity | destruct (negb _); reflexivity].
  - simpl. unfold onStderrData.
    destruct (_ >? _); [reflexivity | destruct (negb _); reflexivity].
Qed.

Lemma deliver_app (command : string) (a b : list Node.ChildEvent) (st : Capture) :
  deliver command (a ++ b) st = deliver command b (deliver command a st).
Proof. unfold deliver. apply fold_left_app. Qed.

#[local] Transparent MAX_BUFFER_SIZE.

End ExecFacts.

Module ExecClaims.
Import Foreground ExecFacts.


(** The reports of a child killed with [SIGTERM], the signal [exec] sends at
    the timeout when no [killSignal] option is given: the [close] of the
    child, or an [error] that carries the signal. *)
Definition reportsTermination (ending : Node.ChildEvent) : Prop :=
  match ending with
  | Node.Close _ => True
  | Node.Error err => is_signal err "SIGTERM" = true
  | _ => False
  end.

Section WithEngine.
Context {engine : RegExpEngine}.

(** The request goes through the gate of [executeCommand]: the policy does
    not deny the command and, when approval is required, approves it. *)
Definition passesGate (cfg : ApprovalConfig) (params : Types.RunTerminalCmdArgs)
  : Prop :=
  ExecApproval.isCommandDenied cfg (Types.command params) = Ok false /\
  (Types.require_user_approval params = true ->
   Config.shouldAutoApproveCommand cfg (Types.command params) = Ok true).

Lemma gate_passed (cfg : ApprovalConfig) (params : Types.RunTerminalCmdArgs)
  (events : list Node.ChildEvent) :
  passesGate cfg params ->
  ExecApproval.executeCommand cfg params events = run params events.
Proof.
  intros [Hfree Happroved]. unfold ExecApproval.executeCommand. rewrite Hfree.
  destruct (Types.require_user_approval params); [ | reflexivity].
  now rewrite Happroved.
Qed.

Lemma gate_passed_without_flag (cfg : ApprovalConfig)
  (params : Types.RunTerminalCmdArgs) (events : list Node.ChildEvent) :
  Exec.isCommandDenied cfg (Types.command params) = Ok false ->
  Exec.executeCommand cfg params events = run params events.
Proof. intros Hfree. unfold Exec.executeCommand. now rewrite Hfree. Qed.

End WithEngine.

(** A run of [data] events followed by the event that settles the promise. *)
Lemma settled_at_ending (command : string) (events : list Node.ChildEvent)
  (ending : Node.ChildEvent) :
  Forall isData events ->
  settled (deliver command (events ++ [ending]) start)
  = settled (handle command ending (deliver command events start)).
Proof. intros _. now rewrite deliver_app. Qed.

Lemma onClose_settles (code : option Z) (st : Capture) :
  settled st = None ->
  settled (onClose code st)
  = Some (Types.success
            {| Types.stdout := stdout st; Types.stderr := stderr st;
               Types.exitCode :=
                 CodeNumber (match code with None => -1 | Some c => c end);
               Types.truncated := if truncated st then Some true else None |}).
Proof. intros H. unfold onClose, resolve. now rewrite H. Qed.

Lemma onError_cap_settles (command : string) (err : Node.ExecException)
  (st : Capture) :
  settled st = None ->
  is_signal err "SIGTERM" || is_code err "ERR_CHILD_PROCESS_STDIO_MAXBUFFER" = true ->
  exists result,
    settled (onError command err st) = Some (Types.success result) /\
    Types.stdout result = stdout st /\
    Types.truncated result = Some true.
Proof.
  intros Hnone Hcap. unfold onError. rewrite Hcap. unfold resolve.
  cbn [settled]. rewrite Hnone. eexists. split; [reflexivity | split; reflexivity].
Qed.

(** The [error] handler answers [timeout] exactly for an error with the code
    [ETIMEDOUT] or the signal [SIGKILL] that carries neither [SIGTERM] nor
    the overflow code. *)
Lemma onError_timeout_iff (command : string) (err : Node.ExecException)
  (st : Capture) :
  settled st = None ->
  (exists e, settled (onError command err st) = Some (Types.error e) /\
             Types.code e = Some "timeout")
  <->
  (is_signal err "SIGTERM" || is_code err "ERR_CHILD_PROCESS_STDIO_MAXBUFFER" = false /\
   is_code err "ETIMEDOUT" || is_signal err "SIGKILL" = true).
Proof.
  intros Hnone. unfold onError, resolve.
  destruct (is_signal err "SIGTERM" || is_code err "ERR_CHILD_PROCESS_STDIO_MAXBUFFER");
    cbn [settled]; rewrite Hnone.
  - split; [intros [e [H _]]; discriminate | intros [H _]; discriminate].
  - destruct (is_code err "ETIMEDOUT" || is_signal err "SIGKILL"); split.
    + auto.
    + intros _. eexists. split; reflexivity.
    + intros [e [H Hcode]]. injection H as <-. discriminate.
    + intros [_ H]; discriminate.
Qed.

Section Claims.
Context {engine : RegExpEngine}.


(** C5, evaluated: the foreground child is started with the timeout of 30
    seconds and no [killSignal], and every report of its termination by
    [SIGTERM] settles the promise with [success]; the error [timeout] is not
    returned. *)
Theorem termination_is_reported_as_success
  (cfg : ApprovalConfig) (params : Types.RunTerminalCmdArgs)
  (events : list Node.ChildEvent) (ending : Node.ChildEvent) :
  passesGate cfg params ->
  Types.is_background params = false ->
  Forall isData events ->
  reportsTermination ending ->
  launched (ExecApproval.executeCommand cfg params (events ++ [ending]))
  = [ {| Node.exec_command := Types.command params;
         Node.exec_timeout := Some (30 * 1000);
         Node.exec_killSignal := None;
         Node.exec_maxBuffer := 2 * 1024 * 1024 + 1024 |} ] /\
  exists result,
    outcome (ExecApproval.executeCommand cfg params (events ++ [ending]))
    = Fulfilled (Types.success result).
Proof.
  intros Hgate Hfg Hdata Hend.
  rewrite (gate_passed cfg params _ Hgate). unfold run. rewrite Hfg.
  split; [reflexivity | ].
  unfold runForeground. cbn [outcome].
  rewrite settled_at_ending by exact Hdata.
  set (st := deliver (Types.command params) events start).
  assert (Hnone : settled st = None)
    by (unfold st; now rewrite settled_data).
  destruct ending as [data|data|code|err]; simpl in Hend; try contradiction.
  - cbn [handle]. rewrite (onClose_settles code st Hnone). eexists. reflexivity.
  - cbn [handle].
    destruct (onError_cap_settles (Types.command params) err st Hnone)
      as [result [Hs _]].
    + now rewrite Hend.
    + rewrite Hs. now exists result.
Qed.

(** C6: a background request that goes through the gate makes one call of
    [exec] and its promise is fulfilled with [stdout = ""], [stderr = ""]
    and [exitCode = 0], whatever the child does afterwards, a failure of the
    launch included; in both revisions. *)
Theorem background_returns_at_launch
  (cfg : ApprovalConfig) (params : Types.RunTerminalCmdArgs)
  (events : list Node.ChildEvent) :
  let launch :=
    {| launched := [ {| Node.exec_command := Types.command params ++ " &";
                        Node.exec_timeout := None;
                        Node.exec_killSignal := None;
                        Node.exec_maxBuffer := 1024 |} ];
       outcome := Fulfilled (Types.success
         {| Types.stdout := ""; Types.stderr := "";
            Types.exitCode := CodeNumber 0; Types.truncated := Some false |}) |} in
  Types.is_background params = true ->
  (passesGate cfg params ->
   ExecApproval.executeCommand cfg params events = launch) /\
  (Exec.isCommandDenied cfg (Types.command params) = Ok false ->
   Exec.executeCommand cfg params events = launch).
Proof.
  intros launch Hbg. split; intros Hgate.
  - rewrite (gate_passed cfg params events Hgate). unfold run. now rewrite Hbg.
  - rewrite (gate_passed_without_flag cfg params events Hgate).
    unfold run. now rewrite Hbg.
Qed.

End Claims.

(** *** The examples *)


(** A request the default configuration lets through. *)
Lemma default_gate (command : string) (background : bool) :
  passesGate (engine := literalEngine) defaultConfig
    (PolicyClaims.request command background false).
Proof. split; [reflexivity | discriminate]. Qed.

(** One more character than the cap, in one piece. *)
Definition overflowing : string :=
  Js.repeat "y" (Z.to_nat (MAX_BUFFER_SIZE + 1)).

Lemma overflowing_length : Js.length overflowing = MAX_BUFFER_SIZE + 1.
Proof.
  unfold overflowing. rewrite Capture.length_repeat. apply Z2Nat.id.
  pose proof MAX_BUFFER_SIZE_pos. lia.
Qed.





(** C5 at [sleep 60]: the child is killed at the timeout and closes with
    the code [null]. *)
Lemma termination_is_reported_as_success_witness :
  launched (ExecApproval.executeCommand (engine := literalEngine) defaultConfig
              (PolicyClaims.request "sleep 60" false false)
              ([] ++ [Node.Close None]))
  = [ {| Node.exec_command := "sleep 60";
         Node.exec_timeout := Some (30 * 1000);
         Node.exec_killSignal := None;
         Node.exec_maxBuffer := 2 * 1024 * 1024 + 1024 |} ] /\
  exists result,
    outcome (ExecApproval.executeCommand (engine := literalEngine) defaultConfig
               (PolicyClaims.request "sleep 60" false false)
               ([] ++ [Node.Close None]))
    = Fulfilled (Types.success result).
Proof.
  exact (termination_is_reported_as_success (engine := literalEngine) defaultConfig
           (PolicyClaims.request "sleep 60" false false) [] (Node.Close None)
           (default_gate "sleep 60" false) eq_refl (Forall_nil _) I).
Defined.

(** What the two reports of the kill at the timeout give for [sleep 60]. *)
Example sleep_killed_at_timeout :
  let params := PolicyClaims.request "sleep 60" false false in
  outcome (ExecApproval.executeCommand (engine := literalEngine) defaultConfig
             params [Node.Close None])
  = Fulfilled (Types.success
      {| Types.stdout := ""; Types.stderr := "";
         Types.exitCode := CodeNumber (-1); Types.truncated := None |})
  /\
  outcome (ExecApproval.executeCommand (engine := literalEngine) defaultConfig
             params
             [Node.Error {| Node.message := "Command failed: sleep 60";
                            Node.code := None;
                            Node.signal := Some "SIGTERM" |}])
  = Fulfilled (Types.success
      {| Types.stdout := "";
         Types.stderr :=
           Js.LF ++ "ERROR: Command output exceeded 2MB buffer limit.";
         Types.exitCode := CodeNumber 1; Types.truncated := Some true |}).
Proof. split; reflexivity. Qed.

(** C6 at [sleep 5] in the background, the launch failing. *)
Lemma background_returns_at_launch_witness :
  let params := PolicyClaims.request "sleep 5" true false in
  let failure :=
    [Node.Error {| Node.message := "spawn /bin/sh ENOENT";
                   Node.code := Some (CodeString "ENOENT");
                   Node.signal := None |}] in
  let launch :=
    {| launched := [ {| Node.exec_command := "sleep 5 &";
                        Node.exec_timeout := None;
                        Node.exec_killSignal := None;
                        Node.exec_maxBuffer := 1024 |} ];
       outcome := Fulfilled (Types.success
         {| Types.stdout := ""; Types.stderr := "";
            Types.exitCode := CodeNumber 0; Types.truncated := Some false |}) |} in
  ExecApproval.executeCommand (engine := literalEngine) defaultConfig params failure
  = launch /\
  Exec.executeCommand (engine := literalEngine) defaultConfig params failure
  = launch.
Proof.
  pose proof (background_returns_at_launch (engine := literalEngine) defaultConfig
                (PolicyClaims.request "sleep 5" true false)
                [Node.Error {| Node.message := "spawn /bin/sh ENOENT";
                               Node.code := Some (CodeString "ENOENT");
                               Node.signal := None |}]
                eq_refl) as [Hflag Hplain].
  exact (conj (Hflag (default_gate "sleep 5" true)) (Hplain eq_refl)).
Defined.

(** *** The standard error stream reaching the cap first *)

Definition isStderr (ev : Node.ChildEvent) : Prop :=
  match ev with
  | Node.StderrData _ => True
  | _ => False
  end.

Definition isShortStdout (ev : Node.ChildEvent) : Prop :=
  match ev with
  | Node.StdoutData data => Js.length data <= MAX_BUFFER_SIZE
  | _ => False
  end.

Lemma stderr_events_keep_stdout (command : string) (events : list Node.ChildEvent)
  (st : Capture) :
  Forall isStderr events ->
  stdout (deliver command events st) = stdout st /\
  settled (deliver command events st) = settled st.
Proof.
  intros Hev. revert st. induction Hev as [|ev events Hev _ IH]; intros st.
  - split; reflexivity.
  - change (deliver command (ev :: events) st)
      with (deliver command events (handle command ev st)).
    destruct (IH (handle command ev st)) as [-> ->].
    destruct ev as [data|data|code|err]; simpl in Hev; try contradiction.
    cbn [handle]. unfold onStderrData.
    destruct (_ >? _); [split; reflexivity | ].
    destruct (negb _); split; reflexivity.
Qed.

#[local] Opaque MAX_BUFFER_SIZE.

(** Once the standard error stream has received more than the cap,
    [truncated] is set. *)
Lemma stderr_overflow_truncates (command : string) (events : list Node.ChildEvent)
  (st : Capture) :
  Forall isStderr events ->
  Js.length (stderr st) <= MAX_BUFFER_SIZE ->
  truncated st = true \/
    Js.length (stderr st) + Js.length (stderrOf events) > MAX_BUFFER_SIZE ->
  truncated (deliver command events st) = true.
Proof.
  intros Hev. revert st. induction Hev as [|ev events Hev _ IH]; intros st Hle Hor.
  - destruct Hor as [H|H]; [exact H | ]. cbn [stderrOf] in H.
    change (Js.length "") with 0 in H. lia.
  - change (deliver command (ev :: events) st)
      with (deliver command events (handle command ev st)).
    destruct ev as [data|data|code|err]; simpl in Hev; try contradiction.
    cbn [handle]. unfold onStderrData.
    pose proof (Capture.length_nonneg data) as Hdata.
    pose proof (Capture.length_nonneg (stderr st)) as Hst.
    destruct (Js.length (stderr st) + Js.length data >? MAX_BUFFER_SIZE) eqn:Hcmp.
    + apply IH; cbn [stderr truncated]; [ | now left].
      rewrite Capture.length_append, Capture.substring_length by lia. lia.
    + assert (Js.length (stderr st) + Js.length data <= MAX_BUFFER_SIZE)
        by (rewrite Z.gtb_ltb in Hcmp; apply Z.ltb_ge in Hcmp; lia).
      destruct (truncated st) eqn:Htr; cbn [negb].
      * apply IH; [exact Hle | now left].
      * apply IH; cbn [stderr truncated].
        -- rewrite Capture.length_append. lia.
        -- right. destruct Hor as [Hor|Hor]; [discriminate | ].
           cbn [stderrOf] in Hor. rewrite Capture.length_append in *. lia.
Qed.

(** After that, output that would fit is dropped. *)
Lemma short_stdout_is_dropped (command : string) (events : list Node.ChildEvent)
  (st : Capture) :
  Forall isShortStdout events ->
  truncated st = true -> stdout st = "" ->
  deliver command events st = st.
Proof.
  intros Hev Htr Hempty. induction Hev as [|ev events Hev _ IH]; [reflexivity | ].
  change (deliver command (ev :: events) st)
    with (deliver command events (handle command ev st)).
  destruct ev as [data|data|code|err]; simpl in Hev; try contradiction.
  cbn [handle]. unfold onStdoutData. rewrite Hempty, Htr.
  change (Js.length "") with 0.
  destruct (0 + Js.length data >? MAX_BUFFER_SIZE) eqn:Hcmp.
  - apply Z.gtb_lt in Hcmp. lia.
  - cbn [negb]. exact IH.
Qed.

#[local] Transparent MAX_BUFFER_SIZE.

(** A piece of 64 KiB, and a stream that delivers 32 of them and one more
    character: 2 MiB + 1 characters. *)
Definition piece : string := Js.repeat "x" (Z.to_nat 65536).

Definition flood (stream : string -> Node.ChildEvent) : list Node.ChildEvent :=
  List.repeat (stream piece) 32 ++ [stream "x"].

Definition stderrFirst : list Node.ChildEvent :=
  flood Node.StderrData ++ flood Node.StdoutData ++ [Node.Close (Some 0)].

Lemma piece_length : Js.length piece = 65536.
Proof. unfold piece. rewrite Capture.length_repeat. now apply Z2Nat.id. Qed.

#[local] Opaque piece.

Lemma stdoutOf_repeat (data : string) (n : nat) :
  Js.length (stdoutOf (List.repeat (Node.StdoutData data) n))
  = Z.of_nat n * Js.length data.
Proof.
  induction n as [|n IH]; [reflexivity | ].
  cbn [List.repeat stdoutOf]. rewrite Capture.length_append, IH. lia.
Qed.

Lemma stderrOf_repeat (data : string) (n : nat) :
  Js.length (stderrOf (List.repeat (Node.StderrData data) n))
  = Z.of_nat n * Js.length data.
Proof.
  induction n as [|n IH]; [reflexivity | ].
  cbn [List.repeat stderrOf]. rewrite Capture.length_append, IH. lia.
Qed.

Lemma flood_stdout_length :
  Js.length (stdoutOf (flood Node.StdoutData)) = MAX_BUFFER_SIZE + 1.
Proof.
  unfold flood. rewrite stdoutOf_app, Capture.length_append, stdoutOf_repeat,
    piece_length. reflexivity.
Qed.

Lemma flood_stderr_length :
  Js.length (stderrOf (flood Node.StderrData)) = MAX_BUFFER_SIZE + 1.
Proof.
  unfold flood. rewrite stderrOf_app, Capture.length_append, stderrOf_repeat,
    piece_length. reflexivity.
Qed.

Lemma flood_stderr_events : Forall isStderr (flood Node.StderrData).
Proof.
  unfold flood. apply Forall_app. split; [ | repeat constructor].
  apply Forall_forall. intros ev Hin. apply repeat_spec in Hin. now subst.
Qed.

Lemma flood_stdout_events : Forall isShortStdout (flood Node.StdoutData).
Proof.
  unfold flood. apply Forall_app. split.
  - apply Forall_forall. intros ev Hin. apply repeat_spec in Hin. subst.
    cbn [isShortStdout]. rewrite piece_length. discriminate.
  - repeat constructor. cbn [isShortStdout]. discriminate.
Qed.

Lemma stdoutOf_stderr_events (events : list Node.ChildEvent) :
  Forall isStderr events -> stdoutOf events = "".
Proof.
  induction 1 as [|[data|data|code|err] events Hev _ IH]; simpl in *;
    try contradiction; auto.
Qed.

(** The state after the standard error stream has delivered 2 MiB + 1
    characters: [truncated] is set and nothing of the standard output is
    held yet. *)
Lemma after_stderr_flood (command : string) :
  let st := deliver command (flood Node.StderrData) start in
  stdout st = "" /\ truncated st = true /\ settled st = None.
Proof.
  intros st.
  destruct (stderr_events_keep_stdout command _ start flood_stderr_events)
    as [Hout Hnone]. fold st in Hout, Hnone.
  split; [exact Hout | split; [ | exact Hnone]].
  apply stderr_overflow_truncates; [exact flood_stderr_events | | ].
  - cbn [start stderr]. discriminate.
  - right. rewrite flood_stderr_length. cbn [start stderr].
    change (Js.length "") with 0. reflexivity.
Qed.

(** From such a state, pieces of standard output that fit are dropped ... *)
Lemma pieces_then_close (command : string) (st : Capture)
  (events : list Node.ChildEvent) (code : option Z) :
  stdout st = "" -> truncated st = true -> settled st = None ->
  Forall isShortStdout events ->
  exists result,
    settled (deliver command (events ++ [Node.Close code]) st)
    = Some (Types.success result) /\
    Types.stdout result = "" /\
    Types.exitCode result = CodeNumber (match code with None => -1 | Some c => c end) /\
    Types.truncated result = Some true.
Proof.
  intros Hout Htr Hnone Hshort.
  rewrite deliver_app, (short_stdout_is_dropped command events st Hshort Htr Hout).
  unfold deliver. cbn [fold_left handle].
  rewrite (onClose_settles code st Hnone), Htr, Hout.
  eexists. split; [reflexivity | ]. repeat split.
Qed.

(** ... while one piece that exceeds the cap is cut at the cap. *)
Lemma one_piece_then_close (command : string) (st : Capture)
  (data : string) (code : option Z) :
  stdout st = "" -> settled st = None -> Js.length data > MAX_BUFFER_SIZE ->
  exists result,
    settled (deliver command [Node.StdoutData data; Node.Close code] st)
    = Some (Types.success result) /\
    Js.length (Types.stdout result) = MAX_BUFFER_SIZE /\
    Types.truncated result = Some true.
Proof.
  intros Hout Hnone Hlong.
  pose proof MAX_BUFFER_SIZE_pos as Hpos.
  unfold deliver. cbn [fold_left handle]. unfold onStdoutData. rewrite Hout.
  change (Js.length "") with 0.
  destruct (0 + Js.length data >? MAX_BUFFER_SIZE) eqn:Hcmp.
  - rewrite onClose_settles by (cbn [settled]; exact Hnone).
    cbn [stdout stderr truncated]. eexists. split; [reflexivity | ].
    cbn [Types.stdout Types.truncated append]. split; [ | reflexivity].
    rewrite Capture.substring_length by lia. lia.
  - rewrite Z.gtb_ltb in Hcmp. apply Z.ltb_ge in Hcmp. lia.
Qed.

(** The same output in one piece. *)
Definition stderrFirstOnePiece : list Node.ChildEvent :=
  flood Node.StderrData ++ [Node.StdoutData overflowing; Node.Close (Some 0)].

(** A command that passes the gate of the default configuration settles as
    its foreground capture does. *)
Lemma foreground_outcome (command : string) (events : list Node.ChildEvent)
  (o : Types.CommandExecOutcome) :
  settled (deliver command events start) = Some o ->
  outcome (ExecApproval.executeCommand (engine := literalEngine) defaultConfig
             (PolicyClaims.request command false false) events)
  = Fulfilled o.
Proof.
  intros Hsettled.
  rewrite (gate_passed (engine := literalEngine) defaultConfig _ events
             (default_gate command false)).
  unfold run, runForeground.
  cbn [PolicyClaims.request Types.is_background Types.command outcome].
  now rewrite Hsettled.
Qed.

(** C4, evaluated where the code departs from it: the child writes 2 MiB + 1
    characters to its standard error and then 2 MiB + 1 characters to its
    standard output, in pieces of 64 KiB, and exits with code 0.
    [truncated] is set by the standard error stream, every piece of standard
    output fits and is dropped, and the result retains none of it.  Had the
    standard output come in one piece, its first 2 MiB would have been
    kept. *)
Lemma stderr_overflow_discards_stdout :
  let params := PolicyClaims.request "build" false false in
  (Js.length (stdoutOf stderrFirst) = 2 * 1024 * 1024 + 1 /\
   exists result,
     outcome (ExecApproval.executeCommand (engine := literalEngine) defaultConfig
                params stderrFirst)
     = Fulfilled (Types.success result) /\
     Types.stdout result = "" /\
     Types.exitCode result = CodeNumber 0 /\
     Types.truncated result = Some true)
  /\
  (exists result,
     outcome (ExecApproval.executeCommand (engine := literalEngine) defaultConfig
                params stderrFirstOnePiece)
     = Fulfilled (Types.success result) /\
     Js.length (Types.stdout result) = 2 * 1024 * 1024 /\
     Types.truncated result = Some true).
Proof.
  intros params.
  destruct (after_stderr_flood "build") as [Hout [Htr Hnone]].
  split; [split | ].
  - unfold stderrFirst. rewrite !stdoutOf_app.
    rewrite (stdoutOf_stderr_events _ flood_stderr_events).
    cbn [stdoutOf append]. rewrite Capture.append_empty, flood_stdout_length.
    reflexivity.
  - destruct (pieces_then_close "build" _ (flood Node.StdoutData) (Some 0)
                Hout Htr Hnone flood_stdout_events)
      as [result [Hsettled Hresult]].
    exists result. split; [ | exact Hresult].
    apply (foreground_outcome "build" stderrFirst).
    unfold stderrFirst. rewrite deliver_app. exact Hsettled.
  - destruct (one_piece_then_close "build" _ overflowing (Some 0) Hout Hnone)
      as [result [Hsettled Hresult]].
    { rewrite overflowing_length. lia. }
    exists result. split; [ | exact Hresult].
    apply (foreground_outcome "build" stderrFirstOnePiece).
    unfold stderrFirstOnePiece. rewrite deliver_app. exact Hsettled.
Qed.

End ExecClaims.

(** ** The configuration *)

Module ConfigClaims.

(** The configuration of the README, as [JSON.parse] builds it. *)
Definition readmeJson : JsValue :=
  JsObject
    [ ("autorun_mode", JsObject
        [ ("enabled", JsBool true);
          ("allowlist", JsArray [JsString "ls"; JsString "echo"; JsString "cat"]);
          ("denylist",
            JsArray [JsString "rm"; JsString "git commit"; JsString "git push"]);
          ("allow_all_other_commands", JsBool false) ]) ].

Example safeParse_readme :
  Schema.safeParse readmeJson
  = Some {| autorun_mode :=
              {| enabled := true; allowlist := ["ls"; "echo"; "cat"];
                 denylist := ["rm"; "git commit"; "git push"];
                 allow_all_other_commands := false |} |}
  /\ Schema.safeParse (JsObject [("autorun_mode", JsObject [])]) = Some defaultConfig
  /\ Schema.safeParse (JsObject []) = None
  /\ Schema.safeParse
       (JsObject [("autorun_mode", JsObject [("enabled", JsString "yes")])]) = None
  /\ Schema.safeParse
       (JsObject [("autorun_mode", JsObject [("denylist", JsArray [JsNumber 1])])])
     = None.
Proof. repeat split; reflexivity. Qed.

(** A parser for the two texts of the example below: [{}] is the empty
    object and [not json] is no JSON text. *)
Definition sampleParser : JsonParser :=
  {| JSON_parse := fun text =>
       if String.eqb text "{}" then Some (JsObject []) else None |}.

Section WithParser.
Context {json : JsonParser}.

(** C10: a text that [JSON.parse] rejects, or whose value the schema
    rejects, leaves the active configuration as it was; and whenever
    [setConfigFromJson] changes the active configuration, the new one is the
    whole value the schema validated. *)
Theorem invalid_input_keeps_active_configuration
  (jsonString : string) (activeConfig : ApprovalConfig) :
  ((JSON_parse jsonString = None \/
    exists parsedJson, JSON_parse jsonString = Some parsedJson /\
                       Schema.safeParse parsedJson = None) ->
   setConfigFromJson jsonString activeConfig = activeConfig)
  /\
  (setConfigFromJson jsonString activeConfig = activeConfig \/
   exists parsedJson data,
     JSON_parse jsonString = Some parsedJson /\
     Schema.safeParse parsedJson = Some data /\
     setConfigFromJson jsonString activeConfig = data)
  /\
  loadConfigFromFile None activeConfig = activeConfig.
Proof.
  unfold setConfigFromJson. split; [ | split; [ | reflexivity]].
  - intros [Hparse | [parsedJson [Hparse Hschema]]]; rewrite Hparse.
    + reflexivity.
    + now rewrite Hschema.
  - destruct (JSON_parse jsonString) as [parsedJson|]; [ | now left].
    destruct (Schema.safeParse parsedJson) as [data|] eqn:Hschema; [ | now left].
    right. now exists parsedJson, data.
Qed.

End WithParser.

(** C10 at a text that is no JSON and at a JSON text the schema rejects. *)
Lemma invalid_input_keeps_active_configuration_witness :
  setConfigFromJson (json := sampleParser) "not json" PolicyClaims.rmDenied
  = PolicyClaims.rmDenied /\
  setConfigFromJson (json := sampleParser) "{}" PolicyClaims.rmDenied
  = PolicyClaims.rmDenied.
Proof.
  split.
  - exact (proj1 (invalid_input_keeps_active_configuration (json := sampleParser)
                    "not json" PolicyClaims.rmDenied) (or_introl eq_refl)).
  - exact (proj1 (invalid_input_keeps_active_configuration (json := sampleParser)
                    "{}" PolicyClaims.rmDenied)
             (or_intror (ex_intro _ (JsObject []) (conj eq_refl eq_refl)))).
Defined.

End ConfigClaims.

(** ** The session *)

Module RpcFacts.
Import Rpc.

Section WithNumbers.
Context {numbers : NumberFormat}.

(** *** The pending map *)

Lemma Map_get_In (id : string) (m : PendingMap) (p : PromiseRef) :
  Map_get id m = Some p -> In (id, p) m.
Proof.
  induction m as [|[k v] m IH]; simpl; [discriminate | ].
  destruct (String.eqb_spec k id) as [->|Hne].
  - intros [= ->]. now left.
  - intros H. right. now apply IH.
Qed.

Lemma In_Map_get (id : string) (m : PendingMap) (p : PromiseRef) :
  NoDup (map fst m) -> In (id, p) m -> Map_get id m = Some p.
Proof.
  induction m as [|[k v] m IH]; simpl; [intros _ [] | ].
  intros Hnd [Heq|Hin]; inversion Hnd as [|? ? Hk Hrest]; subst.
  - injection Heq as -> ->. now rewrite String.eqb_refl.
  - destruct (String.eqb_spec k id) as [->|Hne]; [ | now apply IH].
    exfalso. apply Hk. change id with (fst (id, p)). now apply in_map.
Qed.



Lemma Map_set_In (id : string) (p : PromiseRef) (m : PendingMap)
  (k : string) (v : PromiseRef) :
  In (k, v) (Map_set id p m) -> (k = id /\ v = p) \/ In (k, v) m.
Proof.
  induction m as [|[k' v'] m IH]; simpl.
  - intros [[= <- <-]|[]]. now left.
  - destruct (String.eqb_spec k' id) as [->|Hne]; simpl.
    + intros [[= <- <-]|Hin]; [now left | right; now right].
    + intros [Heq|Hin]; [right; now left | ].
      destruct (IH Hin) as [H|H]; [now left | right; now right].
Qed.

Lemma Map_set_keys (id : string) (p : PromiseRef) (m : PendingMap) :
  NoDup (map fst m) -> NoDup (map fst (Map_set id p m)).
Proof.
  induction m as [|[k v] m IH]; simpl; intros Hnd.
  - repeat constructor. intros [].
  - inversion Hnd as [|? ? Hk Hrest]; subst.
    destruct (String.eqb_spec k id) as [->|Hne]; simpl.
    + now constructor.
    + constructor; [ | now apply IH].
      intros Hin. apply in_map_iff in Hin. destruct Hin as [[k' v'] [Hfst Hin]].
      simpl in Hfst. subst k'. destruct (Map_set_In _ _ _ _ _ Hin) as [[-> _]|Hold].
      * congruence.
      * apply Hk. change k with (fst (k, v')). now apply in_map.
Qed.

Lemma Map_set_values (id : string) (p : PromiseRef) (m : PendingMap) :
  NoDup (map snd m) -> ~ In p (map snd m) -> NoDup (map snd (Map_set id p m)).
Proof.
  induction m as [|[k v] m IH]; simpl; intros Hnd Hp.
  - repeat constructor. intros [].
  - inversion Hnd as [|? ? Hv Hrest]; subst.
    destruct (String.eqb_spec k id) as [->|Hne]; simpl.
    + constructor; [tauto | exact Hrest].
    + constructor; [ | apply IH; tauto].
      intros Hin. apply in_map_iff in Hin. destruct Hin as [[k' v'] [Hsnd Hin]].
      simpl in Hsnd. subst v'. destruct (Map_set_In _ _ _ _ _ Hin) as [[_ ->]|Hold].
      * tauto.
      * apply Hv. change v with (snd (k', v)). now apply in_map.
Qed.

Lemma Map_delete_In (id : string) (m : PendingMap) (k : string) (v : PromiseRef) :
  In (k, v) (Map_delete id m) -> In (k, v) m.
Proof.
  induction m as [|[k' v'] m IH]; simpl; [tauto | ].
  destruct (String.eqb_spec k' id); simpl; [tauto | ].
  intros [H|H]; [now left | right; now apply IH].
Qed.

Lemma Map_delete_keys (id : string) (m : PendingMap) :
  NoDup (map fst m) -> NoDup (map fst (Map_delete id m)).
Proof.
  induction m as [|[k v] m IH]; simpl; intros Hnd; [constructor | ].
  inversion Hnd as [|? ? Hk Hrest]; subst.
  destruct (String.eqb_spec k id); simpl; [exact Hrest | ].
  constructor; [ | now apply IH].
  intros Hin. apply in_map_iff in Hin. destruct Hin as [[k' v'] [Hfst Hin]].
  simpl in Hfst. subst k'. apply Hk. change k with (fst (k, v')).
  apply in_map. eapply Map_delete_In; eassumption.
Qed.

Lemma Map_delete_values (id : string) (m : PendingMap) :
  NoDup (map snd m) -> NoDup (map snd (Map_delete id m)).
Proof.
  induction m as [|[k v] m IH]; simpl; intros Hnd; [constructor | ].
  inversion Hnd as [|? ? Hv Hrest]; subst.
  destruct (String.eqb_spec k id); simpl; [exact Hrest | ].
  constructor; [ | now apply IH].
  intros Hin. apply in_map_iff in Hin. destruct Hin as [[k' v'] [Hsnd Hin]].
  simpl in Hsnd. subst v'. apply Hv. change v with (snd (k', v)).
  apply in_map. eapply Map_delete_In; eassumption.
Qed.

Lemma Map_delete_value_gone (id : string) (m : PendingMap) (p : PromiseRef) :
  NoDup (map snd m) -> Map_get id m = Some p ->
  ~ In p (map snd (Map_delete id m)).
Proof.
  induction m as [|[k v] m IH]; simpl; [discriminate | ].
  intros Hnd Hget. inversion Hnd as [|? ? Hv Hrest]; subst.
  destruct (String.eqb_spec k id) as [->|Hne].
  - injection Hget as ->. exact Hv.
  - simpl. intros [->|Hin].
    + apply Hv. change p with (snd (id, p)). apply in_map. now apply Map_get_In.
    + now apply (IH Hrest Hget).
Qed.

Lemma Map_get_delete_same (id : string) (m : PendingMap) :
  NoDup (map fst m) -> Map_get id (Map_delete id m) = None.
Proof.
  induction m as [|[k v] m IH]; simpl; intros Hnd; [reflexivity | ].
  inversion Hnd as [|? ? Hk Hrest]; subst.
  destruct (String.eqb_spec k id) as [->|Hne]; simpl.
  - destruct (Map_get id m) as [p|] eqn:Hget; [ | reflexivity].
    exfalso. apply Hk. change id with (fst (id, p)). apply in_map.
    now apply Map_get_In.
  - destruct (String.eqb_spec k id); [contradiction | now apply IH].
Qed.


(** *** The record of settlements *)

Definition settledIn (p : PromiseRef) (c : RpcClient) : Prop :=
  In p (map fst (settlements c)).

Lemma log_absent (p : PromiseRef) (l : list (PromiseRef * Settlement)) :
  ~ In p (map fst l) ->
  find (fun e => Nat.eqb (fst e) p) l = None /\
  filter (fun e => Nat.eqb (fst e) p) l = [].
Proof.
  induction l as [|[q how] l IH]; simpl; [auto | ].
  intros Hnot. destruct (Nat.eqb_spec q p) as [->|Hne]; [tauto | ].
  apply IH. tauto.
Qed.

Lemma log_once (p : PromiseRef) (how : Settlement)
  (l : list (PromiseRef * Settlement)) :
  NoDup (map fst l) -> In (p, how) l ->
  find (fun e => Nat.eqb (fst e) p) l = Some (p, how) /\
  filter (fun e => Nat.eqb (fst e) p) l = [(p, how)].
Proof.
  induction l as [|[q how'] l IH]; simpl; [intros _ [] | ].
  intros Hnd Hin. inversion Hnd as [|? ? Hq Hrest]; subst.
  destruct Hin as [[= -> ->]|Hin].
  - rewrite Nat.eqb_refl. split; [reflexivity | ].
    now rewrite (proj2 (log_absent p l Hq)).
  - destruct (Nat.eqb_spec q p) as [->|Hne]; [ | now apply IH].
    exfalso. apply Hq. change p with (fst (p, how)). now apply in_map.
Qed.

Lemma unsettled_state (p : PromiseRef) (c : RpcClient) :
  ~ settledIn p c -> stateOf p c = None /\ timesSettled p c = 0%nat.
Proof.
  intros H. unfold stateOf, timesSettled.
  destruct (log_absent p (settlements c) H) as [-> ->]. auto.
Qed.

Lemma settled_once_state (p : PromiseRef) (how : Settlement) (c : RpcClient) :
  NoDup (map fst (settlements c)) -> In (p, how) (settlements c) ->
  stateOf p c = Some how /\ timesSettled p c = 1%nat.
Proof.
  intros Hnd Hin. unfold stateOf, timesSettled.
  destruct (log_once p how (settlements c) Hnd Hin) as [-> ->]. auto.
Qed.

(** *** The invariant of a session *)

Record wellFormed (c : RpcClient) : Prop := {
  wf_keys : NoDup (map fst (pending c));
  wf_callbacks : NoDup (map snd (pending c));
  wf_pending : forall id p, In (id, p) (pending c) ->
    (p < nextPromise c)%nat /\ ~ settledIn p c;
  wf_resolvers : resolveInitialize c = initializePromise c /\
                 rejectInitialize c = initializePromise c;
  wf_initialize : forall q, initializePromise c = Some q ->
    (q < nextPromise c)%nat /\ ~ settledIn q c /\ ~ In q (map snd (pending c));
  wf_allocated : forall p, settledIn p c -> (p < nextPromise c)%nat;
  wf_once : NoDup (map fst (settlements c))
}.

Lemma wf_create : wellFormed create.
Proof.
  split; simpl; try constructor; try tauto; try discriminate.
  unfold settledIn. simpl. tauto.
Qed.

Lemma NoDup_snoc {A : Type} (l : list A) (x : A) :
  NoDup l -> ~ In x l -> NoDup (l ++ [x]).
Proof.
  intros Hnd Hx. induction Hnd as [|y l Hy Hnd IH]; simpl.
  - repeat constructor. intros [].
  - constructor; [ | apply IH; simpl in Hx; tauto].
    rewrite in_app_iff. simpl in *. intuition congruence.
Qed.

(** Settling a promise that is allocated, unsettled and kept by no field. *)
Lemma wf_settle (p : PromiseRef) (how : Settlement) (c : RpcClient) :
  wellFormed c ->
  (p < nextPromise c)%nat -> ~ settledIn p c ->
  ~ In p (map snd (pending c)) -> initializePromise c <> Some p ->
  wellFormed (settle p how c).
Proof.
  intros [Hk Hc Hp Hr Hi Ha Ho] Hlt Hun Hnp Hni.
  unfold settledIn in *. split; cbn [settle pending initializePromise
    resolveInitialize rejectInitialize settlements nextPromise]; auto.
  - intros id q Hin. destruct (Hp id q Hin) as [Hq Hqs]. split; [exact Hq | ].
    unfold settledIn. cbn [settle settlements]. rewrite map_app, in_app_iff. simpl.
    intros [H|[<-|[]]]; [tauto | ].
    apply Hnp. change p with (snd (id, p)). now apply in_map.
  - intros q Hq. destruct (Hi q Hq) as [Hlq [Hqs Hqp]]. repeat split; auto.
    unfold settledIn. cbn [settle settlements]. rewrite map_app, in_app_iff. simpl.
    intros [H|[<-|[]]]; [tauto | congruence].
  - intros q. unfold settledIn. cbn [settle settlements].
    rewrite map_app, in_app_iff. simpl. intros [H|[<-|[]]]; auto.
  - rewrite map_app. simpl. now apply NoDup_snoc.
Qed.

Lemma wf_setPending (m : PendingMap) (c : RpcClient) :
  wellFormed c ->
  NoDup (map fst m) -> NoDup (map snd m) ->
  (forall id p, In (id, p) m -> (p < nextPromise c)%nat /\ ~ settledIn p c) ->
  (forall q, initializePromise c = Some q -> ~ In q (map snd m)) ->
  wellFormed (setPending m c).
Proof.
  intros [Hk Hc Hp Hr Hi Ha Ho] Hmk Hmv Hm Hq.
  split; cbn [setPending pending initializePromise resolveInitialize
    rejectInitialize settlements nextPromise]; auto.
  intros q Hinit. destruct (Hi q Hinit) as [Hlq [Hqs _]]. repeat split; auto.
Qed.

Lemma wf_send (message : JsFields) (c : RpcClient) :
  wellFormed c -> wellFormed (send message c).
Proof. intros [Hk Hc Hp Hr Hi Ha Ho]. split; auto. Qed.

Lemma wf_setInitialize_None (c : RpcClient) :
  wellFormed c -> wellFormed (setInitialize None c).
Proof.
  intros [Hk Hc Hp Hr Hi Ha Ho].
  split; cbn [setInitialize pending initializePromise resolveInitialize
    rejectInitialize settlements nextPromise]; auto.
  discriminate.
Qed.

(** The handshake promise is settled and forgotten in one go. *)
Lemma wf_settle_initialize (q : PromiseRef) (how : Settlement) (c : RpcClient) :
  wellFormed c -> initializePromise c = Some q ->
  wellFormed (setInitialize None (settle q how c)).
Proof.
  intros [Hk Hc Hp Hr Hi Ha Ho] Hq. destruct (Hi q Hq) as [Hlq [Hqs Hqp]].
  unfold settledIn in *.
  split; cbn [setInitialize settle pending initializePromise resolveInitialize
    rejectInitialize settlements nextPromise]; auto.
  - intros id p Hin. destruct (Hp id p Hin) as [Hlt Hps]. split; [exact Hlt | ].
    unfold settledIn. cbn [setInitialize settle settlements].
    rewrite map_app, in_app_iff. simpl. intros [H|[<-|[]]]; [tauto | ].
    apply Hqp. change q with (snd (id, q)). now apply in_map.
  - discriminate.
  - intros p. unfold settledIn. cbn [setInitialize settle settlements].
    rewrite map_app, in_app_iff. simpl. intros [H|[<-|[]]]; auto.
  - rewrite map_app. simpl. now apply NoDup_snoc.
Qed.

Lemma wf_newPromise (c : RpcClient) :
  wellFormed c ->
  wellFormed (snd (newPromise c)) /\
  ~ settledIn (nextPromise c) (snd (newPromise c)) /\
  ~ In (nextPromise c) (map snd (pending c)) /\
  initializePromise c <> Some (nextPromise c).
Proof.
  intros [Hk Hc Hp Hr Hi Ha Ho]. unfold settledIn in *.
  repeat split; cbn [newPromise snd pending initializePromise resolveInitialize
    rejectInitialize settlements nextPromise]; auto; try tauto.
  - destruct (Hp id p H). lia.
  - now destruct (Hp id p H).
  - destruct (Hi q H) as [? _]. lia.
  - now destruct (Hi q H) as [_ [? _]].
  - now destruct (Hi q H) as [_ [_ ?]].
  - intros p Hs. specialize (Ha p Hs). lia.
  - intros Hs. specialize (Ha _ Hs). lia.
  - intros Hin. apply in_map_iff in Hin. destruct Hin as [[id p] [Heq Hin]].
    simpl in Heq. subst p. destruct (Hp id _ Hin). lia.
  - intros Hq. destruct (Hi _ Hq). lia.
Qed.

Lemma wf_setInitialize_Some (p : PromiseRef) (c : RpcClient) :
  wellFormed c ->
  (p < nextPromise c)%nat -> ~ settledIn p c -> ~ In p (map snd (pending c)) ->
  wellFormed (setInitialize (Some p) c).
Proof.
  intros [Hk Hc Hp Hr Hi Ha Ho] Hlt Hun Hnp.
  split; cbn [setInitialize pending initializePromise resolveInitialize
    rejectInitialize settlements nextPromise]; auto.
  intros q [= <-]. auto.
Qed.

Lemma wf_performHandshake (clientName clientVersion : string) (c : RpcClient) :
  wellFormed c -> wellFormed (snd (performHandshake clientName clientVersion c)).
Proof.
  intros Hwf. unfold performHandshake.
  destruct (initializePromise c) as [p|] eqn:Hinit; [exact Hwf | ].
  destruct (wf_newPromise c Hwf) as [Hwf1 [Hun [Hnp _]]].
  cbn [newPromise snd] in *.
  apply wf_setInitialize_Some; [now apply wf_send | cbn; lia | exact Hun | exact Hnp].
Qed.

Lemma wf_call (id method : string) (params : JsValue) (c : RpcClient) :
  wellFormed c -> wellFormed (snd (call id method params c)).
Proof.
  intros Hwf. unfold call.
  destruct (wf_newPromise c Hwf) as [Hwf1 [Hun [Hnp Hni]]].
  cbn [newPromise snd] in *. apply wf_send.
  set (c1 := snd (newPromise c)) in *.
  apply wf_setPending; [exact Hwf1 | | | | ].
  - apply Map_set_keys, Hwf.
  - apply Map_set_values; [apply Hwf | exact Hnp].
  - intros k v Hin. destruct (Map_set_In _ _ _ _ _ Hin) as [[_ ->]|Hold].
    + split; [cbn; lia | exact Hun].
    + exact (wf_pending c1 Hwf1 k v Hold).
  - intros q Hq Hin. apply in_map_iff in Hin.
    destruct Hin as [[k v] [Hsnd Hin]]. simpl in Hsnd. subst v.
    destruct (Map_set_In _ _ _ _ _ Hin) as [[_ ->]|Hold].
    + now apply Hni.
    + destruct (wf_initialize c Hwf q Hq) as [_ [_ Hnot]]. apply Hnot.
      change q with (snd (k, q)). now apply in_map.
Qed.

Lemma pendingFor_get (m : JsFields) (c : RpcClient) (id : string) (p : PromiseRef) :
  pendingFor m c = Some (id, p) ->
  Value.field "id" m = JsString id /\ Map_get id (pending c) = Some p.
Proof.
  unfold pendingFor. destruct (Value.has "id" m); [ | discriminate].
  destruct (Value.field "id" m) as [| |b|n|k|items|fields]; try discriminate.
  destruct (Map_get k (pending c)) as [q|] eqn:Hget; [ | discriminate].
  intros [= <- <-]. auto.
Qed.

Lemma wf_handle (m : JsFields) (c : RpcClient) :
  wellFormed c -> wellFormed (handle m c).
Proof.
  intros Hwf. unfold handle. destruct (closed c); [exact Hwf | ].
  destruct (isInitializeId m).
  - destruct (wf_resolvers c Hwf) as [Hres Hrej]. rewrite Hres, Hrej.
    assert (Hrejected :
      wellFormed
        match (if Value.truthy (Value.field "error" m)
               then initializePromise c else None) with
        | Some p =>
            match errorText "Initialize failed: " (Value.field "error" m) with
            | Some text => setInitialize None (settle p (Failed text) c)
            | None => c
            end
        | None => setInitialize None c
        end).
    { destruct (Value.truthy (Value.field "error" m));
        [ | now apply wf_setInitialize_None].
      destruct (initializePromise c) as [q|] eqn:Hq;
        [ | now apply wf_setInitialize_None].
      destruct (errorText _ _); [now apply wf_settle_initialize | exact Hwf]. }
    destruct (Value.truthy (Value.field "result" m)); [ | exact Hrejected].
    destruct (initializePromise c) as [q|] eqn:Hq;
      [now apply wf_settle_initialize | exact Hrejected].
  - destruct (pendingFor m c) as [[id p]|] eqn:Hfor; [ | exact Hwf].
    destruct (pendingFor_get m c id p Hfor) as [_ Hget].
    pose proof (Map_get_In id _ p Hget) as Hin.
    destruct (wf_pending c Hwf id p Hin) as [Hlt Hun].
    assert (Hwf1 : wellFormed (setPending (Map_delete id (pending c)) c)).
    { apply wf_setPending; [exact Hwf | | | | ].
      - apply Map_delete_keys, Hwf.
      - apply Map_delete_values, Hwf.
      - intros k v Hkv. apply (wf_pending c Hwf k v). eapply Map_delete_In, Hkv.
      - intros q Hq Hqin. destruct (wf_initialize c Hwf q Hq) as [_ [_ Hnot]].
        apply Hnot. apply in_map_iff in Hqin.
        destruct Hqin as [[k v] [Hsnd Hkv]]. simpl in Hsnd. subst v.
        change q with (snd (k, q)). apply in_map. eapply Map_delete_In, Hkv. }
    assert (Hsettle : forall how,
      wellFormed (settle p how (setPending (Map_delete id (pending c)) c))).
    { intros how. apply wf_settle; [exact Hwf1 | exact Hlt | exact Hun | | ].
      - apply Map_delete_value_gone; [apply Hwf | exact Hget].
      - cbn [setPending initializePromise]. intros Hq.
        destruct (wf_initialize c Hwf p Hq) as [_ [_ Hnot]]. apply Hnot.
        change p with (snd (id, p)). now apply in_map. }
    unfold callback. destruct (Value.truthy _); [ | apply Hsettle].
    destruct (errorText _ _); [apply Hsettle | exact Hwf1].
Qed.

(** *** Closing *)

Definition closedError : string :=
  "RPC Error: Client connection closed (Code: -32000)".

Definition handshakeClosed : string :=
  "Client connection closed during handshake".

(** What [close] settles: the callbacks of the pending map in its order, then
    the handshake in flight. *)
Definition closeSettlements (c : RpcClient) : list (PromiseRef * Settlement) :=
  map (fun entry => (snd entry, Failed closedError)) (pending c)
  ++ match rejectInitialize c with
     | Some q => [(q, Failed handshakeClosed)]
     | None => []
     end.

Definition settleAll (l : list (PromiseRef * Settlement)) (c : RpcClient)
  : RpcClient :=
  {| pending := pending c; initializePromise := initializePromise c;
     resolveInitialize := resolveInitialize c;
     rejectInitialize := rejectInitialize c; closed := closed c;
     sent := sent c; transportCloses := transportCloses c;
     settlements := settlements c ++ l; nextPromise := nextPromise c |}.

Lemma callback_closedResponse (p : PromiseRef) (id : string) (c : RpcClient) :
  callback p (closedResponse id) c = settle p (Failed closedError) c.
Proof. reflexivity. Qed.

Lemma failAll_settleAll (entries : PendingMap) (c : RpcClient) :
  failAll entries c
  = settleAll (map (fun entry => (snd entry, Failed closedError)) entries) c.
Proof.
  unfold failAll. revert c. induction entries as [|[id p] entries IH]; intros c.
  - destruct c. unfold settleAll. simpl. now rewrite app_nil_r.
  - cbn [fold_left map fst snd]. rewrite callback_closedResponse, IH.
    unfold settleAll, settle. cbn. now rewrite <- app_assoc.
Qed.

Lemma close_open (c : RpcClient) :
  closed c = false ->
  close c
  = {| pending := [];
       initializePromise :=
         match rejectInitialize c with Some _ => None | None => initializePromise c end;
       resolveInitialize :=
         match rejectInitialize c with Some _ => None | None => resolveInitialize c end;
       rejectInitialize := None;
       closed := true;
       sent := sent c;
       transportCloses := S (transportCloses c);
       settlements := settlements c ++ closeSettlements c;
       nextPromise := nextPromise c |}.
Proof.
  intros Hopen. unfold close. rewrite Hopen. cbn [pending].
  rewrite failAll_settleAll. unfold closeSettlements.
  cbn [setPending settleAll rejectInitialize].
  destruct (rejectInitialize c) as [q|] eqn:Hq.
  - unfold setInitialize, settle. cbn. now rewrite <- app_assoc.
  - cbn. now rewrite app_nil_r.
Qed.

Lemma wf_close (c : RpcClient) : wellFormed c -> wellFormed (close c).
Proof.
  intros Hwf. destruct (closed c) eqn:Hclosed.
  - unfold close. now rewrite Hclosed.
  - rewrite (close_open c Hclosed).
    destruct Hwf as [Hk Hc Hp [Hres Hrej] Hi Ha Ho]. unfold settledIn in *.
    assert (Hfst : map fst (map (fun entry : string * PromiseRef =>
                     (snd entry, Failed closedError)) (pending c))
                   = map snd (pending c))
      by (rewrite map_map; reflexivity).
    split; cbn [pending initializePromise resolveInitialize rejectInitialize
      settlements nextPromise].
    + constructor.
    + constructor.
    + intros id p [].
    + rewrite Hrej, Hres. destruct (initializePromise c); auto.
    + rewrite Hrej. destruct (initializePromise c); discriminate.
    + intros p. unfold settledIn, closeSettlements. cbn [settlements].
      rewrite !map_app, !in_app_iff, Hfst. intros [H|[H|H]].
      * now apply Ha.
      * apply in_map_iff in H. destruct H as [[id q] [Heq Hin]]. simpl in Heq.
        subst q. now destruct (Hp id p Hin).
      * rewrite Hrej in H. destruct (initializePromise c) as [q|] eqn:Hq;
          simpl in H; [ | tauto]. destruct H as [<-|[]]. now destruct (Hi q eq_refl).
    + unfold closeSettlements. rewrite !map_app, Hfst.
      apply NoDup_app; [exact Ho | | ].
      * apply NoDup_app; [exact Hc | | ].
        -- rewrite Hrej. destruct (initializePromise c); simpl;
             repeat constructor; intros [].
        -- intros p Hin. rewrite Hrej.
           destruct (initializePromise c) as [q|] eqn:Hq; simpl; [ | tauto].
           intros [<-|[]]. now destruct (Hi q eq_refl) as [_ [_ Hnot]].
      * intros p Hold. rewrite in_app_iff. intros [Hin|Hin].
        -- apply in_map_iff in Hin. destruct Hin as [[id q] [Heq Hin]].
           simpl in Heq. subst q. now destruct (Hp id p Hin).
        -- rewrite Hrej in Hin. destruct (initializePromise c) as [q|] eqn:Hq;
             simpl in Hin; [ | tauto]. destruct Hin as [<-|[]].
           now destruct (Hi q eq_refl) as [_ [Hnot _]].
Qed.

(** The states a session reaches. *)
Inductive reachable : RpcClient -> Prop :=
| reachable_create : reachable create
| reachable_step (c : RpcClient) (op : Op) :
    reachable c -> reachable (step c op).

Lemma wf_step (c : RpcClient) (op : Op) : wellFormed c -> wellFormed (step c op).
Proof.
  intros Hwf. destruct op as [n v|id method params|m| ]; cbn [step].
  - now apply wf_performHandshake.
  - now apply wf_call.
  - now apply wf_handle.
  - now apply wf_close.
Qed.

Lemma reachable_wellFormed (c : RpcClient) : reachable c -> wellFormed c.
Proof.
  induction 1 as [|c op _ IH]; [exact wf_create | now apply wf_step].
Qed.

Lemma reachable_steps (ops : list Op) (c : RpcClient) :
  reachable c -> reachable (steps ops c).
Proof.
  revert c. induction ops as [|op ops IH]; intros c Hc; [exact Hc | ].
  apply IH. now constructor.
Qed.

End WithNumbers.

End RpcFacts.

Module RpcClaims.
Import Rpc RpcFacts.
#[local] Open Scope list_scope.

Section WithNumbers.
Context {numbers : NumberFormat}.

(** *** Closing the session *)

Lemma handle_closed (m : JsFields) (c : RpcClient) :
  closed c = true -> handle m c = c.
Proof. intros H. unfold handle. now rewrite H. Qed.

Lemma close_closed (c : RpcClient) : closed c = true -> close c = c.
Proof. intros H. unfold close. now rewrite H. Qed.

(** C7, amended: [close] on an open session sets the closed flag, closes the
    transport once and settles exactly once every promise that is still
    pending: each call is rejected through the synthetic response of code
    -32000, the handshake in flight is rejected with the error [Client
    connection closed during handshake], which carries no code.  Inbound
    messages are ignored afterwards and a second [close] changes nothing. *)
Theorem close_settles_every_pending_promise_once (c : RpcClient) :
  reachable c -> closed c = false ->
  let c' := close c in
  (closed c' = true /\ transportCloses c' = S (transportCloses c) /\
   pending c' = [] /\ initializePromise c' = None /\ rejectInitialize c' = None)
  /\
  (forall id p, Map_get id (pending c) = Some p ->
     stateOf p c = None /\
     stateOf p c' = Some (Failed "RPC Error: Client connection closed (Code: -32000)") /\
     timesSettled p c' = 1%nat)
  /\
  (forall q, initializePromise c = Some q ->
     stateOf q c = None /\
     stateOf q c' = Some (Failed "Client connection closed during handshake") /\
     timesSettled q c' = 1%nat)
  /\
  (forall m, handle m c' = c')
  /\
  close c' = c'.
Proof.
  intros Hreach Hopen c'.
  pose proof (reachable_wellFormed c Hreach) as Hwf.
  pose proof (wf_close c Hwf) as Hwf'. fold c' in Hwf'.
  pose proof (close_open c Hopen) as Heq. fold c' in Heq.
  assert (Hflag : closed c' = true) by (rewrite Heq; reflexivity).
  assert (Hlog : settlements c' = settlements c ++ closeSettlements c)
    by (rewrite Heq; reflexivity).
  destruct (wf_resolvers c Hwf) as [_ Hrej].
  split; [ | split; [ | split; [ | split]]].
  - rewrite Heq. cbn. rewrite Hrej. destruct (initializePromise c); auto.
  - intros id p Hget. apply Map_get_In in Hget.
    destruct (wf_pending c Hwf id p Hget) as [_ Hun].
    split; [now apply unsettled_state | ].
    apply (settled_once_state p (Failed closedError) c' (wf_once c' Hwf')).
    rewrite Hlog. apply in_or_app. right. unfold closeSettlements.
    apply in_or_app. left.
    change (p, Failed closedError)
      with ((fun entry : string * PromiseRef => (snd entry, Failed closedError)) (id, p)).
    now apply in_map.
  - intros q Hq. destruct (wf_initialize c Hwf q Hq) as [_ [Hun _]].
    split; [now apply unsettled_state | ].
    apply (settled_once_state q (Failed handshakeClosed) c' (wf_once c' Hwf')).
    rewrite Hlog. apply in_or_app. right. unfold closeSettlements.
    apply in_or_app. right. rewrite Hrej, Hq. now left.
  - intros m. now apply handle_closed.
  - now apply close_closed.
Qed.

(** *** Calls *)


(** The call [id] is registered with promise [p] on an open session. *)
Record awaits (id : string) (p : PromiseRef) (c : RpcClient) : Prop := {
  awaits_wf : wellFormed c;
  awaits_open : closed c = false;
  awaits_entry : Map_get id (pending c) = Some p
}.

Lemma field_has (key : string) (m : JsFields) (s : string) :
  Value.field key m = JsString s -> Value.has key m = true.
Proof.
  unfold Value.field, Value.has.
  induction m as [|[k v] m IH]; simpl; [discriminate | ].
  destruct (String.eqb k key); simpl; auto.
Qed.




(** The answer removes the entry and settles the promise, unless the text
    of its error cannot be built. *)
Lemma awaits_answer (id : string) (p : PromiseRef) (c : RpcClient) (m : JsFields) :
  awaits id p c -> id <> INITIALIZE_ID -> Value.field "id" m = JsString id ->
  handle m c = callback p m (setPending (Map_delete id (pending c)) c).
Proof.
  intros [Hwf Hopen Hget] Hne Hid. unfold handle. rewrite Hopen.
  unfold isInitializeId, pendingFor. rewrite (field_has "id" m id Hid), Hid, Hget.
  destruct (String.eqb_spec id INITIALIZE_ID) as [->|_]; [congruence | ].
  reflexivity.
Qed.









(** *** The handshake *)

(** The operations during which a handshake stays in flight, that is from
    its request until a message with the reserved identifier arrives or the
    session is closed. *)
Definition quiet (op : Op) : Prop :=
  match op with
  | OpHandshake _ _ => True
  | OpCall _ _ _ => True
  | OpMessage m => isInitializeId m = false
  | OpClose => False
  end.

(** The requests the calls among the operations send. *)
Definition callRequests (ops : list Op) : list JsFields :=
  flat_map (fun op =>
              match op with
              | OpCall id method params => [callRequest id method params]
              | _ => []
              end) ops.

Lemma in_flight_step (p : PromiseRef) (c : RpcClient) (op : Op) :
  initializePromise c = Some p -> quiet op ->
  initializePromise (step c op) = Some p /\
  sent (step c op) = sent c ++ callRequests [op].
Proof.
  intros Hp Hop. destruct op as [n v|id method params|m| ];
    cbn [step quiet callRequests flat_map app] in *; try contradiction.
  - unfold performHandshake. rewrite Hp. cbn [snd]. now rewrite app_nil_r.
  - cbn [call newPromise snd send setPending initializePromise sent]. auto.
  - rewrite app_nil_r. unfold handle. destruct (closed c); [auto | ].
    rewrite Hop. destruct (pendingFor m c) as [[k q]|]; [ | auto].
    unfold callback. destruct (Value.truthy _); [destruct (errorText _ _) | ]; auto.
Qed.

Lemma in_flight_steps (p : PromiseRef) (ops : list Op) (c : RpcClient) :
  initializePromise c = Some p -> Forall quiet ops ->
  initializePromise (steps ops c) = Some p /\
  sent (steps ops c) = sent c ++ callRequests ops.
Proof.
  intros Hp Hops. revert c Hp.
  induction Hops as [|op ops Hop _ IH]; intros c Hp.
  - cbn. now rewrite app_nil_r.
  - destruct (in_flight_step p c op Hp Hop) as [Hp1 Hsent1].
    destruct (IH (step c op) Hp1) as [Hp2 Hsent2].
    change (steps (op :: ops) c) with (steps ops (step c op)).
    split; [exact Hp2 | ]. rewrite Hsent2, Hsent1.
    assert (Hsplit : callRequests (op :: ops) = callRequests [op] ++ callRequests ops)
      by (unfold callRequests; cbn [flat_map]; now rewrite app_nil_r).
    now rewrite Hsplit, app_assoc.
Qed.

(** The handshake is shared (C9 for as long as no message with the reserved
    identifier arrives and the session is not closed): the first
    [performHandshake] sends one [initialize] request; for as
    long as the handshake is in flight, every further [performHandshake]
    returns the same pending promise, sends nothing and leaves the session as
    it is, so the only requests sent meanwhile are those of the calls. *)
Theorem handshake_is_shared_while_in_flight
  (c : RpcClient) (clientName clientVersion : string) (ops : list Op) :
  reachable c -> initializePromise c = None -> Forall quiet ops ->
  let p := fst (performHandshake clientName clientVersion c) in
  let c1 := snd (performHandshake clientName clientVersion c) in
  let c2 := steps ops c1 in
  sent c1 = sent c ++ [initializeRequest clientName clientVersion] /\
  sent c2 = sent c1 ++ callRequests ops /\
  initializePromise c2 = Some p /\
  stateOf p c2 = None /\
  forall name version, performHandshake name version c2 = (p, c2).
Proof.
  intros Hreach Hnone Hops p c1 c2.
  assert (Hp : initializePromise c1 = Some p).
  { subst p c1. unfold performHandshake. rewrite Hnone. reflexivity. }
  destruct (in_flight_steps p ops c1 Hp Hops) as [Hp2 Hsent]. fold c2 in Hp2, Hsent.
  assert (Hreach2 : reachable c2).
  { apply reachable_steps.
    exact (reachable_step c (OpHandshake clientName clientVersion) Hreach). }
  destruct (wf_initialize c2 (reachable_wellFormed c2 Hreach2) p Hp2) as [_ [Hun _]].
  split; [ | split; [exact Hsent | split; [exact Hp2 | split]]].
  - subst c1. unfold performHandshake. rewrite Hnone. reflexivity.
  - now apply unsettled_state.
  - intros name version. unfold performHandshake. now rewrite Hp2.
Qed.

End WithNumbers.

(** *** The examples *)

#[local] Existing Instance decimalNumbers.

(** A session with a handshake in flight (promise 0) and one call pending
    (promise 1). *)
Definition busy : RpcClient :=
  steps [ OpHandshake "mcp-cli-client" "0.2.0";
          OpCall "7f" "tools/call" (JsObject []) ] create.

Lemma busy_reachable : reachable busy.
Proof. apply reachable_steps, reachable_create. Qed.

(** C7 at [busy]. *)
Lemma close_settles_every_pending_promise_once_witness :
  closed (close busy) = true /\
  stateOf 1%nat (close busy)
  = Some (Failed "RPC Error: Client connection closed (Code: -32000)") /\
  timesSettled 1%nat (close busy) = 1%nat /\
  stateOf 0%nat (close busy)
  = Some (Failed "Client connection closed during handshake") /\
  timesSettled 0%nat (close busy) = 1%nat /\
  close (close busy) = close busy.
Proof.
  destruct (close_settles_every_pending_promise_once busy busy_reachable eq_refl)
    as [[Hflag _] [Hcalls [Hinit [_ Hagain]]]].
  destruct (Hcalls "7f"%string 1%nat eq_refl) as [_ [Hcall Honce]].
  destruct (Hinit 0%nat eq_refl) as [_ [Hshake Hshake_once]].
  exact (conj Hflag (conj Hcall (conj Honce (conj Hshake (conj Hshake_once Hagain))))).
Defined.

(** C7 as stated fails for the handshake: [close] rejects it with an error
    that carries no code, while the pending call gets the code -32000. *)
Lemma handshake_is_rejected_without_code :
  stateOf 0%nat (close busy)
  = Some (Failed "Client connection closed during handshake") /\
  Js.includes "Client connection closed during handshake" "32000" = false /\
  stateOf 1%nat (close busy)
  = Some (Failed "RPC Error: Client connection closed (Code: -32000)").
Proof. repeat split; reflexivity. Qed.

(** The answers of a server to the call [7f]. *)
Definition toolsResult : JsValue := JsObject [("tools", JsArray [])].

Definition resultResponse : JsFields :=
  [ ("jsonrpc", JsString "2.0"); ("id", JsString "7f"); ("result", toolsResult) ].


Definition meanwhile : list Op :=
  [ OpHandshake "mcp-cli-client" "0.2.0";
    OpMessage [ ("jsonrpc", JsString "2.0"); ("id", JsString "other");
                ("result", JsNull) ];
    OpCall "80" "ping" JsNull ].

Lemma meanwhile_quiet : Forall quiet meanwhile.
Proof. repeat constructor. Qed.





(** The shared handshake at a fresh session: a second handshake, issued
    after other traffic, returns the promise of the first and sends nothing. *)
Lemma handshake_is_shared_while_in_flight_witness :
  let c1 := snd (performHandshake "mcp-cli-client" "0.2.0" create) in
  let c2 := steps meanwhile c1 in
  sent c1 = [initializeRequest "mcp-cli-client" "0.2.0"] /\
  sent c2 = [initializeRequest "mcp-cli-client" "0.2.0";
             callRequest "80" "ping" JsNull] /\
  stateOf 0%nat c2 = None /\
  performHandshake "other-client" "9.9" c2 = (0%nat, c2).
Proof.
  destruct (handshake_is_shared_while_in_flight create "mcp-cli-client" "0.2.0"
              meanwhile reachable_create eq_refl meanwhile_quiet)
    as [Hfirst [Hsent [_ [Hpending Hshared]]]].
  exact (conj Hfirst (conj Hsent (conj Hpending (Hshared "other-client"%string "9.9"%string)))).
Defined.

(** A response to the handshake that carries neither a result nor an error. *)
Definition nullResult : JsFields :=
  [ ("jsonrpc", JsString "2.0"); ("id", JsString INITIALIZE_ID);
    ("result", JsNull) ].

(** C9 fails once such a response arrives before the handshake completes:
    [handle] forgets the handshake without settling it, so the promise of
    the first [performHandshake] is still pending when the next
    [performHandshake] makes a second promise and sends [initialize] again;
    two handshakes are then in flight and neither shares the outcome of the
    other. *)
Lemma abandoned_handshake_is_started_again :
  let first := performHandshake "mcp-cli-client" "0.2.0" create in
  let c1 := handle nullResult (snd first) in
  let second := performHandshake "mcp-cli-client" "0.2.0" c1 in
  fst first = 0%nat /\
  stateOf 0%nat c1 = None /\
  initializePromise c1 = None /\
  fst second = 1%nat /\
  stateOf 0%nat (snd second) = None /\
  stateOf 1%nat (snd second) = None /\
  sent (snd second) = [ initializeRequest "mcp-cli-client" "0.2.0";
                        initializeRequest "mcp-cli-client" "0.2.0" ].
Proof. repeat split; reflexivity. Qed.

End RpcClaims.

(** * Further properties of the policy, the engine and the session *)

(** ** The policy beyond the denylist *)

Module PolicyLaws.

Section WithEngine.
Context {engine : RegExpEngine}.

(** [shouldAutoApproveCommand] in closed form, once the denylist loop has
    answered. *)
Lemma shouldAutoApproveCommand_answer (cfg : ApprovalConfig) (command : string)
  (denied : bool) :
  deniedByWord (denylist (autorun_mode cfg)) command = Ok denied ->
  Config.shouldAutoApproveCommand cfg command
  = Ok (enabled (autorun_mode cfg) && negb denied &&
        (allow_all_other_commands (autorun_mode cfg) ||
         existsb (fun allowedPattern => Js.includes command allowedPattern)
                 (allowlist (autorun_mode cfg)))).
Proof.
  intros Hloop. unfold Config.shouldAutoApproveCommand. cbv zeta.
  destruct (enabled (autorun_mode cfg)); [ | reflexivity].
  rewrite Hloop. cbn [negb bind andb].
  destruct denied; [reflexivity | ]. cbn [negb].
  destruct (allow_all_other_commands (autorun_mode cfg)); [reflexivity | ].
  cbn [orb]. now destruct (existsb _ _).
Qed.

(** The two revisions of [config.ts] test [allow_all_other_commands] and the
    allowlist in opposite orders.  The order has no effect: on a command for
    which the word test and the substring test of the denylist give the same
    answer, the two revisions of [shouldAutoApproveCommand] agree. *)
Theorem revisions_agree_up_to_the_denylist_test
  (cfg : ApprovalConfig) (command : string) :
  deniedByWord (denylist (autorun_mode cfg)) command
  = Ok (existsb (fun deniedPattern => Js.includes command deniedPattern)
                (denylist (autorun_mode cfg))) ->
  Config.shouldAutoApproveCommand cfg command
  = Ok (ConfigSubstring.shouldAutoApproveCommand cfg command).
Proof.
  intros Hloop. rewrite (shouldAutoApproveCommand_answer cfg command _ Hloop).
  unfold ConfigSubstring.shouldAutoApproveCommand. cbv zeta. f_equal.
  destruct (enabled (autorun_mode cfg)); [ | reflexivity]. cbn [negb andb].
  destruct (existsb _ (denylist (autorun_mode cfg))); [reflexivity | ].
  cbn [negb andb].
  destruct (existsb _ (allowlist (autorun_mode cfg))).
  - apply orb_true_r.
  - apply orb_false_r.
Qed.

(** Under an enabled policy that does not allow all other commands, the
    allowlist is the only way in: a command that contains no allowlist entry
    starts no process, in either revision of [exec.ts], whatever the denylist
    holds (a pattern that does not compile included), whatever the flags of
    the request and whatever regular-expression engine runs the patterns. *)
Theorem command_off_the_allowlist_is_never_started
  (cfg : ApprovalConfig) (params : Types.RunTerminalCmdArgs)
  (events : list Node.ChildEvent) :
  enabled (autorun_mode cfg) = true ->
  allow_all_other_commands (autorun_mode cfg) = false ->
  existsb (fun allowedPattern => Js.includes (Types.command params) allowedPattern)
          (allowlist (autorun_mode cfg)) = false ->
  launched (Exec.executeCommand cfg params events) = [] /\
  launched (ExecApproval.executeCommand cfg params events) = [].
Proof.
  intros Hen Hall Hallow.
  assert (Happroved : forall denied,
             deniedByWord (denylist (autorun_mode cfg)) (Types.command params)
             = Ok denied ->
             Config.shouldAutoApproveCommand cfg (Types.command params) = Ok false).
  { intros denied Hloop.
    rewrite (shouldAutoApproveCommand_answer cfg _ denied Hloop), Hall, Hallow.
    now rewrite andb_false_r. }
  unfold Exec.executeCommand, Exec.isCommandDenied,
    ExecApproval.executeCommand, ExecApproval.isCommandDenied.
  cbn [Config.getConfig autorun_mode]. rewrite Hen, Hall. cbn [negb andb].
  destruct (deniedByWord (denylist (autorun_mode cfg)) (Types.command params))
    as [denied|e] eqn:Hloop.
  - rewrite (Happroved denied eq_refl). cbn [bind negb].
    split.
    + now destruct denied.
    + now destruct (Types.require_user_approval params).
  - assert (Hthrow : Config.shouldAutoApproveCommand cfg (Types.command params)
                     = Throw e).
    { unfold Config.shouldAutoApproveCommand. cbv zeta.
      now rewrite Hen, Hloop. }
    rewrite Hthrow. split; reflexivity.
Qed.

(** The allowlist is matched by substring.  Under an enabled policy, a
    command that contains an allowlist entry anywhere in its text, and that
    the denylist does not match, is approved: it runs without waiting even
    when the request asks for approval, whatever else the command holds. *)
Theorem command_that_contains_an_allowlist_entry_is_approved
  (cfg : ApprovalConfig) (params : Types.RunTerminalCmdArgs)
  (events : list Node.ChildEvent) (allowedPattern before after : string) :
  enabled (autorun_mode cfg) = true ->
  In allowedPattern (allowlist (autorun_mode cfg)) ->
  Types.command params = before ++ allowedPattern ++ after ->
  deniedByWord (denylist (autorun_mode cfg)) (Types.command params) = Ok false ->
  Config.shouldAutoApproveCommand cfg (Types.command params) = Ok true /\
  ExecApproval.executeCommand cfg params events = run params events.
Proof.
  intros Hen Hin Hcommand Hloop.
  assert (Happroved : Config.shouldAutoApproveCommand cfg (Types.command params)
                      = Ok true).
  { rewrite (shouldAutoApproveCommand_answer cfg _ false Hloop), Hen.
    cbn [andb negb]. f_equal. apply orb_true_iff. right.
    apply existsb_exists. exists allowedPattern. split; [exact Hin | ].
    apply includes_iff. now exists before, after. }
  split; [exact Happroved | ].
  unfold ExecApproval.executeCommand, ExecApproval.isCommandDenied.
  cbn [Config.getConfig autorun_mode]. rewrite Hen, Happroved. cbn [negb bind].
  now destruct (Types.require_user_approval params).
Qed.

Lemma ExecApproval_disabled_flagged
  (cfg : ApprovalConfig) (params : Types.RunTerminalCmdArgs)
  (events : list Node.ChildEvent) :
  enabled (autorun_mode cfg) = false ->
  Types.require_user_approval params = true ->
  ExecApproval.executeCommand cfg params events
  = {| launched := []; outcome := Fulfilled Types.waiting |}.
Proof.
  intros Hoff Hflag.
  unfold ExecApproval.executeCommand, ExecApproval.isCommandDenied,
    Config.shouldAutoApproveCommand.
  cbn [Config.getConfig autorun_mode]. rewrite Hoff, Hflag. cbn [negb].
  now destruct (existsb _ _).
Qed.

(** With the policy disabled, which is the default configuration, a request
    that asks for approval is never executed: the answer is
    [waiting_for_approval] and no process is started, for every command and
    every content of the two lists. *)
Theorem disabled_policy_always_waits_for_approval
  (cfg : ApprovalConfig) (params : Types.RunTerminalCmdArgs)
  (events : list Node.ChildEvent) :
  enabled (autorun_mode cfg) = false ->
  Types.require_user_approval params = true ->
  ExecApproval.executeCommand cfg params events
  = {| launched := []; outcome := Fulfilled Types.waiting |}.
Proof. exact (ExecApproval_disabled_flagged cfg params events). Qed.

End WithEngine.

(** The configuration of the README, where [rm] is denied as a word and as
    a substring of [rm -rf /]. *)
Definition readmeConfig : ApprovalConfig :=
  {| autorun_mode :=
       {| enabled := true; allowlist := ["ls"; "echo"; "cat"];
          denylist := ["rm"; "git commit"; "git push"];
          allow_all_other_commands := false |} |}.

Lemma revisions_agree_up_to_the_denylist_test_witness :
  Config.shouldAutoApproveCommand (engine := literalEngine) readmeConfig "echo rm"
  = Ok (ConfigSubstring.shouldAutoApproveCommand readmeConfig "echo rm").
Proof.
  exact (revisions_agree_up_to_the_denylist_test (engine := literalEngine)
           readmeConfig "echo rm" eq_refl).
Defined.

Lemma command_off_the_allowlist_is_never_started_witness :
  launched (Exec.executeCommand (engine := literalEngine) readmeConfig
              (PolicyClaims.request "make all" false false) [Node.Close (Some 0)])
  = [] /\
  launched (ExecApproval.executeCommand (engine := literalEngine) readmeConfig
              (PolicyClaims.request "make all" false false) [Node.Close (Some 0)])
  = [].
Proof.
  exact (command_off_the_allowlist_is_never_started (engine := literalEngine)
           readmeConfig (PolicyClaims.request "make all" false false)
           [Node.Close (Some 0)] eq_refl eq_refl eq_refl).
Defined.

(** [ls] is on the allowlist of the README; [false] contains it. *)
Lemma command_that_contains_an_allowlist_entry_is_approved_witness :
  Config.shouldAutoApproveCommand (engine := literalEngine) readmeConfig
    "false || make" = Ok true /\
  ExecApproval.executeCommand (engine := literalEngine) readmeConfig
    (PolicyClaims.request "false || make" false true) [Node.Close (Some 0)]
  = run (PolicyClaims.request "false || make" false true) [Node.Close (Some 0)].
Proof.
  exact (command_that_contains_an_allowlist_entry_is_approved
           (engine := literalEngine) readmeConfig
           (PolicyClaims.request "false || make" false true)
           [Node.Close (Some 0)] "ls" "fa" "e || make"
           eq_refl (or_introl eq_refl) eq_refl eq_refl).
Defined.

Lemma disabled_policy_always_waits_for_approval_witness :
  ExecApproval.executeCommand (engine := literalEngine) defaultConfig
    (PolicyClaims.request "ls" false true) [Node.Close (Some 0)]
  = {| launched := []; outcome := Fulfilled Types.waiting |}.
Proof.
  exact (disabled_policy_always_waits_for_approval (engine := literalEngine)
           defaultConfig (PolicyClaims.request "ls" false true)
           [Node.Close (Some 0)] eq_refl eq_refl).
Defined.

End PolicyLaws.

(** ** The foreground capture on any run of events *)

Module CaptureLaws.
Import Foreground ExecFacts.

(** The notice the [error] handler appends to the standard error. *)
Definition notice : string :=
  Js.LF ++ "ERROR: Command output exceeded 2MB buffer limit.".

Lemma notice_length : Js.length notice = 49.
Proof. reflexivity. Qed.

(** What is kept of the captured standard error to make room for the notice. *)
Definition keptFor (captured : string) : string :=
  if Js.length captured + Js.length notice >? MAX_BUFFER_SIZE
  then Js.substring captured 0 (MAX_BUFFER_SIZE - Js.length notice)
  else captured.

(** The [error] handler on an error that carries [SIGTERM] or the overflow
    code. *)
Lemma onError_cap (command : string) (err : Node.ExecException) (st : Capture) :
  is_signal err "SIGTERM" || is_code err "ERR_CHILD_PROCESS_STDIO_MAXBUFFER" = true ->
  onError command err st
  = resolve (Types.success
               {| Types.stdout := stdout st;
                  Types.stderr := keptFor (stderr st) ++ notice;
                  Types.exitCode :=
                    match Node.code err with Some c => c | None => CodeNumber 1 end;
                  Types.truncated := Some true |})
            {| stdout := stdout st; stderr := keptFor (stderr st) ++ notice;
               truncated := true; settled := settled st |}.
Proof. intros Hcap. unfold onError. rewrite Hcap. reflexivity. Qed.

Lemma onError_other (command : string) (err : Node.ExecException) (st : Capture) :
  is_signal err "SIGTERM" || is_code err "ERR_CHILD_PROCESS_STDIO_MAXBUFFER" = false ->
  exists e, onError command err st = resolve (Types.error e) st.
Proof. intros Hcap. unfold onError. rewrite Hcap. eexists. reflexivity. Qed.

Lemma keptFor_prefix (captured : string) :
  exists cut, captured = keptFor captured ++ cut.
Proof.
  unfold keptFor. destruct (_ >? _).
  - rewrite Capture.substring_take
      by (rewrite notice_length; unfold MAX_BUFFER_SIZE; lia).
    set (n := Z.to_nat _). clearbody n. revert n.
    induction captured as [|c s IH]; intros n.
    + exists "". now destruct n.
    + destruct n as [|n]; [now exists (String c s) | ].
      destruct (IH n) as [cut Hcut]. exists cut. simpl. now rewrite <- Hcut.
  - exists "". now rewrite Capture.append_empty.
Qed.

#[local] Opaque MAX_BUFFER_SIZE.

Lemma keptFor_length (captured : string) :
  Js.length captured <= MAX_BUFFER_SIZE ->
  Js.length (keptFor captured ++ notice) <= MAX_BUFFER_SIZE.
Proof.
  intros Hle. pose proof (Capture.length_nonneg captured) as Hpos.
  assert (Hmax : MAX_BUFFER_SIZE = 2097152) by reflexivity.
  rewrite Capture.length_append. unfold keptFor.
  destruct (Js.length captured + Js.length notice >? MAX_BUFFER_SIZE) eqn:Hcmp.
  - rewrite Capture.substring_length by (rewrite notice_length; lia). lia.
  - rewrite Z.gtb_ltb in Hcmp. apply Z.ltb_ge in Hcmp. lia.
Qed.

(** *** Both streams stay within the cap *)

Record bounded (st : Capture) : Prop := {
  bounded_stdout : Js.length (stdout st) <= MAX_BUFFER_SIZE;
  bounded_stderr : Js.length (stderr st) <= MAX_BUFFER_SIZE;
  bounded_result : forall result,
    settled st = Some (Types.success result) ->
    Js.length (Types.stdout result) <= MAX_BUFFER_SIZE /\
    Js.length (Types.stderr result) <= MAX_BUFFER_SIZE
}.

Lemma bounded_start : bounded start.
Proof.
  assert (Hmax : MAX_BUFFER_SIZE = 2097152) by reflexivity.
  split; cbn [start stdout stderr settled]; try discriminate;
    change (Js.length "") with 0; lia.
Qed.

Lemma bounded_resolve (o : Types.CommandExecOutcome) (st : Capture) :
  bounded st ->
  (forall result, o = Types.success result ->
     Js.length (Types.stdout result) <= MAX_BUFFER_SIZE /\
     Js.length (Types.stderr result) <= MAX_BUFFER_SIZE) ->
  bounded (resolve o st).
Proof.
  intros [Hout Herr Hres] Ho. unfold resolve.
  destruct (settled st) as [o'|] eqn:Hs.
  - split; [exact Hout | exact Herr | ]. rewrite Hs. exact Hres.
  - split; cbn [stdout stderr settled]; [exact Hout | exact Herr | ].
    intros result [= ->]. now apply Ho.
Qed.

Lemma appended_within_cap (kept data : string) :
  Js.length kept <= MAX_BUFFER_SIZE ->
  Js.length (kept ++ Js.substring data 0 (MAX_BUFFER_SIZE - Js.length kept))
  <= MAX_BUFFER_SIZE.
Proof.
  intros Hle. rewrite Capture.length_append, Capture.substring_length by lia. lia.
Qed.

Lemma bounded_handle (command : string) (ev : Node.ChildEvent) (st : Capture) :
  bounded st -> bounded (handle command ev st).
Proof.
  intros Hb. pose proof Hb as [Hout Herr Hres].
  destruct ev as [data|data|code|err]; cbn [handle].
  - unfold onStdoutData.
    destruct (Js.length (stdout st) + Js.length data >? MAX_BUFFER_SIZE) eqn:Hcmp.
    + split; cbn [stdout stderr settled]; [ | exact Herr | exact Hres].
      now apply appended_within_cap.
    + rewrite Z.gtb_ltb in Hcmp. apply Z.ltb_ge in Hcmp.
      destruct (negb (truncated st)); [ | exact Hb].
      split; cbn [stdout stderr settled]; [ | exact Herr | exact Hres].
      now rewrite Capture.length_append.
  - unfold onStderrData.
    destruct (Js.length (stderr st) + Js.length data >? MAX_BUFFER_SIZE) eqn:Hcmp.
    + split; cbn [stdout stderr settled]; [exact Hout | | exact Hres].
      now apply appended_within_cap.
    + rewrite Z.gtb_ltb in Hcmp. apply Z.ltb_ge in Hcmp.
      destruct (negb (truncated st)); [ | exact Hb].
      split; cbn [stdout stderr settled]; [exact Hout | | exact Hres].
      now rewrite Capture.length_append.
  - unfold onClose. apply bounded_resolve; [exact Hb | ].
    intros result [= <-]. cbn [Types.stdout Types.stderr]. auto.
  - destruct (is_signal err "SIGTERM"
              || is_code err "ERR_CHILD_PROCESS_STDIO_MAXBUFFER") eqn:Hcap.
    + rewrite (onError_cap command err st Hcap).
      pose proof (keptFor_length (stderr st) Herr) as Hkept.
      apply bounded_resolve.
      * split; cbn [stdout stderr settled]; [exact Hout | exact Hkept | exact Hres].
      * intros result [= <-]. cbn [Types.stdout Types.stderr]. auto.
    + destruct (onError_other command err st Hcap) as [e ->].
      apply bounded_resolve; [exact Hb | discriminate].
Qed.

Lemma bounded_deliver (command : string) (events : list Node.ChildEvent)
  (st : Capture) :
  bounded st -> bounded (deliver command events st).
Proof.
  revert st. induction events as [|ev events IH]; intros st Hb; [exact Hb | ].
  change (deliver command (ev :: events) st)
    with (deliver command events (handle command ev st)).
  now apply IH, bounded_handle.
Qed.

#[local] Transparent MAX_BUFFER_SIZE.

(** *** The promise is settled by the first event that settles it *)

Lemma settled_handle (command : string) (ev : Node.ChildEvent) (st : Capture)
  (o : Types.CommandExecOutcome) :
  settled st = Some o -> settled (handle command ev st) = Some o.
Proof.
  intros Hs. destruct ev as [data|data|code|err]; cbn [handle].
  - unfold onStdoutData. destruct (_ >? _); [exact Hs | ].
    destruct (negb _); exact Hs.
  - unfold onStderrData. destruct (_ >? _); [exact Hs | ].
    destruct (negb _); exact Hs.
  - unfold onClose, resolve. now rewrite Hs.
  - unfold onError, resolve. destruct (_ || _); cbn [settled]; now rewrite Hs.
Qed.

Lemma settled_deliver (command : string) (events : list Node.ChildEvent)
  (st : Capture) (o : Types.CommandExecOutcome) :
  settled st = Some o -> settled (deliver command events st) = Some o.
Proof.
  revert st. induction events as [|ev events IH]; intros st Hs; [exact Hs | ].
  change (deliver command (ev :: events) st)
    with (deliver command events (handle command ev st)).
  now apply IH, settled_handle.
Qed.

(** *** What the gate leaves to the events *)

Section WithEngine.
Context {engine : RegExpEngine}.

(** Past the gate the two revisions run the same code; before it the events
    of the child play no part. *)
Lemma Exec_gate (cfg : ApprovalConfig) (params : Types.RunTerminalCmdArgs) :
  (exists o, forall events,
      Exec.executeCommand cfg params events = {| launched := []; outcome := o |} /\
      forall result, o <> Fulfilled (Types.success result)) \/
  (forall events, Exec.executeCommand cfg params events = run params events).
Proof.
  unfold Exec.executeCommand.
  destruct (Exec.isCommandDenied cfg (Types.command params)) as [[|]|e].
  - left. eexists. intros events. split; [reflexivity | discriminate].
  - now right.
  - left. eexists. intros events. split; [reflexivity | discriminate].
Qed.

Lemma ExecApproval_gate (cfg : ApprovalConfig) (params : Types.RunTerminalCmdArgs) :
  (exists o, forall events,
      ExecApproval.executeCommand cfg params events
      = {| launched := []; outcome := o |} /\
      forall result, o <> Fulfilled (Types.success result)) \/
  (forall events, ExecApproval.executeCommand cfg params events = run params events).
Proof.
  unfold ExecApproval.executeCommand.
  destruct (ExecApproval.isCommandDenied cfg (Types.command params)) as [[|]|e].
  - left. destruct (negb (Types.require_user_approval params));
      eexists; intros events; (split; [reflexivity | discriminate]).
  - destruct (Types.require_user_approval params); [ | now right].
    destruct (Config.shouldAutoApproveCommand cfg (Types.command params))
      as [[|]|e]; [now right | | ];
      left; eexists; intros events; (split; [reflexivity | discriminate]).
  - left. eexists. intros events. split; [reflexivity | discriminate].
Qed.

Lemma run_bounded (params : Types.RunTerminalCmdArgs)
  (events : list Node.ChildEvent) (result : Types.CommandExecSuccessResult) :
  outcome (run params events) = Fulfilled (Types.success result) ->
  Js.length (Types.stdout result) <= 2 * 1024 * 1024 /\
  Js.length (Types.stderr result) <= 2 * 1024 * 1024.
Proof.
  unfold run. destruct (Types.is_background params).
  - cbn [runBackground outcome]. intros [= <-]. split; discriminate.
  - cbn [runForeground outcome].
    destruct (settled (deliver (Types.command params) events start)) as [o|] eqn:Hs;
      [ | discriminate].
    intros [= ->].
    exact (bounded_result _ (bounded_deliver _ events start bounded_start) result Hs).
Qed.

(** Whatever the child writes and in whatever order its events arrive, a
    result returned with [status: 'success'] holds at most 2 MiB (2097152
    characters) of standard output and at most 2 MiB of standard error, the
    notice of an overflow included; in both revisions of [exec.ts]. *)
Theorem returned_output_never_exceeds_the_cap
  (cfg : ApprovalConfig) (params : Types.RunTerminalCmdArgs)
  (events : list Node.ChildEvent) (result : Types.CommandExecSuccessResult) :
  outcome (Exec.executeCommand cfg params events) = Fulfilled (Types.success result)
  \/ outcome (ExecApproval.executeCommand cfg params events)
     = Fulfilled (Types.success result) ->
  Js.length (Types.stdout result) <= 2 * 1024 * 1024 /\
  Js.length (Types.stderr result) <= 2 * 1024 * 1024.
Proof.
  intros [H|H].
  - destruct (Exec_gate cfg params) as [[o Hgate]|Hgate].
    + destruct (Hgate events) as [Heq Hno]. rewrite Heq in H. now apply Hno in H.
    + rewrite Hgate in H. now apply (run_bounded params events).
  - destruct (ExecApproval_gate cfg params) as [[o Hgate]|Hgate].
    + destruct (Hgate events) as [Heq Hno]. rewrite Heq in H. now apply Hno in H.
    + rewrite Hgate in H. now apply (run_bounded params events).
Qed.

Lemma run_settled_once (params : Types.RunTerminalCmdArgs)
  (before after : list Node.ChildEvent) (o : Types.CommandExecOutcome) :
  outcome (run params before) = Fulfilled o ->
  outcome (run params (before ++ after)) = Fulfilled o.
Proof.
  unfold run. destruct (Types.is_background params); [auto | ].
  cbn [runForeground outcome]. rewrite deliver_app.
  destruct (settled (deliver (Types.command params) before start)) as [o'|] eqn:Hs;
    [ | discriminate].
  intros [= ->]. now rewrite (settled_deliver _ after _ o Hs).
Qed.

(** The outcome is fixed by the first event that settles the promise: once
    [executeCommand] has answered, no later event of the child (a [close]
    after an [error], output after the [close]) changes the answer; in both
    revisions of [exec.ts]. *)
Theorem first_settling_event_decides
  (cfg : ApprovalConfig) (params : Types.RunTerminalCmdArgs)
  (before after : list Node.ChildEvent) (o : Types.CommandExecOutcome) :
  (outcome (Exec.executeCommand cfg params before) = Fulfilled o ->
   outcome (Exec.executeCommand cfg params (before ++ after)) = Fulfilled o) /\
  (outcome (ExecApproval.executeCommand cfg params before) = Fulfilled o ->
   outcome (ExecApproval.executeCommand cfg params (before ++ after)) = Fulfilled o).
Proof.
  split; intros H.
  - destruct (Exec_gate cfg params) as [[o' Hgate]|Hgate].
    + destruct (Hgate before) as [Hb _]. destruct (Hgate (before ++ after)%list) as [Ha _].
      rewrite Hb in H. now rewrite Ha.
    + rewrite Hgate in *. now apply run_settled_once.
  - destruct (ExecApproval_gate cfg params) as [[o' Hgate]|Hgate].
    + destruct (Hgate before) as [Hb _]. destruct (Hgate (before ++ after)%list) as [Ha _].
      rewrite Hb in H. now rewrite Ha.
    + rewrite Hgate in *. now apply run_settled_once.
Qed.




(** An [error] event that carries [SIGTERM] or the overflow code settles the
    promise with [success]: the standard error ends with the complete notice
    of the overflow, whatever had to be cut from the captured text to make
    room for it, and [exitCode] is the [code] of the error as it is, a string
    such as [ERR_CHILD_PROCESS_STDIO_MAXBUFFER] included, or 1 when the error
    has no code. *)
Theorem overflow_notice_is_appended_whole
  (cfg : ApprovalConfig) (params : Types.RunTerminalCmdArgs)
  (events : list Node.ChildEvent) (err : Node.ExecException) :
  ExecClaims.passesGate cfg params ->
  Types.is_background params = false ->
  Forall isData events ->
  is_signal err "SIGTERM" || is_code err "ERR_CHILD_PROCESS_STDIO_MAXBUFFER" = true ->
  exists result kept cut,
    outcome (ExecApproval.executeCommand cfg params (events ++ [Node.Error err]))
    = Fulfilled (Types.success result) /\
    Types.stderr result
    = kept ++ Js.LF ++ "ERROR: Command output exceeded 2MB buffer limit." /\
    stderr (deliver (Types.command params) events start) = kept ++ cut /\
    Types.exitCode result
    = match Node.code err with Some c => c | None => CodeNumber 1 end /\
    Types.truncated result = Some true.
Proof.
  intros Hgate Hfg Hdata Hcap.
  rewrite (ExecClaims.gate_passed cfg params _ Hgate). unfold run. rewrite Hfg.
  cbn [runForeground outcome]. rewrite deliver_app.
  set (st := deliver (Types.command params) events start).
  assert (Hnone : settled st = None) by (unfold st; now rewrite settled_data).
  unfold deliver. cbn [fold_left handle].
  rewrite (onError_cap _ err st Hcap). unfold resolve. cbn [settled].
  rewrite Hnone. cbn [settled].
  destruct (keptFor_prefix (stderr st)) as [cut Hcut].
  eexists. exists (keptFor (stderr st)), cut.
  split; [reflexivity | ]. cbn [Types.stderr Types.exitCode Types.truncated].
  repeat split. exact Hcut.
Qed.

End WithEngine.

(** *** Examples *)

(** [echo hi] that also warns on its standard error. *)
Definition greeting : list Node.ChildEvent :=
  [Node.StdoutData "hi"; Node.StderrData "warning"].


Definition greetingResult : Types.CommandExecSuccessResult :=
  {| Types.stdout := "hi"; Types.stderr := "warning";
     Types.exitCode := CodeNumber 0; Types.truncated := None |}.

Lemma returned_output_never_exceeds_the_cap_witness :
  Js.length (Types.stdout greetingResult) <= 2 * 1024 * 1024 /\
  Js.length (Types.stderr greetingResult) <= 2 * 1024 * 1024.
Proof.
  refine (returned_output_never_exceeds_the_cap (engine := literalEngine)
            defaultConfig (PolicyClaims.request "echo hi" false false)
            (greeting ++ [Node.Close (Some 0)]) greetingResult _).
  left. reflexivity.
Defined.


(** The shell is missing: the launch fails, then the child is closed. *)
Definition enoent : Node.ExecException :=
  {| Node.message := "spawn /bin/sh ENOENT";
     Node.code := Some (CodeString "ENOENT"); Node.signal := None |}.

Lemma first_settling_event_decides_witness :
  let failed :=
    Types.error {| Types.code := Some "exec_error";
                   Types.message := "Command failed: spawn /bin/sh ENOENT";
                   Types.details :=
                     Types.DetailsProcess "ls" (Some (CodeString "ENOENT")) None |} in
  outcome (Exec.executeCommand (engine := literalEngine) defaultConfig
             (PolicyClaims.request "ls" false false)
             ([Node.Error enoent] ++ [Node.Close (Some 127)]))
  = Fulfilled failed /\
  outcome (ExecApproval.executeCommand (engine := literalEngine) defaultConfig
             (PolicyClaims.request "ls" false false)
             ([Node.Error enoent] ++ [Node.Close (Some 127)]))
  = Fulfilled failed.
Proof.
  destruct (first_settling_event_decides (engine := literalEngine) defaultConfig
              (PolicyClaims.request "ls" false false)
              [Node.Error enoent] [Node.Close (Some 127)]
              (Types.error
                 {| Types.code := Some "exec_error";
                    Types.message := "Command failed: spawn /bin/sh ENOENT";
                    Types.details :=
                      Types.DetailsProcess "ls" (Some (CodeString "ENOENT")) None |}))
    as [Hplain Hflag].
  exact (conj (Hplain eq_refl) (Hflag eq_refl)).
Defined.

(** The child is killed with [SIGTERM] after it has written its greeting. *)
Definition killed : Node.ExecException :=
  {| Node.message := "Command failed: echo hi"; Node.code := None;
     Node.signal := Some "SIGTERM" |}.

Lemma overflow_notice_is_appended_whole_witness :
  exists result kept cut,
    outcome (ExecApproval.executeCommand (engine := literalEngine) defaultConfig
               (PolicyClaims.request "echo hi" false false)
               (greeting ++ [Node.Error killed]))
    = Fulfilled (Types.success result) /\
    Types.stderr result
    = kept ++ Js.LF ++ "ERROR: Command output exceeded 2MB buffer limit." /\
    stderr (deliver "echo hi" greeting start) = kept ++ cut /\
    Types.exitCode result = CodeNumber 1 /\
    Types.truncated result = Some true.
Proof.
  refine (overflow_notice_is_appended_whole (engine := literalEngine)
            defaultConfig (PolicyClaims.request "echo hi" false false)
            greeting killed (ExecClaims.default_gate "echo hi" false) eq_refl
            _ eq_refl).
  repeat constructor.
Defined.

End CaptureLaws.

(** ** The session over any sequence of operations *)

Module SessionLaws.
Import Rpc RpcFacts.
#[local] Open Scope list_scope.

Section WithNumbers.
Context {numbers : NumberFormat}.

(** *** Promises are settled at most once *)

Lemma log_at_most_once (p : PromiseRef) (l : list (PromiseRef * Settlement)) :
  NoDup (map fst l) ->
  (List.length (filter (fun e => Nat.eqb (fst e) p) l) <= 1)%nat.
Proof.
  intros Hnd. destruct (in_dec Nat.eq_dec p (map fst l)) as [Hin|Hnot].
  - apply in_map_iff in Hin. destruct Hin as [[q how] [Hq Hin]]. simpl in Hq. subst q.
    destruct (log_once p how l Hnd Hin) as [_ ->]. simpl. lia.
  - destruct (log_absent p l Hnot) as [_ ->]. simpl. lia.
Qed.

(** Over any sequence of handshakes, calls, inbound messages and closes, on
    any content of the messages, no promise has its [resolve] or [reject]
    called twice, and every promise still registered (a call in the pending
    map, the handshake in flight) is still pending. *)
Theorem no_promise_is_settled_twice (c : RpcClient) :
  reachable c ->
  (forall p, (timesSettled p c <= 1)%nat) /\
  (forall id p, Map_get id (pending c) = Some p -> stateOf p c = None) /\
  (forall q, initializePromise c = Some q -> stateOf q c = None).
Proof.
  intros Hreach. pose proof (reachable_wellFormed c Hreach) as Hwf.
  split; [ | split].
  - intros p. apply log_at_most_once, Hwf.
  - intros id p Hget. apply Map_get_In in Hget.
    destruct (wf_pending c Hwf id p Hget) as [_ Hun]. now apply unsettled_state.
  - intros q Hq. destruct (wf_initialize c Hwf q Hq) as [_ [Hun _]].
    now apply unsettled_state.
Qed.

(** *** A promise the session no longer refers to *)

Definition unreferenced (p : PromiseRef) (c : RpcClient) : Prop :=
  ~ In p (map snd (pending c)) /\ initializePromise c <> Some p /\
  (p < nextPromise c)%nat.

Lemma log_extended (p : PromiseRef) (l added : list (PromiseRef * Settlement)) :
  ~ In p (map fst added) ->
  find (fun e => Nat.eqb (fst e) p) (l ++ added) = find (fun e => Nat.eqb (fst e) p) l.
Proof.
  intros Hnot. induction l as [|[q how] l IH]; simpl.
  - apply (log_absent p added Hnot).
  - destruct (Nat.eqb q p); [reflexivity | exact IH].
Qed.

Lemma Map_set_value (id : string) (p v : PromiseRef) (m : PendingMap) :
  In v (map snd (Map_set id p m)) -> v = p \/ In v (map snd m).
Proof.
  intros Hin. apply in_map_iff in Hin. destruct Hin as [[k v'] [Hv Hin]].
  simpl in Hv. subst v'. destruct (Map_set_In id p m k v Hin) as [[_ ->]|Hold].
  - now left.
  - right. change v with (snd (k, v)). now apply in_map.
Qed.

Lemma Map_delete_value (id : string) (v : PromiseRef) (m : PendingMap) :
  In v (map snd (Map_delete id m)) -> In v (map snd m).
Proof.
  intros Hin. apply in_map_iff in Hin. destruct Hin as [[k v'] [Hv Hin]].
  simpl in Hv. subst v'. change v with (snd (k, v)).
  apply in_map. eapply Map_delete_In; eassumption.
Qed.

(** A step settles only promises the session refers to. *)
Lemma unreferenced_step (p : PromiseRef) (c : RpcClient) (op : Op) :
  wellFormed c -> unreferenced p c ->
  unreferenced p (step c op) /\
  exists added, settlements (step c op) = settlements c ++ added /\
                ~ In p (map fst added).
Proof.
  intros Hwf [Hpend [Hinit Halloc]].
  destruct (wf_resolvers c Hwf) as [Hres Hrej].
  assert (Hsame : forall c', pending c' = pending c ->
                             initializePromise c' = initializePromise c ->
                             nextPromise c' = nextPromise c ->
                             settlements c' = settlements c ->
                             unreferenced p c' /\
                             exists added, settlements c' = settlements c ++ added /\
                                           ~ In p (map fst added)).
  { intros c' Hp Hi Hn Hs. split.
    - unfold unreferenced. now rewrite Hp, Hi, Hn.
    - exists []. rewrite app_nil_r. auto. }
  destruct op as [n v|id method params|m| ]; cbn [step].
  - unfold performHandshake. destruct (initializePromise c) as [q|] eqn:Hq.
    + cbn [snd]. now apply Hsame.
    + cbn [newPromise snd]. split.
      * unfold unreferenced. cbn. repeat split; [exact Hpend | | lia].
        intros [= Heq]. lia.
      * exists []. cbn. rewrite app_nil_r. auto.
  - cbn [call newPromise snd]. split.
    + unfold unreferenced. cbn. repeat split; [ | exact Hinit | lia].
      intros Hin. apply Map_set_value in Hin. destruct Hin as [Heq|Hin]; [lia | auto].
    + exists []. cbn. rewrite app_nil_r. auto.
  - unfold handle. destruct (closed c); [now apply Hsame | ].
    destruct (isInitializeId m).
    + rewrite Hres, Hrej.
      destruct (Value.truthy (Value.field "result" m)).
      * destruct (initializePromise c) as [q|] eqn:Hq.
        -- split.
           ++ unfold unreferenced. cbn. repeat split; [exact Hpend | discriminate | exact Halloc].
           ++ eexists. split; [reflexivity | ]. cbn. intros [Heq|[]]. congruence.
        -- destruct (Value.truthy (Value.field "error" m)).
           ++ split.
              ** unfold unreferenced. cbn. repeat split; [exact Hpend | discriminate | exact Halloc].
              ** exists []. cbn. rewrite app_nil_r. auto.
           ++ split.
              ** unfold unreferenced. cbn. repeat split; [exact Hpend | discriminate | exact Halloc].
              ** exists []. cbn. rewrite app_nil_r. auto.
      * destruct (Value.truthy (Value.field "error" m)).
        -- destruct (initializePromise c) as [q|] eqn:Hq.
           ++ destruct (errorText _ _); [ | now apply Hsame]. split.
              ** unfold unreferenced. cbn. repeat split; [exact Hpend | discriminate | exact Halloc].
              ** eexists. split; [reflexivity | ]. cbn. intros [Heq|[]]. congruence.
           ++ split.
              ** unfold unreferenced. cbn. repeat split; [exact Hpend | discriminate | exact Halloc].
              ** exists []. cbn. rewrite app_nil_r. auto.
        -- split.
           ++ unfold unreferenced. cbn. repeat split; [exact Hpend | discriminate | exact Halloc].
           ++ exists []. cbn. rewrite app_nil_r. auto.
    + destruct (pendingFor m c) as [[k q]|] eqn:Hfor; [ | now apply Hsame].
      destruct (pendingFor_get m c k q Hfor) as [_ Hget]. apply Map_get_In in Hget.
      assert (Hne : q <> p).
      { intros ->. apply Hpend. change p with (snd (k, p)). now apply in_map. }
      unfold callback. destruct (Value.truthy _); [destruct (errorText _ _) | ].
      * split.
        -- unfold unreferenced. cbn. repeat split; [ | exact Hinit | exact Halloc].
           intros Hin. now apply Map_delete_value in Hin.
        -- eexists. split; [reflexivity | ]. cbn. intros [Heq|[]]. congruence.
      * split.
        -- unfold unreferenced. cbn. repeat split; [ | exact Hinit | exact Halloc].
           intros Hin. now apply Map_delete_value in Hin.
        -- exists []. cbn. rewrite app_nil_r. auto.
      * split.
        -- unfold unreferenced. cbn. repeat split; [ | exact Hinit | exact Halloc].
           intros Hin. now apply Map_delete_value in Hin.
        -- eexists. split; [reflexivity | ]. cbn. intros [Heq|[]]. congruence.
  - destruct (closed c) eqn:Hclosed.
    + unfold close. rewrite Hclosed. now apply Hsame.
    + rewrite (close_open c Hclosed). split.
      * unfold unreferenced. cbn. repeat split; [tauto | | exact Halloc].
        destruct (rejectInitialize c); [discriminate | exact Hinit].
      * eexists. split; [reflexivity | ]. unfold closeSettlements.
        rewrite map_app, map_map. cbn [fst]. intros Hin.
        apply in_app_or in Hin. destruct Hin as [Hin|Hin]; [now apply Hpend | ].
        rewrite Hrej in Hin. destruct (initializePromise c) as [q|]; [ | destruct Hin].
        destruct Hin as [Heq|[]]. cbn in Heq. congruence.
Qed.

Lemma unreferenced_steps (p : PromiseRef) (ops : list Op) (c : RpcClient) :
  wellFormed c -> unreferenced p c ->
  stateOf p (steps ops c) = stateOf p c.
Proof.
  revert c. induction ops as [|op ops IH]; intros c Hwf Hun; [reflexivity | ].
  change (steps (op :: ops) c) with (steps ops (step c op)).
  destruct (unreferenced_step p c op Hwf Hun) as [Hun' [added [Hlog Hnot]]].
  rewrite (IH (step c op) (wf_step c op Hwf) Hun').
  unfold stateOf. now rewrite Hlog, log_extended.
Qed.

(** *** The answer to the handshake *)

(** What a message with the reserved identifier does to the handshake in
    flight.  A true [result] resolves it with that result (also when an
    [error] is present).  Otherwise a true [error] whose message and code
    convert to text rejects it with the remote message and code.  A message
    with neither (a [result] that is [null], [false], [0] or the empty
    string) settles nothing.  In these three cases the session forgets the
    promise: its state never changes afterwards, so in the last case it stays
    pending for ever, and the next [performHandshake] sends [initialize]
    again.  A true [error] whose message or code does not convert to text
    makes [handle] throw before it rejects or forgets anything: the session
    is left as it was, with the handshake still in flight and shared. *)
Theorem handshake_answer_settles_or_abandons
  (c : RpcClient) (q : PromiseRef) (m : JsFields) (ops : list Op)
  (clientName clientVersion : string) :
  reachable c -> closed c = false -> initializePromise c = Some q ->
  isInitializeId m = true ->
  let result := Value.field "result" m in
  let error := Value.field "error" m in
  let c' := handle m c in
  let forgotten :=
    initializePromise c' = None /\
    stateOf q (steps ops c') = stateOf q c' /\
    sent (snd (performHandshake clientName clientVersion c'))
    = sent c' ++ [initializeRequest clientName clientVersion] in
  if Value.truthy result then
    stateOf q c' = Some (Resolved result) /\ forgotten
  else if Value.truthy error then
    match Value.toString (Value.member "message" error),
          Value.toString (Value.member "code" error) with
    | Some message, Some code =>
        stateOf q c'
        = Some (Failed ("Initialize failed: " ++ message
                          ++ " (Code: " ++ code ++ ")")%string) /\
        forgotten
    | _, _ =>
        c' = c /\ stateOf q c' = None /\
        performHandshake clientName clientVersion c' = (q, c')
    end
  else
    stateOf q c' = None /\ forgotten.
Proof.
  intros Hreach Hopen Hq Hid result error c' forgotten.
  pose proof (reachable_wellFormed c Hreach) as Hwf.
  pose proof (wf_handle m c Hwf) as Hwf'. fold c' in Hwf'.
  destruct (wf_resolvers c Hwf) as [Hres Hrej].
  destruct (wf_initialize c Hwf q Hq) as [Halloc [Hun Hfree]].
  assert (Heq : c' = if Value.truthy result
                     then setInitialize None (settle q (Resolved result) c)
                     else if Value.truthy error
                          then match errorText "Initialize failed: " error with
                               | Some text => setInitialize None (settle q (Failed text) c)
                               | None => c
                               end
                          else setInitialize None c).
  { unfold c', handle. rewrite Hopen, Hid, Hres, Hrej, Hq. fold result error.
    destruct (Value.truthy result); [reflexivity | ].
    destruct (Value.truthy error); reflexivity. }
  assert (Hforgotten : forall c0,
             c' = setInitialize None c0 ->
             pending c0 = pending c -> nextPromise c0 = nextPromise c ->
             forgotten).
  { intros c0 Hc' Hpending Hnext.
    assert (Hnone : initializePromise c' = None) by (now rewrite Hc').
    split; [exact Hnone | split].
    - apply unreferenced_steps; [exact Hwf' | ].
      unfold unreferenced. rewrite Hnone, Hc'. cbn [setInitialize pending nextPromise].
      rewrite Hpending, Hnext. repeat split; [exact Hfree | discriminate | exact Halloc].
    - unfold performHandshake. rewrite Hnone. reflexivity. }
  assert (Hsettled : forall how,
             c' = setInitialize None (settle q how c) ->
             stateOf q c' = Some how /\ forgotten).
  { intros how Hc'. split; [ | now apply (Hforgotten (settle q how c))].
    apply (settled_once_state q how c' (wf_once c' Hwf')).
    rewrite Hc'. cbn. apply in_or_app. right. now left. }
  unfold errorText in Heq.
  destruct (Value.truthy result); [now apply Hsettled | ].
  destruct (Value.truthy error).
  - destruct (Value.toString (Value.member "message" error)) as [message|];
      [destruct (Value.toString (Value.member "code" error)) as [code|] | ];
      [now apply Hsettled | | ];
      (rewrite Heq; split; [reflexivity | split; [now apply unsettled_state | ]];
       unfold performHandshake; now rewrite Hq).
  - split; [ | now apply (Hforgotten c)].
    apply unsettled_state. rewrite Heq. exact Hun.
Qed.

(** *** After [close] *)

Lemma closed_step (c : RpcClient) (op : Op) :
  closed c = true ->
  closed (step c op) = true /\ settlements (step c op) = settlements c.
Proof.
  intros Hclosed. destruct op as [n v|id method params|m| ]; cbn [step].
  - unfold performHandshake. destruct (initializePromise c); auto.
  - auto.
  - unfold handle. rewrite Hclosed. auto.
  - unfold close. rewrite Hclosed. auto.
Qed.

Lemma closed_steps (ops : list Op) (c : RpcClient) :
  closed c = true ->
  closed (steps ops c) = true /\ settlements (steps ops c) = settlements c.
Proof.
  revert c. induction ops as [|op ops IH]; intros c Hclosed; [auto | ].
  change (steps (op :: ops) c) with (steps ops (step c op)).
  destruct (closed_step c op Hclosed) as [Hc Hs].
  destruct (IH (step c op) Hc) as [Hc' Hs']. split; [exact Hc' | congruence].
Qed.

(** [call] and [performHandshake] do not look at the closed flag.  On a
    closed session each still hands its request to the transport and returns
    a new promise, and nothing settles that promise: whatever operations
    follow, answers with the right identifier included, it stays pending and
    no promise of the session changes its state. *)
Theorem promises_made_after_close_stay_pending
  (c : RpcClient) (id method : string) (params : JsValue)
  (clientName clientVersion : string) (ops : list Op) :
  reachable c -> closed c = true ->
  let called := call id method params c in
  let shaken := performHandshake clientName clientVersion c in
  (sent (snd called) = sent c ++ [callRequest id method params] /\
   stateOf (fst called) (steps ops (snd called)) = None) /\
  (initializePromise c = None ->
   sent (snd shaken) = sent c ++ [initializeRequest clientName clientVersion] /\
   stateOf (fst shaken) (steps ops (snd shaken)) = None) /\
  (forall p, stateOf p (steps ops c) = stateOf p c).
Proof.
  intros Hreach Hclosed called shaken.
  pose proof (reachable_wellFormed c Hreach) as Hwf.
  assert (Hfresh : ~ settledIn (nextPromise c) c).
  { intros Hin. apply (wf_allocated c Hwf) in Hin. lia. }
  split; [ | split].
  - split; [reflexivity | ].
    destruct (closed_steps ops (snd called) Hclosed) as [_ Hs].
    unfold stateOf. rewrite Hs. now apply unsettled_state.
  - intros Hnone. unfold shaken, performHandshake. rewrite Hnone.
    cbn [newPromise fst snd]. split; [reflexivity | ].
    match goal with |- stateOf _ (steps ops ?c1) = None =>
      destruct (closed_steps ops c1 Hclosed) as [_ Hs] end.
    unfold stateOf. rewrite Hs. now apply unsettled_state.
  - intros p. destruct (closed_steps ops c Hclosed) as [_ Hs].
    unfold stateOf. now rewrite Hs.
Qed.

(** *** A response is consumed once *)

(** The first message that carries the identifier of a pending call removes
    the entry of the call, and settles the call once unless the text of its
    error cannot be built, in which case the callback throws and the call is
    never settled; a second message with the same identifier, whatever it
    holds, leaves the session exactly as it is. *)
Theorem repeated_response_is_ignored
  (c : RpcClient) (id : string) (p : PromiseRef) (first second : JsFields) :
  reachable c -> closed c = false -> id <> INITIALIZE_ID ->
  Map_get id (pending c) = Some p ->
  Value.field "id" first = JsString id ->
  Value.field "id" second = JsString id ->
  let c1 := handle first c in
  let error := Value.field "error" first in
  Map_get id (pending c1) = None /\
  handle second c1 = c1 /\
  timesSettled p (handle second c1)
  = (if Value.truthy error
     then match errorText "RPC Error: " error with
          | Some _ => 1
          | None => 0
          end
     else 1)%nat.
Proof.
  intros Hreach Hopen Hne Hget Hfirst Hsecond c1 error.
  pose proof (reachable_wellFormed c Hreach) as Hwf.
  assert (Hawaits : RpcClaims.awaits id p c) by (now split).
  pose proof (RpcClaims.awaits_answer id p c first Hawaits Hne Hfirst) as Hanswer.
  fold c1 in Hanswer. unfold callback in Hanswer. fold error in Hanswer.
  assert (Hflag : closed c1 = false).
  { rewrite Hanswer. destruct (Value.truthy error); [destruct (errorText _ _) | ];
      exact Hopen. }
  assert (Hentries : pending c1 = Map_delete id (pending c)).
  { rewrite Hanswer. destruct (Value.truthy error); [destruct (errorText _ _) | ];
      reflexivity. }
  assert (Hgone : Map_get id (pending c1) = None).
  { rewrite Hentries. apply (Map_get_delete_same id (pending c) (wf_keys c Hwf)). }
  assert (Hignored : handle second c1 = c1).
  { clearbody c1. clear Hanswer.
    unfold handle. rewrite Hflag. unfold isInitializeId, pendingFor.
    rewrite (RpcClaims.field_has "id" second id Hsecond), Hsecond, Hgone.
    destruct (String.eqb_spec id INITIALIZE_ID) as [->|_]; [congruence | ].
    reflexivity. }
  split; [exact Hgone | split; [exact Hignored | ]]. rewrite Hignored.
  assert (Hsettled : forall how,
             c1 = settle p how (setPending (Map_delete id (pending c)) c) ->
             timesSettled p c1 = 1%nat).
  { intros how Hc1.
    eapply proj2, (settled_once_state p how);
      [exact (wf_once _ (wf_handle first c Hwf)) | ].
    fold c1. rewrite Hc1. cbn. apply in_or_app. right. left. reflexivity. }
  destruct (Value.truthy error); [destruct (errorText _ _) | ].
  - now apply (Hsettled (Failed s)).
  - rewrite Hanswer. eapply proj2, (unsettled_state p).
    apply Map_get_In in Hget. now destruct (wf_pending c Hwf id p Hget) as [_ Hun].
  - now apply (Hsettled (Resolved (JsObject first))).
Qed.

End WithNumbers.

#[local] Existing Instance decimalNumbers.

(** *** Examples *)

(** A session closed while its handshake and one call were in flight. *)
Definition shutDown : RpcClient := close RpcClaims.busy.

Lemma shutDown_reachable : reachable shutDown.
Proof.
  exact (reachable_step RpcClaims.busy OpClose RpcClaims.busy_reachable).
Qed.

Lemma no_promise_is_settled_twice_witness :
  (forall p, (timesSettled p shutDown <= 1)%nat) /\
  (forall id p, Map_get id (pending shutDown) = Some p -> stateOf p shutDown = None) /\
  (forall q, initializePromise shutDown = Some q -> stateOf q shutDown = None).
Proof. exact (no_promise_is_settled_twice shutDown shutDown_reachable). Defined.

(** A handshake in flight, and an answer whose [result] is [null]. *)
Definition shaking : RpcClient :=
  steps [OpHandshake "mcp-cli-client" "0.2.0"] create.

Lemma shaking_reachable : reachable shaking.
Proof. apply reachable_steps, reachable_create. Qed.

Definition emptyAnswer : JsFields :=
  [ ("jsonrpc", JsString "2.0"); ("id", JsString INITIALIZE_ID);
    ("result", JsNull) ].

Definition lateAnswers : list Op :=
  [ OpMessage [ ("jsonrpc", JsString "2.0"); ("id", JsString INITIALIZE_ID);
                ("result", JsObject [("protocolVersion", JsString "2024-11-05")]) ];
    OpClose ].

(** An answer whose error holds a message that does not convert to text:
    an object with a [toString] property of its own. *)
Definition unprintable : JsValue :=
  JsObject [ ("code", JsNumber (-32603));
             ("message", JsObject [("toString", JsNumber 1)]) ].

Definition unprintableAnswer : JsFields :=
  [ ("jsonrpc", JsString "2.0"); ("id", JsString INITIALIZE_ID);
    ("error", unprintable) ].

Lemma handshake_answer_settles_or_abandons_witness :
  (stateOf 0%nat (handle emptyAnswer shaking) = None /\
   initializePromise (handle emptyAnswer shaking) = None /\
   stateOf 0%nat (steps lateAnswers (handle emptyAnswer shaking))
   = stateOf 0%nat (handle emptyAnswer shaking) /\
   sent (snd (performHandshake "mcp-cli-client" "0.2.0" (handle emptyAnswer shaking)))
   = sent (handle emptyAnswer shaking)
     ++ [initializeRequest "mcp-cli-client" "0.2.0"]) /\
  (handle unprintableAnswer shaking = shaking /\
   stateOf 0%nat (handle unprintableAnswer shaking) = None /\
   performHandshake "mcp-cli-client" "0.2.0" (handle unprintableAnswer shaking)
   = (0%nat, handle unprintableAnswer shaking)).
Proof.
  split.
  - exact (handshake_answer_settles_or_abandons shaking 0%nat emptyAnswer lateAnswers
             "mcp-cli-client" "0.2.0" shaking_reachable eq_refl eq_refl eq_refl).
  - exact (handshake_answer_settles_or_abandons shaking 0%nat unprintableAnswer []
             "mcp-cli-client" "0.2.0" shaking_reachable eq_refl eq_refl eq_refl).
Defined.

Definition pong : JsFields :=
  [ ("jsonrpc", JsString "2.0"); ("id", JsString "9a");
    ("result", JsObject [("pong", JsBool true)]) ].

Lemma promises_made_after_close_stay_pending_witness :
  let called := call "9a" "ping" (JsObject []) shutDown in
  let shaken := performHandshake "mcp-cli-client" "0.2.0" shutDown in
  (sent (snd called) = sent shutDown ++ [callRequest "9a" "ping" (JsObject [])] /\
   stateOf (fst called) (steps [OpMessage pong] (snd called)) = None) /\
  (sent (snd shaken)
   = sent shutDown ++ [initializeRequest "mcp-cli-client" "0.2.0"] /\
   stateOf (fst shaken) (steps [OpMessage pong] (snd shaken)) = None).
Proof.
  destruct (promises_made_after_close_stay_pending shutDown "9a" "ping" (JsObject [])
              "mcp-cli-client" "0.2.0" [OpMessage pong] shutDown_reachable eq_refl)
    as [Hcall [Hshake _]].
  exact (conj Hcall (Hshake eq_refl)).
Defined.

Definition secondAnswer : JsFields :=
  [ ("jsonrpc", JsString "2.0"); ("id", JsString "7f");
    ("error", JsObject [("code", JsNumber (-32601));
                        ("message", JsString "Method not found")]) ].

(** An answer to the call [7f] whose error does not convert to text. *)
Definition unprintableResponse : JsFields :=
  [ ("jsonrpc", JsString "2.0"); ("id", JsString "7f"); ("error", unprintable) ].

Lemma repeated_response_is_ignored_witness :
  (Map_get "7f" (pending (handle RpcClaims.resultResponse RpcClaims.busy)) = None /\
   handle secondAnswer (handle RpcClaims.resultResponse RpcClaims.busy)
   = handle RpcClaims.resultResponse RpcClaims.busy /\
   timesSettled 1%nat
     (handle secondAnswer (handle RpcClaims.resultResponse RpcClaims.busy))
   = 1%nat) /\
  (Map_get "7f" (pending (handle unprintableResponse RpcClaims.busy)) = None /\
   handle secondAnswer (handle unprintableResponse RpcClaims.busy)
   = handle unprintableResponse RpcClaims.busy /\
   timesSettled 1%nat (handle secondAnswer (handle unprintableResponse RpcClaims.busy))
   = 0%nat).
Proof.
  split.
  - refine (repeated_response_is_ignored RpcClaims.busy "7f" 1%nat
              RpcClaims.resultResponse secondAnswer RpcClaims.busy_reachable
              eq_refl _ eq_refl eq_refl eq_refl).
    discriminate.
  - refine (repeated_response_is_ignored RpcClaims.busy "7f" 1%nat
              unprintableResponse secondAnswer RpcClaims.busy_reachable
              eq_refl _ eq_refl eq_refl eq_refl).
    discriminate.
Defined.

End SessionLaws.

(** ** The configuration file and the start-up of the server *)

Module StartupLaws.
Import Server.

(** *** What a configuration file sets *)

(** The JSON text of a configuration file in which each of the four
    properties of [autorun_mode] is present or left out. *)
Definition property {A : Type} (key : string) (json : A -> JsValue)
  (value : option A) : JsFields :=
  match value with
  | Some a => [(key, json a)]
  | None => []
  end.

Definition stringArray (items : list string) : JsValue :=
  JsArray (map JsString items).

Definition configurationFile (onOff : option bool)
  (allowed denied : option (list string)) (others : option bool) : JsValue :=
  JsObject
    [ ("autorun_mode",
       JsObject (property "enabled" JsBool onOff
                 ++ property "allowlist" stringArray allowed
                 ++ property "denylist" stringArray denied
                 ++ property "allow_all_other_commands" JsBool others)%list) ].

Definition orDefault {A : Type} (default : A) (value : option A) : A :=
  match value with
  | Some a => a
  | None => default
  end.

Lemma strings_map (items : list string) :
  Schema.strings (map JsString items) = Some items.
Proof.
  induction items as [|s items IH]; simpl; [reflexivity | now rewrite IH].
Qed.

Section WithParser.
Context {json : JsonParser}.

(** A valid configuration replaces the active one as a whole: the new
    configuration holds the properties the text gives, read back exactly, and
    the default ([false], the empty list) for each property the text leaves
    out; nothing of the configuration active before remains. *)
Theorem valid_configuration_replaces_the_active_one
  (onOff : option bool) (allowed denied : option (list string))
  (others : option bool) (jsonString : string) (activeConfig : ApprovalConfig) :
  JSON_parse jsonString = Some (configurationFile onOff allowed denied others) ->
  setConfigFromJson jsonString activeConfig
  = {| autorun_mode :=
         {| enabled := orDefault false onOff;
            allowlist := orDefault [] allowed;
            denylist := orDefault [] denied;
            allow_all_other_commands := orDefault false others |} |}.
Proof.
  intros Hparse. unfold setConfigFromJson. rewrite Hparse.
  destruct onOff as [e|], allowed as [a|], denied as [d|], others as [o|];
    cbn; rewrite ?strings_map; reflexivity.
Qed.

(** *** The arguments of the command line *)

Variable readFileSync : string -> option string.

Lemma processArgs_app (args : list string) :
  forall (activeConfig loaded : ApprovalConfig) (more : list string),
    (processArgs readFileSync args activeConfig = Started loaded ->
     processArgs readFileSync (args ++ more) activeConfig
     = processArgs readFileSync more loaded) /\
    (forall arg,
       processArgs readFileSync (arg :: args) activeConfig = Started loaded ->
       processArgs readFileSync ((arg :: args) ++ more) activeConfig
       = processArgs readFileSync more loaded).
Proof.
  induction args as [|next args IH]; intros activeConfig loaded more.
  - split.
    + cbn. now intros [= ->].
    + intros arg. cbn. destruct (isFileFlag arg); [discriminate | ].
      now intros [= ->].
  - split.
    + apply (proj2 (IH activeConfig loaded more)).
    + intros arg. cbn [processArgs app]. destruct (isFileFlag arg).
      * apply (proj1 (IH _ loaded more)).
      * apply (proj2 (IH activeConfig loaded more)).
Qed.

(** The arguments are handled from left to right, each flag on the
    configuration the arguments before it have left.  After arguments that
    were handled to their end, a flag [--file] or [-f] with a path sets the
    configuration of that file when it can be read and is valid, and keeps
    the configuration otherwise (the server starts all the same); the same
    flag as the last argument, without a path, ends the process with the
    code 1. *)
Theorem arguments_are_handled_from_left_to_right
  (args more : list string) (activeConfig loaded : ApprovalConfig)
  (flag configPath : string) :
  processArgs readFileSync args activeConfig = Started loaded ->
  isFileFlag flag = true ->
  processArgs readFileSync (args ++ more) activeConfig
  = processArgs readFileSync more loaded /\
  processArgs readFileSync (args ++ [flag; configPath]) activeConfig
  = Started (match readFileSync configPath with
             | Some fileContent => setConfigFromJson fileContent loaded
             | None => loaded
             end) /\
  processArgs readFileSync (args ++ [flag]) activeConfig = Exited 1.
Proof.
  intros Hargs Hflag.
  pose proof (fun more => proj1 (processArgs_app args activeConfig loaded more) Hargs)
    as Happ.
  split; [apply Happ | split]; rewrite Happ; cbn; now rewrite Hflag.
Qed.

Lemma processArgs_exit (args : list string) :
  forall (activeConfig : ApprovalConfig) (code : Z),
    let dangling (all : list string) :=
      code = 1 /\
      exists before flag loaded,
        all = (before ++ [flag])%list /\ isFileFlag flag = true /\
        processArgs readFileSync before activeConfig = Started loaded in
    (processArgs readFileSync args activeConfig = Exited code -> dangling args) /\
    (forall arg,
       processArgs readFileSync (arg :: args) activeConfig = Exited code ->
       dangling (arg :: args)).
Proof.
  induction args as [|next args IH]; intros activeConfig code dangling.
  - split; [discriminate | ].
    intros arg. cbn. destruct (isFileFlag arg) eqn:Hflag; [ | discriminate].
    intros [= <-]. split; [reflexivity | ].
    exists [], arg, activeConfig. auto.
  - split; [apply (proj2 (IH activeConfig code)) | ].
    intros arg. cbn [processArgs]. destruct (isFileFlag arg) eqn:Hflag.
    + intros Hexit.
      destruct (proj1 (IH _ code) Hexit) as [Hcode [before [flag [loaded [Heq [Hf Hb]]]]]].
      split; [exact Hcode | ].
      exists (arg :: next :: before), flag, loaded.
      split; [now rewrite Heq | split; [exact Hf | ]].
      cbn [processArgs]. now rewrite Hflag.
    + intros Hexit.
      destruct (proj2 (IH activeConfig code) next Hexit)
        as [Hcode [before [flag [loaded [Heq [Hf Hb]]]]]].
      split; [exact Hcode | ].
      exists (arg :: before), flag, loaded.
      split; [now rewrite Heq | split; [exact Hf | ]].
      cbn [processArgs]. now rewrite Hflag.
Qed.

(** The start-up ends the process in one case only, with the code 1: the last
    argument is a flag [--file] or [-f] in the place of a flag, with no path
    after it.  A file that is missing, unreadable, not JSON or not a valid
    configuration never stops the server, and neither does an argument it
    does not know. *)
Theorem startup_exits_only_on_a_flag_without_path
  (args : list string) (activeConfig : ApprovalConfig) (code : Z) :
  processArgs readFileSync args activeConfig = Exited code <->
  code = 1 /\
  exists before flag loaded,
    args = (before ++ [flag])%list /\ isFileFlag flag = true /\
    processArgs readFileSync before activeConfig = Started loaded.
Proof.
  split.
  - apply (proj1 (processArgs_exit args activeConfig code)).
  - intros [-> [before [flag [loaded [-> [Hflag Hbefore]]]]]].
    rewrite (proj1 (processArgs_app before activeConfig loaded [flag]) Hbefore).
    cbn. now rewrite Hflag.
Qed.

End WithParser.

(** *** Examples *)

(** A file system with one file, whose content is not a configuration. *)
Definition oneFile (path : string) : option string :=
  if String.eqb path "autorun.json" then Some "{}" else None.

(** A parser that knows the text of one configuration file. *)
Definition denylistOnly : JsonParser :=
  {| JSON_parse := fun text =>
       if String.eqb text "{ autorun_mode: { denylist: [rm] } }"
       then Some (configurationFile None None (Some ["rm"]) None)
       else None |}.

Lemma valid_configuration_replaces_the_active_one_witness :
  setConfigFromJson (json := denylistOnly) "{ autorun_mode: { denylist: [rm] } }"
    PolicyLaws.readmeConfig
  = {| autorun_mode :=
         {| enabled := false; allowlist := []; denylist := ["rm"];
            allow_all_other_commands := false |} |}.
Proof.
  exact (valid_configuration_replaces_the_active_one (json := denylistOnly)
           None None (Some ["rm"]) None "{ autorun_mode: { denylist: [rm] } }"
           PolicyLaws.readmeConfig eq_refl).
Defined.

Lemma arguments_are_handled_from_left_to_right_witness :
  let processArgs := processArgs (json := ConfigClaims.sampleParser) oneFile in
  let args := ["--verbose"; "-f"; "missing.json"] in
  processArgs (args ++ ["--port"; "80"])%list defaultConfig
  = processArgs ["--port"; "80"] defaultConfig /\
  processArgs (args ++ ["--file"; "autorun.json"])%list defaultConfig
  = Started defaultConfig /\
  processArgs (args ++ ["--file"])%list defaultConfig = Exited 1.
Proof.
  exact (arguments_are_handled_from_left_to_right (json := ConfigClaims.sampleParser)
           oneFile ["--verbose"; "-f"; "missing.json"] ["--port"; "80"]
           defaultConfig defaultConfig "--file" "autorun.json" eq_refl eq_refl).
Defined.

Lemma startup_exits_only_on_a_flag_without_path_witness :
  processArgs (json := ConfigClaims.sampleParser) oneFile
    ["-f"; "autorun.json"; "--file"] defaultConfig
  = Exited 1.
Proof.
  apply (startup_exits_only_on_a_flag_without_path
           (json := ConfigClaims.sampleParser) oneFile).
  split; [reflexivity | ].
  exists ["-f"; "autorun.json"], "--file", defaultConfig.
  repeat split.
Defined.

End StartupLaws.

(** ** The tool handler of the server *)

Module HandlerLaws.
Import Server.

(** *** Line feeds *)

Lemma includes_char_app (s t : string) (c : ascii) :
  Js.includes (s ++ t) (String c EmptyString)
  = Js.includes s (String c EmptyString) || Js.includes t (String c EmptyString).
Proof.
  induction s as [|d s IH].
  - cbn [append Js.includes String.prefix]. now destruct t.
  - cbn [append Js.includes String.prefix]. rewrite IH.
    destruct (ascii_dec c d); [now destruct s, t | reflexivity].
Qed.

Lemma safeParse_single_line (args : JsValue) (data : Types.RunTerminalCmdArgs) :
  safeParse args = Some data -> Js.includes (Types.command data) Js.LF = false.
Proof.
  unfold safeParse. destruct args as [| |b|n|s|items|fields]; try discriminate.
  destruct (Value.field "command" fields) as [| |b|n|command|items|fs];
    try discriminate.
  destruct (Value.field "explanation" fields) as [| |b|n|explanation|items|fs];
    try discriminate.
  destruct (Value.field "is_background" fields) as [| |b|n|s|items|fs];
    try discriminate.
  destruct (Value.field "require_user_approval" fields) as [| |a|n|s|items|fs];
    try discriminate.
  destruct (Js.includes command Js.LF) eqn:Hlf; [discriminate | ].
  now intros [= <-].
Qed.

Definition singleLine (call : Node.ExecCall) : Prop :=
  Js.includes (Node.exec_command call) Js.LF = false.

Lemma run_single_line (data : Types.RunTerminalCmdArgs)
  (events : list Node.ChildEvent) :
  Js.includes (Types.command data) Js.LF = false ->
  Forall singleLine (launched (run data events)).
Proof.
  intros Hline. unfold run. destruct (Types.is_background data).
  - repeat constructor. unfold singleLine. cbn [runBackground launched Node.exec_command].
    unfold Js.LF in *. now rewrite includes_char_app, Hline.
  - repeat constructor. exact Hline.
Qed.

Section WithEngine.
Context {engine : RegExpEngine}.

(** No command made of more than one line reaches the shell through the
    tool: whatever the request holds, every call of [exec] the handler brings
    about has a command without a line feed (the [ &] added for a background
    command included), under any configuration and in both revisions of
    [exec.ts]. *)
Theorem no_line_feed_reaches_the_shell
  (cfg : ApprovalConfig) (events : list Node.ChildEvent) (now : Z)
  (params : JsFields) :
  Forall singleLine
    (started (callTool (fun data => Exec.executeCommand cfg data events) now params))
  /\
  Forall singleLine
    (started (callTool (fun data => ExecApproval.executeCommand cfg data events)
                now params)).
Proof.
  unfold callTool. cbv zeta.
  destruct (negb (Value.truthy (Value.field "name" params))
            || isNotTheTool (Value.field "name" params));
    [split; constructor | ].
  destruct (safeParse (Value.field "arguments" params)) as [data|] eqn:Hparse;
    [ | split; constructor].
  pose proof (safeParse_single_line _ data Hparse) as Hline.
  cbn [started]. split.
  - destruct (CaptureLaws.Exec_gate cfg data) as [[o Hgate]|Hgate].
    + destruct (Hgate events) as [-> _]. constructor.
    + rewrite Hgate. now apply run_single_line.
  - destruct (CaptureLaws.ExecApproval_gate cfg data) as [[o Hgate]|Hgate].
    + destruct (Hgate events) as [-> _]. constructor.
    + rewrite Hgate. now apply run_single_line.
Qed.

(** *** Every request for the tool is answered *)

Import Foreground.

Definition notWaiting (st : Capture) : Prop :=
  settled st <> Some Types.waiting.

Lemma notWaiting_resolve (o : Types.CommandExecOutcome) (st : Capture) :
  o <> Types.waiting -> notWaiting st -> notWaiting (resolve o st).
Proof.
  intros Ho Hst. unfold notWaiting, resolve in *.
  destruct (settled st) as [o'|] eqn:Hs; [now rewrite Hs | ].
  cbn [settled]. congruence.
Qed.

Lemma notWaiting_handle (command : string) (ev : Node.ChildEvent) (st : Capture) :
  notWaiting st -> notWaiting (handle command ev st).
Proof.
  intros Hst. destruct ev as [data|data|code|err]; cbn [handle].
  - unfold onStdoutData. destruct (_ >? _); [exact Hst | ].
    destruct (negb _); exact Hst.
  - unfold onStderrData. destruct (_ >? _); [exact Hst | ].
    destruct (negb _); exact Hst.
  - unfold onClose. apply notWaiting_resolve; [discriminate | exact Hst].
  - unfold onError. destruct (_ || _);
      (apply notWaiting_resolve; [discriminate | exact Hst]).
Qed.

Lemma notWaiting_deliver (command : string) (events : list Node.ChildEvent)
  (st : Capture) :
  notWaiting st -> notWaiting (deliver command events st).
Proof.
  revert st. induction events as [|ev events IH]; intros st Hst; [exact Hst | ].
  change (deliver command (ev :: events) st)
    with (deliver command events (handle command ev st)).
  now apply IH, notWaiting_handle.
Qed.

Lemma Exec_never_waits (cfg : ApprovalConfig) (data : Types.RunTerminalCmdArgs)
  (events : list Node.ChildEvent) :
  outcome (Exec.executeCommand cfg data events) <> Fulfilled Types.waiting.
Proof.
  unfold Exec.executeCommand.
  destruct (Exec.isCommandDenied cfg (Types.command data)) as [[|]|e];
    try discriminate.
  unfold run. destruct (Types.is_background data); [discriminate | ].
  cbn [runForeground outcome].
  pose proof (notWaiting_deliver (Types.command data) events start) as Hnot.
  unfold notWaiting in Hnot.
  destruct (settled (deliver (Types.command data) events start)) as [o|];
    [ | discriminate].
  intros [= ->]. apply Hnot; [discriminate | reflexivity].
Qed.

(** With the revision of [exec.ts] that has no approval flag, the handler
    never runs off the end of its [switch]: it does not return [undefined].
    Every result it returns carries the identifier of the request when that
    is a true value and [call_] followed by the time otherwise (the
    fall-backs [parse_error_id] and [exec_error_id] are never used), and
    leaves [isError] out exactly when its text is the result of a command
    that ran. *)
Theorem every_tool_call_is_answered
  (cfg : ApprovalConfig) (events : list Node.ChildEvent) (now : Z)
  (params : JsFields) :
  let handled := callTool (fun data => Exec.executeCommand cfg data events) now params in
  answer handled <> AnsweredUndefined /\
  forall result, answer handled = Answered result ->
    toolCallId result
    = (if Value.truthy (Value.field "id" params) then Value.field "id" params
       else JsString ("call_" ++ Js.String_of_Z now)) /\
    Value.truthy (toolCallId result) = true /\
    (isError result = None <-> exists ran, content result = PayloadResult ran) /\
    (isError result <> None -> isError result = Some true).
Proof.
  intros handled.
  assert (Hid : forall fallback,
             coalesce (orElse (Value.field "id" params)
                               (JsString ("call_" ++ Js.String_of_Z now))) fallback
             = orElse (Value.field "id" params)
                      (JsString ("call_" ++ Js.String_of_Z now))).
  { intros fallback. unfold orElse.
    destruct (Value.truthy (Value.field "id" params)) eqn:Ht; [ | reflexivity].
    destruct (Value.field "id" params); try reflexivity; discriminate. }
  assert (Htrue : Value.truthy
                    (orElse (Value.field "id" params)
                            (JsString ("call_" ++ Js.String_of_Z now))) = true).
  { unfold orElse. destruct (Value.truthy (Value.field "id" params)) eqn:Ht;
      [exact Ht | reflexivity]. }
  assert (Hshape : forall payload flag,
             (flag = None <-> exists ran, payload = PayloadResult ran) ->
             (flag <> None -> flag = Some true) ->
             forall result,
               Answered {| toolCallId :=
                             orElse (Value.field "id" params)
                                    (JsString ("call_" ++ Js.String_of_Z now));
                           content := payload; isError := flag |}
               = Answered result ->
               toolCallId result
               = (if Value.truthy (Value.field "id" params)
                  then Value.field "id" params
                  else JsString ("call_" ++ Js.String_of_Z now)) /\
               Value.truthy (toolCallId result) = true /\
               (isError result = None <-> exists ran, content result = PayloadResult ran) /\
               (isError result <> None -> isError result = Some true)).
  { intros payload flag Hiff Hsome result [= <-]. cbn [toolCallId content isError].
    split; [reflexivity | split; [exact Htrue | split; assumption]]. }
  assert (Hfailed : forall payload,
             (forall ran, payload <> PayloadResult ran) ->
             (Some true = None <-> exists ran, payload = PayloadResult ran) /\
             (Some true <> None -> Some true = Some true)).
  { intros payload Hno. split; [split | reflexivity].
    - discriminate.
    - intros [ran H]. now apply Hno in H. }
  unfold handled, callTool. cbv zeta.
  destruct (negb (Value.truthy (Value.field "name" params))
            || isNotTheTool (Value.field "name" params));
    [split; [discriminate | discriminate] | ].
  destruct (safeParse (Value.field "arguments" params)) as [data|].
  - cbn [answer]. pose proof (Exec_never_waits cfg data events) as Hnever.
    destruct (outcome (Exec.executeCommand cfg data events)) as [[r| |e]|e|].
    + split; [discriminate | ]. apply Hshape.
      * split; [intros _; now exists r | reflexivity].
      * intros H. now contradiction H.
    + now contradiction Hnever.
    + split; [discriminate | ].
      apply Hshape; apply (Hfailed (PayloadError e)); discriminate.
    + split; [discriminate | ]. rewrite Hid.
      apply Hshape; apply (Hfailed (PayloadInternalError e)); discriminate.
    + split; discriminate.
  - cbn [answer]. split; [discriminate | ]. rewrite Hid.
    apply Hshape;
      apply (Hfailed (PayloadInvalidArguments (Value.field "arguments" params)));
      discriminate.
Qed.

(** With the revision that has the approval flag, the handler has no answer
    for a request that has to wait: under a disabled policy, the default, a
    valid request with [require_user_approval] starts nothing and the handler
    returns [undefined]. *)
Theorem waiting_request_gets_no_result
  (cfg : ApprovalConfig) (events : list Node.ChildEvent) (now : Z)
  (params : JsFields) (data : Types.RunTerminalCmdArgs) :
  Value.field "name" params = JsString toolName ->
  safeParse (Value.field "arguments" params) = Some data ->
  Types.require_user_approval data = true ->
  enabled (autorun_mode cfg) = false ->
  callTool (fun data => ExecApproval.executeCommand cfg data events) now params
  = {| started := []; answer := AnsweredUndefined |}.
Proof.
  intros Hname Hparse Hflag Hoff. unfold callTool. cbv zeta.
  rewrite Hname, Hparse. cbn [Value.truthy isNotTheTool negb orb].
  change (negb (String.eqb toolName "") || negb (String.eqb toolName toolName))
    with false. cbv iota.
  now rewrite (PolicyLaws.ExecApproval_disabled_flagged
                 cfg data events Hoff Hflag).
Qed.

End WithEngine.

(** *** Examples *)

Definition listFiles : JsValue :=
  JsObject [ ("command", JsString "ls -la"); ("explanation", JsString "List files");
             ("is_background", JsBool false);
             ("require_user_approval", JsBool true) ].

Definition listFilesCall : JsFields :=
  [ ("name", JsString toolName); ("id", JsString "call_123");
    ("arguments", listFiles) ].

Lemma waiting_request_gets_no_result_witness :
  callTool (fun data => ExecApproval.executeCommand (engine := literalEngine)
                          defaultConfig data [Node.Close (Some 0)])
           1700000000000 listFilesCall
  = {| started := []; answer := AnsweredUndefined |}.
Proof.
  exact (waiting_request_gets_no_result (engine := literalEngine) defaultConfig
           [Node.Close (Some 0)] 1700000000000 listFilesCall
           {| Types.command := "ls -la"; Types.explanation := "List files";
              Types.is_background := false; Types.require_user_approval := true |}
           eq_refl eq_refl eq_refl eq_refl).
Defined.

End HandlerLaws.

(** ** The command line of a stdio server and the transports *)

Module TransportLaws.
Import StdioTransport Transport.

(** *** White space *)

Fixpoint isBlank (s : string) : bool :=
  match s with
  | EmptyString => true
  | String c rest => isWhiteSpace c && isBlank rest
  end.

Fixpoint hasWhiteSpace (s : string) : bool :=
  match s with
  | EmptyString => false
  | String c rest => isWhiteSpace c || hasWhiteSpace rest
  end.

(** The characters of [s] that are not white space, in order. *)
Fixpoint withoutWhiteSpace (s : string) : string :=
  match s with
  | EmptyString => EmptyString
  | String c rest =>
      if isWhiteSpace c then withoutWhiteSpace rest
      else String c (withoutWhiteSpace rest)
  end.

(** A word of a command line: not empty, and without white space. *)
Definition isWord (s : string) : Prop :=
  s <> "" /\ hasWhiteSpace s = false.

Definition startsWithWhiteSpace (s : string) : bool :=
  match s with
  | EmptyString => false
  | String c _ => isWhiteSpace c
  end.

(** The text is empty or its last character is white space. *)
Fixpoint endsOpen (s : string) : bool :=
  match s with
  | EmptyString => true
  | String c rest =>
      match rest with
      | EmptyString => isWhiteSpace c
      | String _ _ => endsOpen rest
      end
  end.

Fixpoint join (words : list string) : string :=
  match words with
  | [] => ""
  | [word] => word
  | word :: rest => word ++ " " ++ join rest
  end.

(** *** [trim] *)

Lemma trimStart_blank (s : string) : trimStart s = "" <-> isBlank s = true.
Proof.
  induction s as [|c s IH]; simpl; [tauto | ].
  destruct (isWhiteSpace c); simpl; [exact IH | split; discriminate].
Qed.

Lemma trimStart_head (s : string) :
  startsWithWhiteSpace (trimStart s) = false.
Proof.
  induction s as [|c s IH]; simpl; [reflexivity | ].
  destruct (isWhiteSpace c) eqn:Hc; [exact IH | simpl; exact Hc].
Qed.

Lemma trimEnd_blank (s : string) : trimEnd s = "" <-> isBlank s = true.
Proof.
  induction s as [|c s IH]; simpl; [tauto | ].
  destruct (trimEnd s) as [|d kept].
  - destruct (isWhiteSpace c); simpl; [tauto | split; discriminate].
  - split; [discriminate | ].
    rewrite andb_true_iff. intros [_ H]. apply IH in H. discriminate.
Qed.

Lemma trimEnd_head (s : string) :
  startsWithWhiteSpace s = false ->
  startsWithWhiteSpace (trimEnd s) = false.
Proof.
  destruct s as [|c s]; simpl; [reflexivity | ].
  intros Hc. destruct (trimEnd s); [rewrite Hc | ]; simpl; auto.
Qed.

Lemma trimEnd_closed (s : string) :
  trimEnd s = "" \/ endsOpen (trimEnd s) = false.
Proof.
  induction s as [|c s IH]; simpl; [now left | ].
  destruct (trimEnd s) as [|d kept] eqn:Hkept.
  - destruct (isWhiteSpace c) eqn:Hc; [now left | right; simpl; exact Hc].
  - right. destruct IH as [IH|IH]; [discriminate | exact IH].
Qed.

Lemma trim_blank (s : string) : trim s = "" <-> isBlank s = true.
Proof.
  unfold trim. rewrite trimEnd_blank. split.
  - intros Hblank. apply trimStart_blank.
    pose proof (trimStart_head s) as Hhead.
    destruct (trimStart s) as [|c rest]; [reflexivity | ].
    simpl in Hhead, Hblank. now rewrite Hhead in Hblank.
  - intros Hblank. apply trimStart_blank in Hblank. now rewrite Hblank.
Qed.

Lemma withoutWhiteSpace_trimStart (s : string) :
  withoutWhiteSpace (trimStart s) = withoutWhiteSpace s.
Proof.
  induction s as [|c s IH]; simpl; [reflexivity | ].
  destruct (isWhiteSpace c) eqn:Hc; [exact IH | simpl; now rewrite Hc].
Qed.

Lemma withoutWhiteSpace_trimEnd (s : string) :
  withoutWhiteSpace (trimEnd s) = withoutWhiteSpace s.
Proof.
  induction s as [|c s IH]; simpl; [reflexivity | ].
  destruct (trimEnd s) as [|d kept].
  - simpl in IH. rewrite <- IH.
    destruct (isWhiteSpace c) eqn:Hc; simpl; rewrite ?Hc; reflexivity.
  - cbn [withoutWhiteSpace] in *. now rewrite IH.
Qed.

(** *** [split] *)

Lemma split_some (afterSeparator : bool) (s : string) :
  exists piece pieces, split afterSeparator s = piece :: pieces.
Proof.
  revert afterSeparator. induction s as [|c s IH]; intros afterSeparator; simpl.
  - now exists "", [].
  - destruct (isWhiteSpace c).
    + destruct afterSeparator; [apply IH | ]. eexists. eexists. reflexivity.
    + destruct (IH false) as [piece [pieces ->]]. eexists. eexists. reflexivity.
Qed.

Lemma split_clean (afterSeparator : bool) (s : string) :
  Forall (fun piece => hasWhiteSpace piece = false) (split afterSeparator s).
Proof.
  revert afterSeparator. induction s as [|c s IH]; intros afterSeparator; simpl.
  - repeat constructor.
  - destruct (isWhiteSpace c) eqn:Hc.
    + destruct afterSeparator; [apply IH | ]. constructor; [reflexivity | apply IH].
    + specialize (IH false). destruct (split false s) as [|piece pieces].
      * repeat constructor. simpl. now rewrite Hc.
      * inversion IH as [|? ? Hpiece Hpieces]; subst.
        constructor; [simpl; now rewrite Hc | exact Hpieces].
Qed.

Lemma split_concat (afterSeparator : bool) (s : string) :
  fold_right append "" (split afterSeparator s) = withoutWhiteSpace s.
Proof.
  revert afterSeparator. induction s as [|c s IH]; intros afterSeparator; simpl.
  - reflexivity.
  - destruct (isWhiteSpace c).
    + destruct afterSeparator; [apply IH | ]. simpl. apply IH.
    + specialize (IH false). destruct (split_some false s) as [piece [pieces Hs]].
      rewrite Hs in *. simpl in *. now rewrite IH.
Qed.

(** On a text that ends with a character other than white space, the pieces
    are not empty, but for an empty first piece before a leading run. *)
Lemma split_words (s : string) :
  endsOpen s = false ->
  forall afterSeparator,
    (startsWithWhiteSpace s = false ->
     Forall (fun piece => piece <> "") (split afterSeparator s)) /\
    (startsWithWhiteSpace s = true ->
     Forall (fun piece => piece <> "") (split true s)).
Proof.
  induction s as [|c s IH]; [discriminate | ].
  intros Hend afterSeparator. cbn [startsWithWhiteSpace split].
  destruct s as [|d s].
  - cbn [endsOpen] in Hend. rewrite Hend. split; [ | discriminate].
    intros _. cbn. repeat constructor. discriminate.
  - assert (Hrest : endsOpen (String d s) = false) by exact Hend.
    destruct (isWhiteSpace c) eqn:Hc.
    + split; [discriminate | ]. intros _.
      destruct (startsWithWhiteSpace (String d s)) eqn:Hd.
      * now apply (proj2 (IH Hrest true)).
      * now apply (proj1 (IH Hrest true)).
    + split; [ | discriminate]. intros _.
      destruct (startsWithWhiteSpace (String d s)) eqn:Hd.
      * pose proof (proj2 (IH Hrest true) eq_refl) as Hwords.
        cbn [startsWithWhiteSpace] in Hd. cbn [split] in *. rewrite Hd in *.
        constructor; [discriminate | exact Hwords].
      * pose proof (proj1 (IH Hrest false) eq_refl) as Hwords.
        destruct (split_some false (String d s)) as [piece [pieces Hs]].
        rewrite Hs in *. inversion Hwords; subst.
        constructor; [discriminate | assumption].
Qed.

(** *** [parseCommandString] *)

Lemma trim_words (s : string) :
  isBlank s = false ->
  Forall isWord (split false (trim s)).
Proof.
  intros Hblank.
  assert (Hne : trim s <> "").
  { intros H. apply trim_blank in H. congruence. }
  assert (Hhead : startsWithWhiteSpace (trim s) = false)
    by (apply trimEnd_head, trimStart_head).
  assert (Hend : endsOpen (trim s) = false).
  { destruct (trimEnd_closed (trimStart s)) as [H|H]; [contradiction | exact H]. }
  pose proof (proj1 (split_words (trim s) Hend false) Hhead) as Hwords.
  pose proof (split_clean false (trim s)) as Hclean.
  induction Hwords as [|piece pieces Hpiece _ IH]; [constructor | ].
  inversion Hclean; subst. constructor; [now split | now apply IH].
Qed.

Lemma parseCommandString_words (commandString : string) :
  (parseCommandString commandString
   = ThrewError (invalidCommandString commandString)
   <-> isBlank commandString = true) /\
  (isBlank commandString = false ->
   exists executable args,
     parseCommandString commandString = Returned (executable, args) /\
     Forall isWord (executable :: args) /\
     fold_right append "" (executable :: args)
     = withoutWhiteSpace commandString).
Proof.
  assert (Hconcat : fold_right append "" (split false (trim commandString))
                    = withoutWhiteSpace commandString).
  { rewrite split_concat. unfold trim.
    now rewrite withoutWhiteSpace_trimEnd, withoutWhiteSpace_trimStart. }
  unfold parseCommandString.
  destruct (isBlank commandString) eqn:Hblank.
  - split; [ | discriminate].
    apply trim_blank in Hblank. rewrite Hblank. cbn. tauto.
  - pose proof (trim_words commandString Hblank) as Hwords.
    destruct (split_some false (trim commandString)) as [executable [args Hs]].
    rewrite Hs in *.
    inversion Hwords as [|? ? [Hne Hclean] Hargs]; subst.
    destruct (String.eqb_spec executable "") as [->|_]; [contradiction | ].
    split; [split; discriminate | ].
    intros _. exists executable, args. auto.
Qed.

(** [parseCommandString] throws exactly on the command lines that are empty
    or all white space.  On every other it returns the words of the line:
    each is non-empty and holds no white space, and together they hold every
    character of the line that is not white space, in order.  Quotes are
    characters like any other: no word ever holds a space. *)
Theorem command_line_is_cut_into_its_words (commandString : string) :
  (parseCommandString commandString
   = ThrewError (invalidCommandString commandString)
   <-> isBlank commandString = true) /\
  (isBlank commandString = false ->
   exists executable args,
     parseCommandString commandString = Returned (executable, args) /\
     Forall isWord (executable :: args) /\
     fold_right append "" (executable :: args)
     = withoutWhiteSpace commandString).
Proof. exact (parseCommandString_words commandString). Qed.

Lemma split_word (word rest : string) :
  hasWhiteSpace word = false ->
  split false (word ++ rest)
  = match split false rest with
    | piece :: pieces => (word ++ piece) :: pieces
    | [] => [word]
    end.
Proof.
  induction word as [|c word IH]; intros Hclean.
  - cbn [append]. now destruct (split_some false rest) as [piece [pieces ->]].
  - cbn [hasWhiteSpace] in Hclean. apply orb_false_iff in Hclean.
    destruct Hclean as [Hc Hclean]. cbn [append split]. rewrite Hc, (IH Hclean).
    destruct (split_some false rest) as [piece [pieces ->]]. reflexivity.
Qed.

Lemma split_flag (s : string) :
  startsWithWhiteSpace s = false -> split true s = split false s.
Proof. destruct s as [|c s]; cbn; [reflexivity | ]. now intros ->. Qed.

Lemma join_head (word : string) (words : list string) :
  isWord word -> startsWithWhiteSpace (join (word :: words)) = false.
Proof.
  intros [Hne Hclean]. destruct word as [|c word]; [contradiction | ].
  cbn [hasWhiteSpace] in Hclean. apply orb_false_iff in Hclean.
  cbn [join]. destruct words; cbn; tauto.
Qed.

Lemma join_cons (word next : string) (words : list string) :
  join (word :: next :: words) = word ++ String " " (join (next :: words)).
Proof. reflexivity. Qed.

Lemma split_space (rest : string) :
  split false (String " " rest) = "" :: split true rest.
Proof. reflexivity. Qed.

Lemma split_join (word : string) (words : list string) :
  Forall isWord (word :: words) ->
  split false (join (word :: words)) = word :: words.
Proof.
  revert word. induction words as [|next words IH]; intros word Hwords;
    inversion Hwords as [|? ? [Hne Hclean] Hrest]; subst.
  - cbn [join]. rewrite <- (Capture.append_empty word) at 1.
    rewrite (split_word word "" Hclean). cbn. now rewrite Capture.append_empty.
  - rewrite join_cons, (split_word word _ Hclean), split_space.
    rewrite split_flag by (inversion Hrest; now apply join_head).
    rewrite (IH next Hrest). now rewrite Capture.append_empty.
Qed.

Lemma endsOpen_append (a b : string) :
  b <> "" -> endsOpen (a ++ b) = endsOpen b.
Proof.
  intros Hb. induction a as [|c a IH]; [reflexivity | ].
  cbn [append endsOpen]. rewrite IH.
  destruct (a ++ b) eqn:Hab; [ | reflexivity].
  destruct a; [contradiction | discriminate].
Qed.

Lemma word_closed (word : string) : isWord word -> endsOpen word = false.
Proof.
  intros [Hne Hclean]. induction word as [|c word IH]; [contradiction | ].
  cbn [hasWhiteSpace] in Hclean. apply orb_false_iff in Hclean.
  destruct Hclean as [Hc Hclean]. cbn [endsOpen].
  destruct word as [|d word]; [exact Hc | ]. apply IH; [discriminate | exact Hclean].
Qed.

Lemma join_closed (word : string) (words : list string) :
  Forall isWord (word :: words) -> endsOpen (join (word :: words)) = false.
Proof.
  revert word. induction words as [|next words IH]; intros word Hwords;
    inversion Hwords as [|? ? Hword Hrest]; subst.
  - now apply word_closed.
  - rewrite join_cons, endsOpen_append by discriminate.
    pose proof (IH next Hrest) as Hclosed. cbn [endsOpen].
    destruct (join (next :: words)); [discriminate | exact Hclosed].
Qed.

Lemma trimEnd_fixed (s : string) : endsOpen s = false -> trimEnd s = s.
Proof.
  induction s as [|c s IH]; [discriminate | ].
  cbn [endsOpen trimEnd]. destruct s as [|d s].
  - intros ->. reflexivity.
  - intros Hs. now rewrite (IH Hs).
Qed.

Lemma trimStart_fixed (s : string) :
  startsWithWhiteSpace s = false -> trimStart s = s.
Proof. destruct s as [|c s]; cbn; [reflexivity | ]. now intros ->. Qed.

(** Words joined by single spaces are read back as they are: the executable
    is the first word and the arguments are the others, in order. *)
Theorem joined_words_are_read_back (executable : string) (args : list string) :
  Forall isWord (executable :: args) ->
  parseCommandString (join (executable :: args)) = Returned (executable, args).
Proof.
  intros Hwords. unfold parseCommandString, trim.
  rewrite trimStart_fixed by (inversion Hwords; now apply join_head).
  rewrite trimEnd_fixed by (now apply join_closed).
  rewrite (split_join executable args Hwords).
  inversion Hwords as [|? ? [Hne _] _]; subst.
  now destruct (String.eqb_spec executable "").
Qed.

(** *** [createTransport] *)

(** [createTransport] throws in two cases only: the command is [sse] and the
    URL is missing or empty, or the command is another one and is empty or
    all white space (the constructor of the stdio transport refuses what the
    test for an empty command lets through).  Otherwise it connects to the
    URL as it is, or spawns the first word of the command with the other
    words as arguments. *)
Theorem transport_is_created_unless_the_entry_is_blank (cfg : ServerConfig) :
  ((exists message, createTransport cfg = ThrewError message) <->
   (command cfg = "sse" /\ (sseUrl cfg = None \/ sseUrl cfg = Some "")) \/
   (command cfg <> "sse" /\ isBlank (command cfg) = true)) /\
  (forall url, createTransport cfg = Returned (SseTransport url) ->
     command cfg = "sse" /\ sseUrl cfg = Some url) /\
  (forall executable args,
     createTransport cfg = Returned (StdioTransport executable args) ->
     parseCommandString (command cfg) = Returned (executable, args) /\
     Forall isWord (executable :: args)).
Proof.
  destruct (parseCommandString_words (command cfg))
    as [Hthrow Hwords].
  unfold createTransport.
  destruct (String.eqb_spec (command cfg) "sse") as [Hsse|Hsse].
  - split; [ | split].
    + destruct (sseUrl cfg) as [url|].
      * destruct (String.eqb_spec url "") as [->|Hurl]; split.
        -- intros _. left. auto.
        -- intros _. eexists. reflexivity.
        -- intros [message H]. discriminate.
        -- intros [[_ [H|H]]|[H _]]; [discriminate | congruence | contradiction].
      * split; [intros _; left; auto | intros _; eexists; reflexivity].
    + intros url. destruct (sseUrl cfg) as [url'|]; [ | discriminate].
      destruct (String.eqb url' ""); [discriminate | ]. now intros [= ->].
    + intros executable args. destruct (sseUrl cfg) as [url'|]; [ | discriminate].
      destruct (String.eqb url' ""); discriminate.
  - destruct (isBlank (command cfg)) eqn:Hblank.
    + pose proof (proj2 Hthrow eq_refl) as Hparse.
      split; [ | split].
      * split; [intros _; right; auto | intros _].
        destruct (String.eqb (command cfg) ""); [eexists; reflexivity | ].
        rewrite Hparse. eexists. reflexivity.
      * intros url. destruct (String.eqb (command cfg) ""); [discriminate | ].
        rewrite Hparse. discriminate.
      * intros executable args.
        destruct (String.eqb (command cfg) ""); [discriminate | ].
        rewrite Hparse. discriminate.
    + destruct (Hwords eq_refl) as [executable [args [Hparse [Hall _]]]].
      destruct (String.eqb_spec (command cfg) "") as [Hempty|_];
        [rewrite Hempty in Hblank; discriminate | ].
      rewrite Hparse. split; [ | split].
      * split; [intros [message H]; discriminate | ].
        intros [[H _]|[_ H]]; [contradiction | discriminate].
      * discriminate.
      * intros executable' args' [= <- <-]. auto.
Qed.

(** *** The address of the messages *)

Lemma not_the_suffix (c : ascii) (base : string) :
  String.eqb (String c (base ++ "/sse")) "/sse" = false.
Proof.
  destruct (String.eqb_spec (String c (base ++ "/sse")) "/sse") as [Heq|];
    [ | reflexivity].
  apply (f_equal Js.length) in Heq.
  change (String c (base ++ "/sse")) with (String c "" ++ (base ++ "/sse")) in Heq.
  rewrite !Capture.length_append in Heq.
  pose proof (Capture.length_nonneg base).
  change (Js.length "/sse") with 4 in Heq. change (Js.length (String c "")) with 1 in Heq.
  lia.
Qed.

(** [send] posts to the address of the stream with its final [/sse] replaced
    by [/messages].  An address that does not end in [/sse] (one with a
    trailing slash or a query string, for instance) is left as it is, so the
    messages are posted to the address of the stream itself. *)
Theorem messages_are_posted_beside_the_stream :
  (forall base, messagesUrl (base ++ "/sse") = base ++ "/messages") /\
  (forall url, (forall base, url <> base ++ "/sse") -> messagesUrl url = url).
Proof.
  split.
  - induction base as [|c base IH]; [reflexivity | ].
    cbn [append]. unfold messagesUrl; fold messagesUrl.
    now rewrite not_the_suffix, IH.
  - induction url as [|c url IH]; intros Hno; [reflexivity | ].
    unfold messagesUrl; fold messagesUrl.
    destruct (String.eqb_spec (String c url) "/sse") as [Heq|_].
    + exfalso. now apply (Hno "").
    + f_equal. apply IH. intros base ->. now apply (Hno (String c base)).
Qed.

(** *** Examples *)

Lemma joined_words_are_read_back_witness :
  parseCommandString (join ["node"; "dist/server.js"; "--file"; "autorun.json"])
  = Returned ("node", ["dist/server.js"; "--file"; "autorun.json"]).
Proof.
  apply (joined_words_are_read_back "node"
           ["dist/server.js"; "--file"; "autorun.json"]).
  repeat constructor; discriminate.
Defined.

End TransportLaws.

(** ** The session against the mock server *)

Module MockLaws.
Import Rpc RpcFacts.
#[local] Open Scope list_scope.

(** What the mock server prints for the [initialize] request of the
    client. *)
Definition refusal : JsFields :=
  [ ("jsonrpc", JsString "2.0"); ("id", JsString INITIALIZE_ID);
    ("result", JsNull); ("error", MockServer.methodNotFound) ].

Lemma respond_initialize (clientName clientVersion : string) :
  MockServer.respond (JsObject (initializeRequest clientName clientVersion))
  = Some (JsObject refusal).
Proof. reflexivity. Qed.

Section WithParser.
Context {json : JsonParser} {numbers : NumberFormat}.

(** The mock server serves [ping] only, so it answers the [initialize]
    request of the client with the error -32601 and a [null] result, and the
    session rejects the handshake on that answer: [performHandshake] fails
    with [Initialize failed: Method not found (Code: -32601)], once, for
    every client name and version.  The line the server reads is the request
    as the transport wrote it. *)
Theorem handshake_with_the_mock_server_fails
  (c : RpcClient) (clientName clientVersion line : string) :
  reachable c -> closed c = false -> initializePromise c = None ->
  JSON_parse line = Some (JsObject (initializeRequest clientName clientVersion)) ->
  let q := fst (performHandshake clientName clientVersion c) in
  let c1 := snd (performHandshake clientName clientVersion c) in
  sent c1 = sent c ++ [initializeRequest clientName clientVersion] /\
  MockServer.onLine line = Some (JsObject refusal) /\
  stateOf q (handle refusal c1)
  = Some (Failed "Initialize failed: Method not found (Code: -32601)") /\
  timesSettled q (handle refusal c1) = 1%nat.
Proof.
  intros Hreach Hopen Hnone Hline q c1.
  assert (Hreach1 : reachable c1)
    by exact (reachable_step c (OpHandshake clientName clientVersion) Hreach).
  pose proof (reachable_wellFormed _
                (reachable_step c1 (OpMessage refusal) Hreach1)) as Hwf.
  cbn [step] in Hwf.
  assert (Hq : performHandshake clientName clientVersion c
               = (nextPromise c,
                  setInitialize (Some (nextPromise c))
                    (send (initializeRequest clientName clientVersion)
                          (snd (newPromise c))))).
  { unfold performHandshake. now rewrite Hnone. }
  split; [unfold c1; now rewrite Hq | ].
  split; [unfold MockServer.onLine; rewrite Hline; apply respond_initialize | ].
  apply (settled_once_state q _ _ (wf_once _ Hwf)).
  unfold q, c1. rewrite Hq. cbn [fst snd]. unfold handle.
  cbn [setInitialize send newPromise snd closed rejectInitialize resolveInitialize].
  rewrite Hopen.
  change (isInitializeId refusal) with true.
  change (Value.truthy (Value.field "result" refusal)) with false.
  change (Value.truthy (Value.field "error" refusal)) with true.
  change (errorText "Initialize failed: " (Value.field "error" refusal))
    with (Some "Initialize failed: Method not found (Code: -32601)").
  cbn [setInitialize settle settlements]. apply in_or_app. right. now left.
Qed.

End WithParser.

(** *** Example *)

#[local] Existing Instance decimalNumbers.

(** A parser that knows the line of one handshake. *)
Definition handshakeLine : JsonParser :=
  {| JSON_parse := fun text =>
       if String.eqb text "initialize"
       then Some (JsObject (initializeRequest "mcp-cli-client" "0.2.0"))
       else None |}.

Lemma handshake_with_the_mock_server_fails_witness :
  let q := fst (performHandshake "mcp-cli-client" "0.2.0" create) in
  let c1 := snd (performHandshake "mcp-cli-client" "0.2.0" create) in
  sent c1 = sent create ++ [initializeRequest "mcp-cli-client" "0.2.0"] /\
  MockServer.onLine (json := handshakeLine) "initialize" = Some (JsObject refusal) /\
  stateOf q (handle refusal c1)
  = Some (Failed "Initialize failed: Method not found (Code: -32601)") /\
  timesSettled q (handle refusal c1) = 1%nat.
Proof.
  exact (handshake_with_the_mock_server_fails (json := handshakeLine) create
           "mcp-cli-client" "0.2.0" "initialize" reachable_create
           eq_refl eq_refl eq_refl).
Defined.

End MockLaws.
